(** * Stormwater flow routing (process_dem_flow.py): a shallow embedding

    The development follows the Python scripts [scripts/process_dem_flow.py]
    and [archive/process_dem_flow.py]: the D8 flow directions, the
    iterative flow accumulation of the archive script with its runaway
    guard and its clamp, the extraction of flow vectors, the even sampling
    and the normalization to screen space; then the particle start
    points, the float32 accumulation of the scripts directory and the
    filling of the no-data cells in main.

    - numpy 2-D arrays are lists of rows, read with stdpp's total lookup
      and written with [alter] and [insert]; every read and write of the
      scripts is inside the array (loop ranges and explicit bounds
      checks), so the default of the total lookup is never reached on a
      rectangular array;
    - elevations are IEEE-754 binary64 numbers, numpy's float64, as
      Rocq's primitive floats: the resolver depends on NaN, on the -inf
      sentinel and on the rounded value of sqrt 2, which primitive floats
      compute as numpy does;
    - accumulation values are whole numbers: they start at 1.0 and only
      sums of such values are stored, which binary64 holds exactly below
      2^53 ([accumulation_values_exact]), so they are modelled in [Z];
    - projected coordinates are numpy float64 scalars, for which a
      division by zero gives NaN or an infinity and raises nothing; the
      normalization is written once over the arithmetic it uses and read
      in binary64 and in the rationals;
    - the accumulation of the scripts directory is in numpy's float32,
      modelled by the IEEE-754 operations of [SpecFloat] at precision 24;
    - rasterio's [xy], the affine transform and scipy's [generic_filter]
      are parameters;
    - [print] is modelled by the list of the messages printed. *)

From Stdlib Require Import ZArith List Bool Lia Floats Uint63 QArith Qround Lqa.
From stdpp Require Import base tactics option list sorting.
Import ListNotations.
#[local] Open Scope Z_scope.

(** ** numpy arrays of two dimensions *)

Abbreviation ndarray V := (list (list V)).

(** [rows, cols = a.shape] *)
Definition nrows {V} (a : ndarray V) : nat := length a.
Definition ncols {V} (a : ndarray V) : nat :=
  match a with
  | [] => 0%nat
  | r :: _ => length r
  end.

(** numpy arrays are rectangular. *)
Definition rect {V} (a : ndarray V) : Prop :=
  Forall (λ r, length r = ncols a) a.

(** [np.zeros((rows, cols))], [np.ones((rows, cols))] *)
Definition np_full {V} (rows cols : nat) (v : V) : ndarray V :=
  replicate rows (replicate cols v).

(** [a[i, j]] *)
Definition at2 {V} `{!Inhabited V} (a : ndarray V) (i j : nat) : V :=
  (a !!! i) !!! j.

(** [a[i, j] = v] *)
Definition set2 {V} (a : ndarray V) (i j : nat) (v : V) : ndarray V :=
  alter (λ r, <[j := v]> r) i a.

(** [0 <= n < len] *)
Definition in_range (n : Z) (len : nat) : bool :=
  (0 <=? n) && (n <? Z.of_nat len).

(** The cells of a [rows] x [cols] array in the order of
    [for i in range(rows): for j in range(cols)]. *)
Definition cells (rows cols : nat) : list (nat * nat) :=
  i ← seq 0 rows; (λ j, (i, j)) <$> seq 0 cols.

(** ** binary64 helpers *)

#[global] Instance float_inhabited : Inhabited float := populate 0%float.

(** A small non-negative Python int as a float. *)
Definition float_of_Z (z : Z) : float := PrimFloat.of_uint63 (Uint63.of_Z z).

(** [x > y] on floats (false as soon as one side is NaN). *)
Definition float_gt (x y : float) : bool := PrimFloat.ltb y x.

(** ** The dtype of the elevation array *)

(** [dem = src.read(1)] has the dtype of the raster, and numpy computes
    with the scalars of an array in that dtype.  The resolver does three
    things with an elevation: [np.isnan(a)]; [a - b] for two elevations,
    which numpy subtracts in the dtype of the array (rounding to float32
    or to float64, wrapping around in an integer dtype); and the division
    of that difference by the float64 [distance], for which numpy first
    converts the difference to float64.  The slope and [max_slope] are
    float64 in every case. *)
Class Elevation (E : Type) `{!Inhabited E} : Type :=
  { e_isnan : E → bool
  ; e_sub : E → E → E
  ; e_float64 : E → float }.

(** float64: binary64, Rocq's primitive floats. *)
#[global] Instance float64_elevation : Elevation float :=
  {| e_isnan := PrimFloat.is_nan
   ; e_sub := PrimFloat.sub
   ; e_float64 := λ x, x |}.

(** float32: binary32, the operations of [SpecFloat] at precision 24 and
    maximal exponent 128; every binary32 number is a binary64 number, so
    the conversion is exact. *)
#[global] Instance spec_float_inhabited : Inhabited spec_float :=
  populate (S754_zero false).

#[global] Instance float32_elevation : Elevation spec_float :=
  {| e_isnan := λ x, match x with S754_nan => true | _ => false end
   ; e_sub := SFsub 24 128
   ; e_float64 := SF2Prim |}.

(** uint16, for the integer dtypes: no value is NaN and the subtraction
    wraps around. *)
Record uint16 : Type := mk_uint16 { uint16_value : Z }.

#[global] Instance uint16_inhabited : Inhabited uint16 := populate (mk_uint16 0).

#[global] Instance uint16_elevation : Elevation uint16 :=
  {| e_isnan := λ _, false
   ; e_sub := λ x y, mk_uint16 ((uint16_value x - uint16_value y) `mod` 65536)
   ; e_float64 := λ x, float_of_Z (uint16_value x) |}.

(** ** Flow direction: calculate_flow_direction_d8 *)

(** D8 neighbor offsets (row, col) and their direction codes. *)
Definition neighbors : list (Z * Z * Z) :=
  [ (-1, 1, 128)   (* NE *)
  ; (0, 1, 1)      (* E *)
  ; (1, 1, 2)      (* SE *)
  ; (1, 0, 4)      (* S *)
  ; (1, -1, 8)     (* SW *)
  ; (0, -1, 16)    (* W *)
  ; (-1, -1, 32)   (* NW *)
  ; (-1, 0, 64)    (* N *)
  ].

Section FlowDirection.
Context {E : Type} `{!Inhabited E, !Elevation E}.

(** [distance = np.sqrt(dr**2 + dc**2)];
    [slope = (center_elev - neighbor_elev) / distance] *)
Definition slope_to (center_elev neighbor_elev : E) (dr dc : Z) : float :=
  let distance := PrimFloat.sqrt (float_of_Z (dr * dr + dc * dc)) in
  (e_float64 (e_sub center_elev neighbor_elev) / distance)%float.

(** A neighbor is looked at when it is inside the array and not NaN. *)
Definition valid_neighbor (dem : ndarray E) (i j : nat) (nb : Z * Z * Z) : bool :=
  let '(dr, dc, _) := nb in
  let ni := Z.of_nat i + dr in
  let nj := Z.of_nat j + dc in
  in_range ni (nrows dem) && in_range nj (ncols dem)
  && negb (e_isnan (at2 dem (Z.to_nat ni) (Z.to_nat nj))).

(** The slope from cell (i, j) towards a neighbor. *)
Definition neighbor_slope (dem : ndarray E) (i j : nat) (nb : Z * Z * Z) : float :=
  let '(dr, dc, _) := nb in
  let ni := Z.of_nat i + dr in
  let nj := Z.of_nat j + dc in
  slope_to (at2 dem i j) (at2 dem (Z.to_nat ni) (Z.to_nat nj)) dr dc.

(** One turn of [for dr, dc, direction_code in neighbors], on the pair
    (max_slope, flow_direction). *)
Definition scan_neighbor (dem : ndarray E) (i j : nat)
    (best : float * Z) (nb : Z * Z * Z) : float * Z :=
  let '(max_slope, flow_direction) := best in
  let '(dr, dc, direction_code) := nb in
  let ni := Z.of_nat i + dr in
  let nj := Z.of_nat j + dc in
  if in_range ni (nrows dem) && in_range nj (ncols dem) then
    let neighbor_elev := at2 dem (Z.to_nat ni) (Z.to_nat nj) in
    if negb (e_isnan neighbor_elev) then
      let slope := slope_to (at2 dem i j) neighbor_elev dr dc in
      if float_gt slope max_slope then (slope, direction_code) else best
    else best
  else best.

(** The neighbor loop of one cell, from [max_slope = -np.inf] and
    [flow_direction = 0]. *)
Definition scan_neighbors (dem : ndarray E) (i j : nat) (nbs : list (Z * Z * Z)) : float * Z :=
  fold_left (scan_neighbor dem i j) nbs (neg_infinity, 0).

(** The body of the two loops over the interior cells. *)
Definition d8_cell (dem : ndarray E) (flow_dir : ndarray Z) (i j : nat) : ndarray Z :=
  let center_elev := at2 dem i j in
  if e_isnan center_elev then flow_dir
  else set2 flow_dir i j (snd (scan_neighbors dem i j neighbors)).

Definition d8_row (dem : ndarray E) (flow_dir : ndarray Z) (i : nat) : ndarray Z :=
  fold_left (λ fd j, d8_cell dem fd i j) (seq 1 (ncols dem - 2)) flow_dir.

Definition calculate_flow_direction_d8 (dem : ndarray E) : ndarray Z :=
  let rows := nrows dem in
  let cols := ncols dem in
  let flow_dir := np_full rows cols 0 in
  fold_left (d8_row dem) (seq 1 (rows - 2)) flow_dir.

(** The slope as the specification words it, (center - neighbor) /
    distance with the distance 1 to an orthogonal neighbor and sqrt 2 to
    a diagonal one, in the arithmetic of the code: the difference in the
    dtype of the array, the quotient in float64, and for sqrt 2 its
    float64 value. *)
Definition spec_distance (nb : Z * Z * Z) : float :=
  if (nb.1.1 =? 0) || (nb.1.2 =? 0) then 1%float else 0x1.6a09e667f3bcdp+0%float.

Definition spec_slope (dem : ndarray E) (i j : nat) (nb : Z * Z * Z) : float :=
  let center := at2 dem i j in
  let neighbor :=
    at2 dem (Z.to_nat (Z.of_nat i + nb.1.1)) (Z.to_nat (Z.of_nat j + nb.1.2)) in
  (e_float64 (e_sub center neighbor) / spec_distance nb)%float.

(** Neighbor [m] is steeper than neighbor [nb] in exact arithmetic, for
    the exact values [value] of the elevations:
    (center - m) / sqrt p > (center - nb) / sqrt q, with the squared
    distances p and q, decided on the signs and the squares. *)
Definition exactly_steeper (value : E → Q) (dem : ndarray E) (i j : nat)
    (m nb : Z * Z * Z) : Prop :=
  let drop (n : Z * Z * Z) : Q :=
    (value (at2 dem i j)
     - value (at2 dem (Z.to_nat (Z.of_nat i + n.1.1)) (Z.to_nat (Z.of_nat j + n.1.2))))%Q in
  let dist2 (n : Z * Z * Z) : Q := inject_Z (n.1.1 * n.1.1 + n.1.2 * n.1.2) in
  let a := drop nb in
  let b := drop m in
  ((a < 0 ∧ 0 <= b) ∨
   (0 <= a ∧ 0 < b ∧ a * a * dist2 m < b * b * dist2 nb) ∨
   (a < 0 ∧ b < 0 ∧ b * b * dist2 nb < a * a * dist2 m))%Q.
End FlowDirection.

(** The exact value of a finite float. *)
Definition SF2Q (f : spec_float) : Q :=
  match f with
  | S754_finite s m e =>
      let v := (inject_Z (Z.pos m) * Qpower 2 e)%Q in
      if s then Qopp v else v
  | _ => 0%Q
  end.

(** ** Flow accumulation: calculate_flow_accumulation (archive script) *)

(** A Python dict written as a literal, with [k in d] and [d[k]]. *)
Fixpoint dict_get {V} (d : list (Z * V)) (k : Z) : option V :=
  match d with
  | [] => None
  | (k', v) :: d' => if k' =? k then Some v else dict_get d' k
  end.

(** Direction code to offset mapping. *)
Definition dir_to_offset : list (Z * (Z * Z)) :=
  [ (128, (-1, 1))   (* NE *)
  ; (1, (0, 1))      (* E *)
  ; (2, (1, 1))      (* SE *)
  ; (4, (1, 0))      (* S *)
  ; (8, (1, -1))     (* SW *)
  ; (16, (0, -1))    (* W *)
  ; (32, (-1, -1))   (* NW *)
  ; (64, (-1, 0))    (* N *)
  ].

(** The arrays and the flag that the loops of calculate_flow_accumulation
    update in place. *)
Record acc_state : Type := mk_acc_state
  { flow_acc : ndarray Z
  ; processed : ndarray bool
  ; changed : bool }.

(** The threshold of the loop check, [1e6], also the ceiling of the final
    [np.clip]. *)
Definition ceiling : Z := 1000000.

(** [abs(d) > 0.1] for a whole number [d]. *)
Definition exceeds_tenth (d : Z) : bool := 1 <? 10 * Z.abs d.

(** The body of [for i in range(rows): for j in range(cols)]. *)
Definition acc_cell (flow_dir : ndarray Z) (st : acc_state) (i j : nat) : acc_state :=
  let rows := nrows flow_dir in
  let cols := ncols flow_dir in
  if (at2 flow_dir i j =? 0) || at2 (processed st) i j then st
  else
    match dict_get dir_to_offset (at2 flow_dir i j) with
    | None => st
    | Some (dr, dc) =>
        let ni := Z.of_nat i + dr in
        let nj := Z.of_nat j + dc in
        if in_range ni rows && in_range nj cols then
          let ni := Z.to_nat ni in
          let nj := Z.to_nat nj in
          if ceiling <? at2 (flow_acc st) ni nj then
            mk_acc_state (flow_acc st) (set2 (processed st) i j true) (changed st)
          else
            let old_acc := at2 (flow_acc st) ni nj in
            let flow_acc' := set2 (flow_acc st) ni nj (old_acc + at2 (flow_acc st) i j) in
            if exceeds_tenth (at2 flow_acc' ni nj - old_acc)
            then mk_acc_state flow_acc' (processed st) true
            else mk_acc_state flow_acc' (processed st) (changed st)
        else st
    end.

Definition acc_row (flow_dir : ndarray Z) (st : acc_state) (i : nat) : acc_state :=
  fold_left (λ st j, acc_cell flow_dir st i j) (seq 0 (ncols flow_dir)) st.

(** One iteration of the outer loop up to its convergence test:
    [changed = False], then the sweep over all cells. *)
Definition one_pass (flow_dir : ndarray Z) (st : acc_state) : acc_state :=
  fold_left (acc_row flow_dir) (seq 0 (nrows flow_dir))
    (mk_acc_state (flow_acc st) (processed st) false).

Definition max_iterations : nat := 50.

(** What the function prints. *)
Inductive message : Type :=
  | Converged (iterations : nat)
      (* "Flow accumulation converged after {iteration + 1} iterations" *)
  | Warning_not_converged (iterations : nat).
      (* "Warning: Flow accumulation did not fully converge after ..." *)

Record acc_run : Type := mk_acc_run
  { final : acc_state
  ; passes : nat
  ; printed : list message }.

(** [for iteration in range(max_iterations)], over the iteration numbers
    still to come. *)
Fixpoint accumulate_loop (flow_dir : ndarray Z) (iterations : list nat) (r : acc_run) : acc_run :=
  match iterations with
  | [] => r
  | iteration :: rest =>
      let st := one_pass flow_dir (final r) in
      if negb (changed st) then
        mk_acc_run st (S (passes r)) (printed r ++ [Converged (iteration + 1)])
      else if (iteration =? max_iterations - 1)%nat then
        accumulate_loop flow_dir rest
          (mk_acc_run st (S (passes r)) (printed r ++ [Warning_not_converged max_iterations]))
      else
        accumulate_loop flow_dir rest (mk_acc_run st (S (passes r)) (printed r))
  end.

(** The state before the first pass: [np.ones], [np.zeros(dtype=bool)]. *)
Definition acc_init (flow_dir : ndarray Z) : acc_state :=
  let rows := nrows flow_dir in
  let cols := ncols flow_dir in
  mk_acc_state (np_full rows cols 1) (np_full rows cols false) false.

Definition accumulate (flow_dir : ndarray Z) : acc_run :=
  accumulate_loop flow_dir (seq 0 max_iterations) (mk_acc_run (acc_init flow_dir) 0 []).

(** [np.clip(a, lo, hi)] *)
Definition np_clip (a : ndarray Z) (lo hi : Z) : ndarray Z :=
  (λ r : list Z, (λ v, Z.min (Z.max v lo) hi) <$> r) <$> a.

(** The value returned.  The final [astype(np.float32)] is the identity on
    the whole numbers of [0, 1e6], all below 2^24. *)
Definition calculate_flow_accumulation (flow_dir : ndarray Z) : ndarray Z :=
  np_clip (flow_acc (final (accumulate flow_dir))) 0 ceiling.

(** The state after [k] passes, whatever the convergence test says. *)
Definition after_passes (flow_dir : ndarray Z) (k : nat) : acc_state :=
  Nat.iter k (one_pass flow_dir) (acc_init flow_dir).

(** Cell [a] routes into cell [b]: the code of [a] is in the offset table
    and leads to [b]. *)
Definition routes_into (flow_dir : ndarray Z) (a b : nat * nat) : Prop :=
  ∃ dr dc,
    at2 flow_dir a.1 a.2 ≠ 0 ∧
    dict_get dir_to_offset (at2 flow_dir a.1 a.2) = Some (dr, dc) ∧
    Z.of_nat b.1 = Z.of_nat a.1 + dr ∧ Z.of_nat b.2 = Z.of_nat a.2 + dc.

(** Cell (i, j) is inside the array. *)
Definition in_array {V} (a : ndarray V) (c : nat * nat) : Prop :=
  (c.1 < nrows a)%nat ∧ (c.2 < ncols a)%nat.

(** ** Flow vectors: extract_flow_vectors *)

(** The dict appended to [flow_lines]; [T] is the type of coordinates. *)
Record flow_line (T : Type) : Type := mk_flow_line
  { fl_from : T * T
  ; fl_to : T * T
  ; fl_accumulation : Z
  ; fl_direction : Z }.
Arguments mk_flow_line {T}.
Arguments fl_from {T}.
Arguments fl_to {T}.
Arguments fl_accumulation {T}.
Arguments fl_direction {T}.

(** What the function can reach: its two array arguments, which Python
    passes by reference, and the list it builds. *)
Record extract_store (T : Type) : Type := mk_extract_store
  { es_flow_dir : ndarray Z
  ; es_flow_acc : ndarray Z
  ; es_flow_lines : list (flow_line T) }.
Arguments mk_extract_store {T}.
Arguments es_flow_dir {T}.
Arguments es_flow_acc {T}.
Arguments es_flow_lines {T}.

Section Extractor.
(** rasterio's [xy(transform, row, col)] is a library call; it is a
    parameter here, as is the type of the affine transform. *)
Context {T transform : Type}.
Variable rio_xy : transform → Z → Z → T * T.

(** The body of [for i in range(rows): for j in range(cols)]. *)
Definition extract_cell (tr : transform) (threshold : Z)
    (st : extract_store T) (i j : nat) : extract_store T :=
  let flow_dir := es_flow_dir st in
  let flow_acc := es_flow_acc st in
  let rows := nrows flow_dir in
  let cols := ncols flow_dir in
  if (at2 flow_dir i j =? 0) || (at2 flow_acc i j <? threshold) then st
  else
    let xy := rio_xy tr (Z.of_nat i) (Z.of_nat j) in
    match dict_get dir_to_offset (at2 flow_dir i j) with
    | None => st
    | Some (dr, dc) =>
        let ni := Z.of_nat i + dr in
        let nj := Z.of_nat j + dc in
        if in_range ni rows && in_range nj cols then
          let nxy := rio_xy tr ni nj in
          mk_extract_store flow_dir flow_acc
            (es_flow_lines st ++
               [mk_flow_line xy nxy (at2 flow_acc i j) (at2 flow_dir i j)])
        else st
    end.

Definition extract_row (tr : transform) (threshold : Z)
    (st : extract_store T) (i : nat) : extract_store T :=
  fold_left (λ st j, extract_cell tr threshold st i j)
    (seq 0 (ncols (es_flow_dir st))) st.

(** The store when the function returns; [es_flow_lines] is the value
    returned.  [dem_shape] is not used by the function. *)
Definition extract_flow_vectors_run (flow_dir flow_acc : ndarray Z)
    (tr : transform) (dem_shape : nat * nat) (threshold : Z) : extract_store T :=
  fold_left (extract_row tr threshold) (seq 0 (nrows flow_dir))
    (mk_extract_store flow_dir flow_acc []).

Definition extract_flow_vectors (flow_dir flow_acc : ndarray Z)
    (tr : transform) (dem_shape : nat * nat) (threshold : Z) : list (flow_line T) :=
  es_flow_lines (extract_flow_vectors_run flow_dir flow_acc tr dem_shape threshold).

(** The extractor as the specification words it: one vector per cell
    whose code is non-zero and whose accumulation reaches the threshold,
    from the cell to its downstream neighbor. *)
Definition emits (flow_dir flow_acc : ndarray Z) (threshold : Z) (c : nat * nat) : bool :=
  negb (at2 flow_dir c.1 c.2 =? 0) && (threshold <=? at2 flow_acc c.1 c.2).

Definition downstream (flow_dir : ndarray Z) (c : nat * nat) : Z * Z :=
  match dict_get dir_to_offset (at2 flow_dir c.1 c.2) with
  | Some (dr, dc) => (Z.of_nat c.1 + dr, Z.of_nat c.2 + dc)
  | None => (Z.of_nat c.1, Z.of_nat c.2)
  end.

Definition vector_of (flow_dir flow_acc : ndarray Z) (tr : transform)
    (c : nat * nat) : flow_line T :=
  mk_flow_line (rio_xy tr (Z.of_nat c.1) (Z.of_nat c.2))
    (rio_xy tr (downstream flow_dir c).1 (downstream flow_dir c).2)
    (at2 flow_acc c.1 c.2) (at2 flow_dir c.1 c.2).

Definition extract_spec (flow_dir flow_acc : ndarray Z) (tr : transform)
    (threshold : Z) : list (flow_line T) :=
  vector_of flow_dir flow_acc tr
    <$> filter (λ c, emits flow_dir flow_acc threshold c = true)
          (cells (nrows flow_dir) (ncols flow_dir)).
End Extractor.

(** Every non-zero cell has an in-bounds downstream neighbor. *)
Definition all_routed (flow_dir : ndarray Z) : Prop :=
  ∀ i j, (i < nrows flow_dir)%nat → (j < ncols flow_dir)%nat →
    at2 flow_dir i j ≠ 0 →
    ∃ dr dc, dict_get dir_to_offset (at2 flow_dir i j) = Some (dr, dc) ∧
      in_range (Z.of_nat i + dr) (nrows flow_dir) = true ∧
      in_range (Z.of_nat j + dc) (ncols flow_dir) = true.

(** ** Even sampling: sample_evenly *)

(** [floor] of a finite float, as numpy's conversion to an integer type
    takes it; zero for the values that have no floor. *)
Definition floor_to_Z (f : float) : Z :=
  match Prim2SF f with
  | S754_finite s m e =>
      let v := if s then Zneg m else Zpos m in
      if 0 <=? e then v * 2 ^ e else v / 2 ^ (- e)
  | _ => 0
  end.

(** [np.linspace(start, stop, num, dtype=int)] for Python ints
    [0 <= start <= stop], following numpy's function: the samples
    [arange(0, num) * step + start] with [step = (stop - start) / (num - 1)]
    in binary64, the last one replaced by [stop], then floor and the
    conversion to integers.  A negative [num] raises ValueError ([None]). *)
Definition np_linspace_int (start stop num : Z) : option (list Z) :=
  if num <? 0 then None
  else
    let div := num - 1 in
    let start_f := float_of_Z start in
    let stop_f := float_of_Z stop in
    let delta := (stop_f - start_f)%float in
    let y := (λ i, float_of_Z (Z.of_nat i)) <$> seq 0 (Z.to_nat num) in
    let y :=
      if 0 <? div then
        let step := (delta / float_of_Z div)%float in
        if (step =? 0)%float
        then (λ v, (v / float_of_Z div * delta)%float) <$> y
        else (λ v, (v * step)%float) <$> y
      else (λ v, (v * delta)%float) <$> y in
    let y := (λ v, (v + start_f)%float) <$> y in
    let y := if 1 <? num then <[Z.to_nat (num - 1) := stop_f]> y else y in
    Some (floor_to_Z <$> y).

(** [items[i]] for a Python int: negative indices count from the end, and
    an index outside the list raises IndexError ([None]). *)
Definition py_index {A} (items : list A) (i : Z) : option A :=
  let n := Z.of_nat (length items) in
  if (0 <=? i) && (i <? n) then items !! Z.to_nat i
  else if (- n <=? i) && (i <? 0) then items !! Z.to_nat (n + i)
  else None.

Definition sample_evenly {A} (items : list A) (max_count : Z) : option (list A) :=
  if Z.of_nat (length items) <=? max_count then Some items
  else
    indices ← np_linspace_int 0 (Z.of_nat (length items) - 1) max_count;
    mapM (py_index items) indices.




(** ** Normalization to screen space (main) *)

(** The arithmetic the normalization uses, for the number type of the
    coordinates: binary64 as the script runs it, and the rationals for its
    algebra without rounding. *)
Class Number (T : Type) : Type :=
  { n_sub : T → T → T
  ; n_div : T → T → T
  ; n_one : T }.

#[global] Instance float_number : Number float :=
  {| n_sub := PrimFloat.sub; n_div := PrimFloat.div; n_one := 1%float |}.

#[global] Instance Q_number : Number Q :=
  {| n_sub := Qminus; n_div := Qdiv; n_one := 1%Q |}.

(** [src.bounds] *)
Record bounding_box (T : Type) : Type := mk_bounds
  { b_left : T
  ; b_bottom : T
  ; b_right : T
  ; b_top : T }.
Arguments mk_bounds {T}.
Arguments b_left {T}.
Arguments b_bottom {T}.
Arguments b_right {T}.
Arguments b_top {T}.

(** A flow line after the rewrite of its keys. *)
Record norm_flow_line (T : Type) : Type := mk_norm_flow_line
  { from_x_norm : T
  ; to_x_norm : T
  ; from_y_norm : T
  ; to_y_norm : T
  ; from_orig : T * T
  ; to_orig : T * T
  ; nfl_accumulation : Z
  ; nfl_direction : Z }.
Arguments mk_norm_flow_line {T}.
Arguments from_x_norm {T}.
Arguments to_x_norm {T}.
Arguments from_y_norm {T}.
Arguments to_y_norm {T}.
Arguments from_orig {T}.
Arguments to_orig {T}.

(** A start point before and after the rewrite of its keys. *)
Record start_point (T : Type) : Type := mk_start_point
  { sp_position : T * T
  ; sp_weight : Z }.
Arguments mk_start_point {T}.
Arguments sp_position {T}.
Arguments sp_weight {T}.

Record norm_start_point (T : Type) : Type := mk_norm_start_point
  { position_orig : T * T
  ; position_norm : T * T
  ; nsp_weight : Z }.
Arguments mk_norm_start_point {T}.
Arguments position_orig {T}.
Arguments position_norm {T}.

Section Normalizer.
Context {T : Type} `{!Number T}.

(** [(x - minx) / width] *)
Definition x_norm (minx width x : T) : T := n_div (n_sub x minx) width.

(** [1.0 - (y - miny) / height] *)
Definition y_norm (miny height y : T) : T := n_sub n_one (n_div (n_sub y miny) height).

Definition box_width (b : bounding_box T) : T := n_sub (b_right b) (b_left b).
Definition box_height (b : bounding_box T) : T := n_sub (b_top b) (b_bottom b).

(** [for fl in flow_lines: ...] *)
Definition normalize_flow_lines (bounds : bounding_box T)
    (flow_lines : list (flow_line T)) : list (norm_flow_line T) :=
  let minx := b_left bounds in
  let miny := b_bottom bounds in
  let width := box_width bounds in
  let height := box_height bounds in
  (λ fl,
     mk_norm_flow_line
       (x_norm minx width (fl_from fl).1)
       (x_norm minx width (fl_to fl).1)
       (y_norm miny height (fl_from fl).2)
       (y_norm miny height (fl_to fl).2)
       (fl_from fl) (fl_to fl) (fl_accumulation fl) (fl_direction fl))
    <$> flow_lines.

(** [for p in start_points: ...] *)
Definition normalize_start_points (bounds : bounding_box T)
    (start_points : list (start_point T)) : list (norm_start_point T) :=
  let minx := b_left bounds in
  let miny := b_bottom bounds in
  let width := box_width bounds in
  let height := box_height bounds in
  (λ p,
     mk_norm_start_point (sp_position p)
       (x_norm minx width (sp_position p).1, y_norm miny height (sp_position p).2)
       (sp_weight p))
    <$> start_points.
End Normalizer.

(** ** Particle start points: create_flow_start_points *)

(** [range(0, stop, step)] for a Python int [step]: ValueError ([None])
    for a zero step, no value for a negative one, and the multiples of
    the step below [stop] otherwise. *)
Definition py_range0 (stop : nat) (step : Z) : option (list nat) :=
  if step =? 0 then None
  else if step <? 0 then Some []
  else
    let s := Z.to_nat step in
    Some ((λ k, k * s)%nat <$> seq 0 ((stop + s - 1) / s)).

Section StartPoints.
Context {T transform : Type}.
Variable rio_xy : transform → Z → Z → T * T.

(** The body of the two loops.  The accumulation values are whole
    numbers, so the test [not np.isnan(flow_acc[i, j])] always passes;
    [min_accumulation] is a number the accumulation array holds exactly
    (the scripts pass 0.5 and 1), so [>=] is the order of the
    rationals. *)
Definition start_cell (flow_acc : ndarray Z) (tr : transform) (min_accumulation : Q)
    (start_points : list (start_point T)) (i j : nat) : list (start_point T) :=
  if Qle_bool min_accumulation (inject_Z (at2 flow_acc i j)) then
    start_points ++
      [mk_start_point (rio_xy tr (Z.of_nat i) (Z.of_nat j)) (at2 flow_acc i j)]
  else start_points.

(** [for i in range(0, rows, spacing): for j in range(0, cols, spacing)] *)
Definition create_flow_start_points (flow_acc : ndarray Z) (tr : transform)
    (spacing : Z) (min_accumulation : Q) : option (list (start_point T)) :=
  let rows := nrows flow_acc in
  let cols := ncols flow_acc in
  row_range ← py_range0 rows spacing;
  col_range ← py_range0 cols spacing;
  Some (fold_left
          (λ pts i, fold_left (λ pts j, start_cell flow_acc tr min_accumulation pts i j)
                      col_range pts)
          row_range []).
End StartPoints.

(** ** Flow accumulation: calculate_flow_accumulation (scripts/process_dem_flow.py) *)

(** The script of the [scripts] directory accumulates in numpy's float32,
    for at most 100 passes, without the guard and without the clamp of
    the archive script; a pass counts as changed when a stored value
    compares unequal ([!=]) to the value it replaces.  float32 is
    IEEE-754 binary32: the operations of [SpecFloat] at precision 24 and
    maximal exponent 128. *)
Module Scripts.

Definition f32_add (x y : spec_float) : spec_float := SFadd 24 128 x y.

(** 1.0 in binary32: the mantissa 2^23 at the exponent -23. *)
Definition f32_one : spec_float := S754_finite false 8388608 (-23).

Record acc_state : Type := mk_acc_state
  { flow_acc : ndarray spec_float
  ; changed : bool }.

(** The body of [for i in range(rows): for j in range(cols)]. *)
Definition acc_cell (flow_dir : ndarray Z) (st : acc_state) (i j : nat) : acc_state :=
  let rows := nrows flow_dir in
  let cols := ncols flow_dir in
  if at2 flow_dir i j =? 0 then st
  else
    match dict_get dir_to_offset (at2 flow_dir i j) with
    | None => st
    | Some (dr, dc) =>
        let ni := Z.of_nat i + dr in
        let nj := Z.of_nat j + dc in
        if in_range ni rows && in_range nj cols then
          let ni := Z.to_nat ni in
          let nj := Z.to_nat nj in
          let old_acc := at2 (flow_acc st) ni nj in
          let flow_acc' :=
            set2 (flow_acc st) ni nj (f32_add old_acc (at2 (flow_acc st) i j)) in
          if negb (SFeqb (at2 flow_acc' ni nj) old_acc)
          then mk_acc_state flow_acc' true
          else mk_acc_state flow_acc' (changed st)
        else st
    end.

Definition acc_row (flow_dir : ndarray Z) (st : acc_state) (i : nat) : acc_state :=
  fold_left (λ st j, acc_cell flow_dir st i j) (seq 0 (ncols flow_dir)) st.

(** [changed = False], then the sweep over all cells. *)
Definition one_pass (flow_dir : ndarray Z) (acc : ndarray spec_float) : acc_state :=
  fold_left (acc_row flow_dir) (seq 0 (nrows flow_dir)) (mk_acc_state acc false).

(** [for iteration in range(100)], over the number of iterations still
    to come; [if not changed: break]. *)
Fixpoint accumulate_loop (flow_dir : ndarray Z) (iterations : nat)
    (acc : ndarray spec_float) : ndarray spec_float :=
  match iterations with
  | O => acc
  | S rest =>
      let st := one_pass flow_dir acc in
      if negb (changed st) then flow_acc st
      else accumulate_loop flow_dir rest (flow_acc st)
  end.

Definition calculate_flow_accumulation (flow_dir : ndarray Z) : ndarray spec_float :=
  accumulate_loop flow_dir 100 (np_full (nrows flow_dir) (ncols flow_dir) f32_one).

End Scripts.

(** ** Filling of the no-data cells (main) *)

(** [np.where(mask, x, y)] for three arrays of one shape. *)
Definition np_where {V} (mask : ndarray bool) (x y : ndarray V) : ndarray V :=
  zip_with
    (λ (m : list bool) (xy : list V * list V),
       zip_with (λ (c : bool) (v : V * V), if c then v.1 else v.2) m (zip xy.1 xy.2))
    mask (zip x y).

(** [mask = np.isnan(dem)]; [if mask.any(): dem = np.where(mask,
    dem_filled, dem)].  [dem_filled] is the result of scipy's
    [generic_filter], a library call: it is a parameter. *)
Definition fill_nodata {E} `{!Inhabited E, !Elevation E}
    (generic_filter_fill : ndarray E → ndarray E) (dem : ndarray E) : ndarray E :=
  let mask := (λ r : list E, e_isnan <$> r) <$> dem in
  if existsb (existsb id) mask
  then np_where mask (generic_filter_fill dem) dem
  else dem.

(** ** Predicates used by the properties *)

(** An array of [rows] rows, each of [cols] entries. *)
Definition has_shape {V} (a : ndarray V) (rows cols : nat) : Prop :=
  length a = rows ∧ Forall (λ r, length r = cols) a.

(** Cell (i, j) is visited by [for i in range(1, rows - 1)] and
    [for j in range(1, cols - 1)]. *)
Definition interior {V} (a : ndarray V) (i j : nat) : Prop :=
  (1 ≤ i)%nat ∧ (i + 1 < nrows a)%nat ∧ (1 ≤ j)%nat ∧ (j + 1 < ncols a)%nat.

#[global] Instance interior_dec {V} (a : ndarray V) i j : Decision (interior a i j).
Proof. unfold interior. apply _. Defined.

(** What the neighbor loop has established after the neighbors [l]. *)
Definition scan_inv {E} `{!Inhabited E, !Elevation E} (dem : ndarray E) i j
    (l : list (Z * Z * Z)) (best : float * Z) : Prop :=
  (best = (neg_infinity, 0) ∧
   ∀ m, m ∈ l → valid_neighbor dem i j m = true →
     float_gt (neighbor_slope dem i j m) neg_infinity = false)
  ∨
  (∃ l1 nb l2, l = l1 ++ nb :: l2 ∧ valid_neighbor dem i j nb = true ∧
     best = (neighbor_slope dem i j nb, nb.2) ∧
     float_gt (neighbor_slope dem i j nb) neg_infinity = true ∧
     (∀ m, m ∈ l → valid_neighbor dem i j m = true →
        float_gt (neighbor_slope dem i j m) (neighbor_slope dem i j nb) = false) ∧
     (∀ m, m ∈ l1 → valid_neighbor dem i j m = true →
        PrimFloat.eqb (neighbor_slope dem i j m) (neighbor_slope dem i j nb) = false)).

(** What every state of the propagator satisfies: both arrays keep the
    shape of the direction field and every accumulation value is at
    least 1. *)
Definition acc_wf (rows cols : nat) (st : acc_state) : Prop :=
  has_shape (flow_acc st) rows cols ∧
  has_shape (processed st) rows cols ∧
  ∀ i j, (i < rows)%nat → (j < cols)%nat → 1 ≤ at2 (flow_acc st) i j.

(** The cells marked so far have a downstream value above the threshold. *)
Definition guard_inv (fd : ndarray Z) (st : acc_state) : Prop :=
  ∀ i j dr dc, (i < nrows fd)%nat → (j < ncols fd)%nat →
    dict_get dir_to_offset (at2 fd i j) = Some (dr, dc) →
    at2 (processed st) i j = true →
    ceiling < at2 (flow_acc st) (Z.to_nat (Z.of_nat i + dr)) (Z.to_nat (Z.of_nat j + dc)).

(** Every accumulation value is at most [bound]. *)
Definition all_below (rows cols : nat) (bound : Z) (st : acc_state) : Prop :=
  ∀ i j, (i < rows)%nat → (j < cols)%nat → at2 (flow_acc st) i j ≤ bound.

(** What numpy's linspace returns for [num] integer samples of
    [0, len - 1] when [2 <= num < len]: [num] strictly increasing indices
    from 0 to [len - 1]. *)
Definition evenly_spread (len : nat) (num : Z) (idx : list Z) : Prop :=
  Z.of_nat (length idx) = num ∧ head idx = Some 0 ∧
  last idx = Some (Z.of_nat len - 1) ∧ StronglySorted Z.lt idx.

#[global] Instance evenly_spread_dec len num idx : Decision (evenly_spread len num idx).
Proof. unfold evenly_spread. apply _. Defined.

(** The indices linspace computes for a list of [len] items and a count
    [num] are as [evenly_spread] says. *)
Definition spread_holds (len : nat) (num : Z) : Prop :=
  match np_linspace_int 0 (Z.of_nat len - 1) num with
  | Some idx => evenly_spread len num idx
  | None => False
  end.

#[global] Instance spread_holds_dec len num : Decision (spread_holds len num).
Proof. unfold spread_holds. destruct (np_linspace_int _ _ _); apply _. Defined.

(** A float that is no number of [0, 1]: NaN or an infinity. *)
Definition nan_or_inf (r : float) : bool :=
  PrimFloat.is_nan r || PrimFloat.is_infinity r.

(** The cell that the propagator and the extractor take as the
    downstream cell of [c]: none for the code 0, for a code outside the
    offset table and for a neighbor outside the array. *)
Definition target (flow_dir : ndarray Z) (c : nat * nat) : option (nat * nat) :=
  if at2 flow_dir c.1 c.2 =? 0 then None
  else
    match dict_get dir_to_offset (at2 flow_dir c.1 c.2) with
    | None => None
    | Some (dr, dc) =>
        let ni := Z.of_nat c.1 + dr in
        let nj := Z.of_nat c.2 + dc in
        if in_range ni (nrows flow_dir) && in_range nj (ncols flow_dir)
        then Some (Z.to_nat ni, Z.to_nat nj) else None
    end.

(** The cells of the sampling grid of create_flow_start_points, in the
    order of its loops. *)
Definition grid_line (n : nat) (spacing : Z) : list nat :=
  (λ k, k * Z.to_nat spacing)%nat
    <$> seq 0 ((n + Z.to_nat spacing - 1) / Z.to_nat spacing).

Definition grid_cells (rows cols : nat) (spacing : Z) : list (nat * nat) :=
  i ← grid_line rows spacing; (λ j, (i, j)) <$> grid_line cols spacing.

(** The 3 x 3 window of cell (i, j) holds no NaN and lies inside the
    array. *)
Definition window_valid {E} `{!Inhabited E, !Elevation E} (dem : ndarray E)
    (i j : nat) : Prop :=
  interior dem i j ∧
  ∀ i' j', (i - 1 ≤ i' ≤ i + 1)%nat → (j - 1 ≤ j' ≤ j + 1)%nat →
    e_isnan (at2 dem i' j') = false.

(** A whole number that float32, and so float64, holds exactly whatever
    its value: its magnitude is at most 2^24. *)
Definition float32_whole (z : Z) : Prop := Z.abs z ≤ 2 ^ 24.

(** A rational that float32, and so float64, holds exactly: n * 2^e with
    a mantissa n of 24 bits and an exponent e of binary32. *)
Definition float32_holds (q : Q) : Prop :=
  ∃ n e : Z, Z.abs n < 2 ^ 24 ∧ -149 ≤ e ≤ 104 ∧ (q == inject_Z n * Qpower 2 e)%Q.

(** A float32 value that is a number and carries no minus sign. *)
Definition f32_nonneg (v : spec_float) : bool :=
  match v with
  | S754_zero false | S754_infinity false | S754_finite false _ _ => true
  | _ => false
  end.

(** ** Sample inputs *)

(** A flat grid, and a grid sloping from the NW corner to the SE corner. *)
Definition flat_3x3 : ndarray float := [[5; 5; 5]; [5; 5; 5]; [5; 5; 5]]%float.

Definition slope_5x5 : ndarray float :=
  [ [100; 90; 80; 70; 60]
  ; [90; 80; 70; 60; 50]
  ; [80; 70; 60; 50; 40]
  ; [70; 60; 50; 40; 30]
  ; [60; 50; 40; 30; 20] ]%float.

(** Two cells draining into each other: the left one to the east, the
    right one to the west. *)
Definition mutual_pair : ndarray Z := [[1; 16]].

(** A direction field and an accumulation field of 2 x 3 cells. *)
Definition sample_dir : ndarray Z := [[1; 16; 0]; [0; 0; 64]].

Definition sample_acc : ndarray Z := [[3; 5; 1]; [7; 1; 2]].

(** Pixel centres of a north-up raster with unit cells. *)
Definition unit_xy (tr : Z * Z) (row col : Z) : Z * Z :=
  (tr.1 + col, tr.2 - row).

Definition items_11 : list Z := [0; 1; 2; 3; 4; 5; 6; 7; 8; 9; 10].

(** A bounding box of zero width, in binary64, and one of 4 x 10 units. *)
Definition degenerate_box : bounding_box float := (mk_bounds 0 0 0 10)%float.


(** A bounding box of 4 x 4 units in binary64. *)
Definition square_box : bounding_box float := (mk_bounds 2 3 6 7)%float.

(** An elevation model with one no-data cell, and a stand-in for the
    filter that fills it. *)
Definition dem_with_hole : ndarray float :=
  [ [9; 9; 9; 9; 9]
  ; [9; nan; 8; 7; 9]
  ; [9; 8; 7; 6; 9]
  ; [9; 7; 6; 5; 9]
  ; [9; 9; 9; 9; 9] ]%float.

Definition fill_with_eight (dem : ndarray float) : ndarray float :=
  np_full (nrows dem) (ncols dem) 8%float.

(** A stand-in for the filter where no window holds an elevation: NaN
    in every cell. *)
Definition fill_with_nan (dem : ndarray float) : ndarray float :=
  np_full (nrows dem) (ncols dem) nan.

(** Elevations for which the exact slope and the computed slope part:
    in float64 a drop of 1 towards E and of the float64 value of sqrt 2
    towards SE; in float32 the elevation 3000 with 2^-14 towards E and
    2^-15 towards S; in uint16 the elevation 5 with 6 towards E and 4
    towards S. *)
Definition dem_sqrt_tie : ndarray float :=
  [ [1; 1; 1]
  ; [1; 0; -1]
  ; [1; 1; -0x1.6a09e667f3bcdp+0] ]%float.

Definition dem_float32 : ndarray spec_float :=
  let c := S754_finite false 12288000 (-12) in
  [ [c; c; c]
  ; [c; c; S754_finite false 8388608 (-37)]
  ; [c; S754_finite false 8388608 (-38); c] ].

Definition dem_uint16 : ndarray uint16 :=
  (λ r : list Z, mk_uint16 <$> r) <$> [[5; 5; 5]; [5; 5; 6]; [5; 4; 5]].

(** * Properties *)

(** Membership of a list written out. *)
Ltac list_mem :=
  repeat first [apply list_elem_of_here | apply list_elem_of_further].

(** ** Arrays *)

Lemma has_shape_np_full {V} rows cols (v : V) : has_shape (np_full rows cols v) rows cols.
Proof.
  split; unfold np_full.
  - apply length_replicate.
  - apply Forall_replicate, length_replicate.
Qed.

Lemma has_shape_row {V} (a : ndarray V) rows cols i :
  has_shape a rows cols → (i < rows)%nat → length (a !!! i) = cols.
Proof.
  intros [Hlen Hall] Hi.
  apply (Forall_lookup_total_1 (λ r, length r = cols) a i); [done|lia].
Qed.

Lemma has_shape_set2 {V} (a : ndarray V) rows cols i j v :
  has_shape a rows cols → has_shape (set2 a i j v) rows cols.
Proof.
  intros [Hlen Hall]. split; unfold set2.
  - by rewrite length_alter.
  - apply Forall_lookup. intros k r Hk.
    rewrite list_lookup_alter in Hk. case_decide.
    + subst k. destruct (a !! i) as [r0|] eqn:E; simplify_eq/=.
      rewrite length_insert.
      exact (Forall_lookup_1 (λ r, length r = cols) a i r0 Hall E).
    + exact (Forall_lookup_1 (λ r, length r = cols) a k r Hall Hk).
Qed.

Lemma has_shape_fmap {V W} (f : V → W) (a : ndarray V) rows cols :
  has_shape a rows cols → has_shape (fmap (M:=list) (fmap f) a) rows cols.
Proof.
  intros [Hlen Hall]. split.
  - by rewrite length_fmap.
  - apply Forall_fmap. eapply Forall_impl; [done|].
    intros r Hr. simpl. by rewrite length_fmap.
Qed.

Lemma has_shape_nrows {V} (a : ndarray V) rows cols :
  has_shape a rows cols → nrows a = rows.
Proof. by intros [? ?]. Qed.

Lemma has_shape_ncols {V} (a : ndarray V) rows cols :
  has_shape a rows cols → (0 < rows)%nat → ncols a = cols.
Proof.
  intros [Hlen Hall] Hpos. destruct a as [|r a]; simpl in *; [lia|].
  by inversion Hall.
Qed.

Lemma rect_has_shape {V} (a : ndarray V) : rect a → has_shape a (nrows a) (ncols a).
Proof. by split. Qed.

Lemma at2_np_full {V} `{!Inhabited V} rows cols (v : V) i j :
  (i < rows)%nat → (j < cols)%nat → at2 (np_full rows cols v) i j = v.
Proof.
  intros Hi Hj. unfold at2, np_full.
  by rewrite !lookup_total_replicate_2.
Qed.

Lemma at2_set2 {V} `{!Inhabited V} (a : ndarray V) rows cols i j v i' j' :
  has_shape a rows cols → (i < rows)%nat → (j < cols)%nat →
  at2 (set2 a i j v) i' j' = if decide (i = i' ∧ j = j') then v else at2 a i' j'.
Proof.
  intros Hs Hi Hj. unfold at2, set2.
  assert (length (a !!! i) = cols) as Hrow by (by eapply has_shape_row).
  destruct Hs as [Hlen _].
  destruct (decide (i = i')) as [->|Hne].
  - rewrite list_lookup_total_alter_eq by lia.
    destruct (decide (j = j')) as [->|Hne'].
    + rewrite decide_True by done. rewrite list_lookup_total_insert_eq; [done|lia].
    + rewrite decide_False by (intros [? ?]; done). by rewrite list_lookup_total_insert_ne.
  - rewrite list_lookup_total_alter_ne by done.
    rewrite decide_False by (intros [? ?]; done). done.
Qed.

Lemma at2_set2_eq {V} `{!Inhabited V} (a : ndarray V) rows cols i j v :
  has_shape a rows cols → (i < rows)%nat → (j < cols)%nat →
  at2 (set2 a i j v) i j = v.
Proof. intros. erewrite at2_set2 by done. by rewrite decide_True. Qed.

Lemma at2_set2_ne {V} `{!Inhabited V} (a : ndarray V) i j v i' j' :
  (i, j) ≠ (i', j') → at2 (set2 a i j v) i' j' = at2 a i' j'.
Proof.
  intros Hne. unfold at2, set2. rewrite list_lookup_total_alter.
  case_decide as H; [|done]. destruct H as [-> _].
  rewrite list_lookup_total_insert_ne; [done|congruence].
Qed.

Lemma at2_fmap {V W} `{!Inhabited V, !Inhabited W} (f : V → W) (a : ndarray V) rows cols i j :
  has_shape a rows cols → (i < rows)%nat → (j < cols)%nat →
  at2 (fmap (M:=list) (fmap f) a) i j = f (at2 a i j).
Proof.
  intros Hs Hi Hj. unfold at2.
  assert (length (a !!! i) = cols) as Hrow by by eapply has_shape_row.
  destruct Hs as [Hlen _].
  rewrite (list_lookup_total_fmap (fmap (M:=list) f) a i) by lia.
  rewrite (list_lookup_total_fmap f (a !!! i) j) by lia. done.
Qed.

Lemma in_range_true n len :
  in_range n len = true ↔ 0 ≤ n < Z.of_nat len.
Proof. unfold in_range. rewrite andb_true_iff, Z.leb_le, Z.ltb_lt. done. Qed.

(** The nested loops visit the cells of [cells]. *)
Lemma fold_cells {S} (f : S → nat → nat → S) rows cols (s : S) :
  fold_left (λ s i, fold_left (λ s j, f s i j) (seq 0 cols) s) (seq 0 rows) s
  = fold_left (λ s c, f s c.1 c.2) (cells rows cols) s.
Proof.
  unfold cells. generalize (seq 0 rows) as l. intros l. revert s.
  induction l as [|i l IH]; intros s; [done|].
  simpl. rewrite fold_left_app, <- IH. f_equal.
  generalize (seq 0 cols) as l2. intros l2. revert s.
  induction l2 as [|j l2 IH2]; intros s; [done|]. simpl. apply IH2.
Qed.

Lemma elem_of_cells rows cols c :
  c ∈ cells rows cols ↔ (c.1 < rows)%nat ∧ (c.2 < cols)%nat.
Proof.
  unfold cells. rewrite list_elem_of_bind. split.
  - intros (i & Hc & Hi). apply list_elem_of_fmap in Hc as (j & -> & Hj).
    apply elem_of_seq in Hi, Hj. simpl. lia.
  - intros [H1 H2]. exists c.1. split.
    + apply list_elem_of_fmap. exists c.2. split; [by destruct c|].
      apply elem_of_seq. lia.
    + apply elem_of_seq. lia.
Qed.

Lemma NoDup_cells rows cols : NoDup (cells rows cols).
Proof.
  unfold cells. apply NoDup_bind.
  - intros i1 i2 c _ _ H1 H2.
    apply list_elem_of_fmap in H1 as (? & -> & _).
    apply list_elem_of_fmap in H2 as (? & ? & _). congruence.
  - intros i _. apply NoDup_fmap; [|apply NoDup_seq]. intros ???. congruence.
  - apply NoDup_seq.
Qed.

(** ** The order of binary64 *)

Ltac sf_compare :=
  repeat match goal with
  | H : context [Pos.compare_cont Eq ?x ?y] |- _ =>
      change (Pos.compare_cont Eq x y) with (Pos.compare x y) in H
  | |- context [Pos.compare_cont Eq ?x ?y] =>
      change (Pos.compare_cont Eq x y) with (Pos.compare x y)
  end;
  repeat match goal with
  | H : context [Z.compare ?x ?y] |- _ =>
      destruct (Z.compare_spec x y); simpl in H; try discriminate H
  | H : context [Pos.compare ?x ?y] |- _ =>
      destruct (Pos.compare_spec x y); simpl in H; try discriminate H
  | |- context [Z.compare ?x ?y] =>
      destruct (Z.compare_spec x y); simpl
  | |- context [Pos.compare ?x ?y] =>
      destruct (Pos.compare_spec x y); simpl
  end;
  try reflexivity; try discriminate; try lia.

Lemma SFltb_trans a b c :
  SFltb a b = true → SFltb b c = true → SFltb a c = true.
Proof.
  unfold SFltb.
  destruct a as [sa|sa| |sa ma ea], b as [sb|sb| |sb mb eb], c as [sc|sc| |sc mc ec];
    simpl; try discriminate; try reflexivity;
    repeat match goal with s : bool |- _ => destruct s end;
    simpl; try discriminate; try reflexivity;
    intros H1 H2; sf_compare.
Qed.

Lemma SFltb_eqb_r a b c :
  SFltb a b = true → SFeqb c b = true → SFltb a c = true.
Proof.
  unfold SFltb, SFeqb.
  destruct a as [sa|sa| |sa ma ea], b as [sb|sb| |sb mb eb], c as [sc|sc| |sc mc ec];
    simpl; try discriminate; try reflexivity;
    repeat match goal with s : bool |- _ => destruct s end;
    simpl; try discriminate; try reflexivity;
    intros H1 H2; sf_compare.
Qed.

(** If [b > a] and not [c > a], then neither [c > b] nor [c == b]. *)
Lemma float_gt_keeps_max (a b c : float) :
  float_gt b a = true → float_gt c a = false →
  float_gt c b = false ∧ PrimFloat.eqb c b = false.
Proof.
  unfold float_gt. rewrite !FloatAxioms.ltb_spec, FloatAxioms.eqb_spec. intros Hab Hac. split.
  - destruct (SFltb (Prim2SF b) (Prim2SF c)) eqn:E; [|done].
    rewrite (SFltb_trans _ _ _ Hab E) in Hac. done.
  - destruct (SFeqb (Prim2SF c) (Prim2SF b)) eqn:E; [|done].
    rewrite (SFltb_eqb_r _ _ _ Hab E) in Hac. done.
Qed.

Lemma float_gt_trans (a b c : float) :
  float_gt c b = true → float_gt b a = true → float_gt c a = true.
Proof.
  unfold float_gt. rewrite !FloatAxioms.ltb_spec. intros H1 H2.
  by apply (SFltb_trans _ (Prim2SF b)).
Qed.

Lemma float_gt_irrefl (a : float) : float_gt a a = false.
Proof.
  unfold float_gt. rewrite FloatAxioms.ltb_spec. unfold SFltb.
  destruct (Prim2SF a) as [s|s| |s m e]; simpl; try done;
    destruct s; simpl; try done;
    rewrite Z.compare_refl; change (Pos.compare_cont Eq m m) with (Pos.compare m m);
    by rewrite Pos.compare_refl.
Qed.

(** ** The direction field *)

Section DirectionField.
Context {E : Type} `{!Inhabited E, !Elevation E}.
Implicit Types dem : ndarray E.

Lemma scan_neighbor_alt dem i j mx c nb :
  scan_neighbor dem i j (mx, c) nb =
    if valid_neighbor dem i j nb && float_gt (neighbor_slope dem i j nb) mx
    then (neighbor_slope dem i j nb, nb.2) else (mx, c).
Proof.
  destruct nb as [[dr dc] code]. unfold scan_neighbor, valid_neighbor, neighbor_slope.
  simpl. destruct (in_range _ _ && in_range _ _); simpl; [|done].
  destruct (e_isnan _); simpl; done.
Qed.

Lemma scan_neighbors_inv dem i j l : scan_inv dem i j l (scan_neighbors dem i j l).
Proof.
  unfold scan_neighbors. induction l as [|x l IH] using rev_ind.
  - left. split; [done|]. intros m Hm. by apply elem_of_nil in Hm.
  - rewrite fold_left_app. simpl.
    destruct (fold_left (scan_neighbor dem i j) l (neg_infinity, 0)) as [mx c].
    rewrite scan_neighbor_alt.
    destruct (valid_neighbor dem i j x && float_gt (neighbor_slope dem i j x) mx) eqn:Hup.
    + apply andb_true_iff in Hup as [Hv Hgt].
      assert (∀ m, m ∈ l → valid_neighbor dem i j m = true →
                float_gt (neighbor_slope dem i j m) mx = false) as Hle.
      { destruct IH as [[Heq Hall]|(l1 & nb & l2 & _ & _ & Heq & _ & Hall & _)];
          injection Heq as -> ->; done. }
      assert (float_gt (neighbor_slope dem i j x) neg_infinity = true) as Hinf.
      { destruct IH as [[Heq _]|(l1 & nb & l2 & _ & _ & Heq & Hnb & _)];
          injection Heq as -> ->; [done|].
        by apply (float_gt_trans _ (neighbor_slope dem i j nb)). }
      right. exists l, x, []. split_and!; [done|done|done|done| |].
      * intros m Hm Hvm. apply elem_of_app in Hm as [Hm|Hm].
        -- apply (float_gt_keeps_max mx); [done|by apply Hle].
        -- apply list_elem_of_singleton in Hm as ->. apply float_gt_irrefl.
      * intros m Hm Hvm. apply (float_gt_keeps_max mx); [done|by apply Hle].
    + assert (valid_neighbor dem i j x = true →
              float_gt (neighbor_slope dem i j x) mx = false) as Hx.
      { intros Hv. rewrite Hv in Hup. done. }
      destruct IH as [[Heq Hall]|(l1 & nb & l2 & -> & Hv & Heq & Hnb & Hall & Hfirst)].
      * left. split; [done|]. injection Heq as -> ->.
        intros m Hm Hvm. apply elem_of_app in Hm as [Hm|Hm]; [by apply Hall|].
        apply list_elem_of_singleton in Hm as ->. by apply Hx.
      * right. exists l1, nb, (l2 ++ [x]). injection Heq as -> ->.
        split_and!; [by rewrite <- app_assoc|done|done|done| |done].
        intros m Hm Hvm. apply elem_of_app in Hm as [Hm|Hm]; [by apply Hall|].
        apply list_elem_of_singleton in Hm as ->. by apply Hx.
Qed.

(** Settles each [decide] of the goal once the context determines it. *)
Ltac resolve_decide :=
  repeat match goal with
  | |- context [decide ?P] =>
      first
        [ rewrite (decide_True (P:=P)) by (split_and?; (lia || congruence || done))
        | rewrite (decide_False (P:=P))
            by (intros ?; destruct_and?; (lia || congruence || done)) ]
  end.

(** The row loop writes the cells 1 .. n of row [i] and nothing else. *)
Lemma d8_cells_at dem fd rows cols i n i' j' :
  has_shape fd rows cols → (i < rows)%nat → (n < cols)%nat →
  let fd' := fold_left (λ fd j, d8_cell dem fd i j) (seq 1 n) fd in
  has_shape fd' rows cols ∧
  at2 fd' i' j' =
    if decide (i' = i ∧ (1 ≤ j' ≤ n)%nat ∧ e_isnan (at2 dem i j') = false)
    then snd (scan_neighbors dem i j' neighbors) else at2 fd i' j'.
Proof.
  intros Hs Hi. cbv zeta. induction n as [|n IH]; intros Hn.
  - simpl. split; [done|]. rewrite decide_False; [done|]. lia.
  - rewrite seq_S, fold_left_app. cbn [fold_left].
    destruct IH as [Hs' Hat]; [lia|].
    set (fd0 := fold_left _ (seq 1 n) fd) in *. unfold d8_cell.
    destruct (e_isnan (at2 dem i j')) eqn:Hnan';
      destruct (e_isnan (at2 dem i (1 + n))) eqn:Hnan;
      (split; [done || by apply has_shape_set2|]);
      rewrite ?(at2_set2 _ rows cols) by (done || lia); rewrite ?Hat;
      destruct (decide (i' = i)) as [->|Hi'];
      (destruct (decide (j' = (1 + n)%nat)) as [Ej|Hj'];
         [rewrite Ej in *; try congruence|]);
      destruct (decide (1 ≤ j' ≤ n)%nat);
      resolve_decide; done.
Qed.

Lemma d8_rows_at dem fd n i' j' :
  has_shape fd (nrows dem) (ncols dem) → (n < nrows dem)%nat →
  let fd' := fold_left (d8_row dem) (seq 1 n) fd in
  has_shape fd' (nrows dem) (ncols dem) ∧
  at2 fd' i' j' =
    if decide ((1 ≤ i' ≤ n)%nat ∧ (1 ≤ j')%nat ∧ (j' + 1 < ncols dem)%nat ∧
               e_isnan (at2 dem i' j') = false)
    then snd (scan_neighbors dem i' j' neighbors) else at2 fd i' j'.
Proof.
  intros Hs. cbv zeta. induction n as [|n IH]; intros Hn.
  - simpl. split; [done|]. rewrite decide_False; [done|]. lia.
  - rewrite seq_S, fold_left_app. cbn [fold_left].
    destruct IH as [Hs' Hat]; [lia|].
    set (fd0 := fold_left _ (seq 1 n) fd) in *. unfold d8_row.
    destruct (decide (ncols dem - 2 < ncols dem)%nat) as [Hc|Hc].
    + destruct (d8_cells_at dem fd0
                  (nrows dem) (ncols dem) (1 + n) (ncols dem - 2) i' j' Hs')
        as [Hs'' Hat']; [lia|done|].
      split; [done|]. rewrite Hat', Hat.
      destruct (e_isnan (at2 dem i' j')) eqn:Hnan';
        (destruct (decide (i' = (1 + n)%nat)) as [Ei|Hi'];
           [rewrite Ei in *|]);
        destruct (decide (1 ≤ i' ≤ n)%nat);
        destruct (decide (1 ≤ j')%nat);
        destruct (decide (j' + 1 < ncols dem)%nat);
        resolve_decide; done.
    + assert (ncols dem = 0)%nat as Hz by lia. rewrite Hz. simpl.
      split; [by rewrite Hz in Hs'|]. rewrite Hat.
      resolve_decide. done.
Qed.

(** The value of every cell of the direction field. *)
Lemma d8_at dem i j :
  (i < nrows dem)%nat → (j < ncols dem)%nat →
  at2 (calculate_flow_direction_d8 dem) i j =
    if decide (interior dem i j ∧ e_isnan (at2 dem i j) = false)
    then snd (scan_neighbors dem i j neighbors) else 0.
Proof.
  intros Hi Hj. unfold calculate_flow_direction_d8.
  destruct (d8_rows_at dem (np_full (nrows dem) (ncols dem) 0) (nrows dem - 2) i j)
    as [_ Hat]; [apply has_shape_np_full|lia|].
  rewrite Hat, at2_np_full by done. unfold interior.
  destruct (e_isnan (at2 dem i j)) eqn:Hnan;
    destruct (decide (1 ≤ i)%nat); destruct (decide (i + 1 < nrows dem)%nat);
    destruct (decide (1 ≤ j)%nat); destruct (decide (j + 1 < ncols dem)%nat);
    resolve_decide; done.
Qed.

Lemma d8_has_shape dem :
  has_shape (calculate_flow_direction_d8 dem) (nrows dem) (ncols dem).
Proof.
  unfold calculate_flow_direction_d8.
  destruct (decide (nrows dem - 2 < nrows dem)%nat) as [H|H].
  - by destruct (d8_rows_at dem (np_full (nrows dem) (ncols dem) 0) (nrows dem - 2) 0 0
                   (has_shape_np_full _ _ _) H).
  - assert (nrows dem = 0)%nat as -> by lia. simpl. apply has_shape_np_full.
Qed.

(** The two tables agree, and the codes are the eight bit values. *)
Lemma neighbors_table :
  Forall (λ nb : Z * Z * Z,
            dict_get dir_to_offset nb.2 = Some nb.1 ∧ nb.2 ≠ 0 ∧
            nb.2 ∈ [1; 2; 4; 8; 16; 32; 64; 128] ∧
            -1 ≤ nb.1.1 ≤ 1 ∧ -1 ≤ nb.1.2 ≤ 1)
         neighbors.
Proof.
  unfold neighbors.
  repeat (apply Forall_cons; split;
          [simpl; split_and!; try done; try lia; list_mem|]).
  apply Forall_nil. done.
Qed.

(** The distances to the eight neighbors: sqrt 2, rounded, on the
    diagonals and 1 on the axes. *)
Lemma neighbors_distances :
  (λ nb : Z * Z * Z, PrimFloat.sqrt (float_of_Z (nb.1.1 * nb.1.1 + nb.1.2 * nb.1.2)))
    <$> neighbors
  = [0x1.6a09e667f3bcdp+0; 1; 0x1.6a09e667f3bcdp+0; 1;
     0x1.6a09e667f3bcdp+0; 1; 0x1.6a09e667f3bcdp+0; 1]%float.
Proof. vm_compute. reflexivity. Qed.

(** The neighbor loop leaves code 0 exactly when no valid neighbor has a
    slope above the -inf sentinel. *)
Lemma scan_code_zero_iff dem i j :
  snd (scan_neighbors dem i j neighbors) = 0 ↔
  ∀ m, m ∈ neighbors → valid_neighbor dem i j m = true →
    float_gt (neighbor_slope dem i j m) neg_infinity = false.
Proof.
  destruct (scan_neighbors_inv dem i j neighbors)
    as [[-> Hall]|(l1 & nb & l2 & Hl & Hv & -> & Hnb & Hmax & _)].
  - done.
  - assert (nb ∈ neighbors) as Hin.
    { rewrite Hl. apply elem_of_app. right. apply elem_of_cons. by left. }
    pose proof (proj1 (Forall_forall _ _) neighbors_table nb Hin) as (_ & Hnz & _).
    simpl. split; [done|]. intros Hall. rewrite (Hall nb Hin Hv) in Hnb. done.
Qed.

(** A non-zero code is the code of a neighbor the loop took. *)
Lemma scan_code_nonzero dem i j :
  snd (scan_neighbors dem i j neighbors) ≠ 0 →
  ∃ l1 nb l2, neighbors = l1 ++ nb :: l2 ∧ valid_neighbor dem i j nb = true ∧
    snd (scan_neighbors dem i j neighbors) = nb.2 ∧
    (∀ m, m ∈ neighbors → valid_neighbor dem i j m = true →
       float_gt (neighbor_slope dem i j m) (neighbor_slope dem i j nb) = false) ∧
    (∀ m, m ∈ l1 → valid_neighbor dem i j m = true →
       PrimFloat.eqb (neighbor_slope dem i j m) (neighbor_slope dem i j nb) = false).
Proof.
  destruct (scan_neighbors_inv dem i j neighbors)
    as [[-> Hall]|(l1 & nb & l2 & Hl & Hv & -> & Hnb & Hmax & Hfirst)]; [done|].
  intros _. by exists l1, nb, l2.
Qed.

(** A cell with a non-zero code is an interior cell that is not no-data. *)
Lemma d8_nonzero_interior dem i j :
  (i < nrows dem)%nat → (j < ncols dem)%nat →
  at2 (calculate_flow_direction_d8 dem) i j ≠ 0 →
  interior dem i j ∧ e_isnan (at2 dem i j) = false ∧
  at2 (calculate_flow_direction_d8 dem) i j = snd (scan_neighbors dem i j neighbors).
Proof.
  intros Hi Hj. rewrite d8_at by done. case_decide as H; [|done].
  destruct H. done.
Qed.

Lemma d8_nrows dem : nrows (calculate_flow_direction_d8 dem) = nrows dem.
Proof. apply (has_shape_nrows _ _ _ (d8_has_shape dem)). Qed.

Lemma d8_ncols dem :
  (0 < nrows dem)%nat → ncols (calculate_flow_direction_d8 dem) = ncols dem.
Proof. apply (has_shape_ncols _ _ _ (d8_has_shape dem)). Qed.

(** The downstream neighbor of a cell with a non-zero code is in the
    array, and the offset table knows the code. *)
Lemma d8_cell_routed dem i j :
  (i < nrows dem)%nat → (j < ncols dem)%nat →
  at2 (calculate_flow_direction_d8 dem) i j ≠ 0 →
  ∃ dr dc,
    dict_get dir_to_offset (at2 (calculate_flow_direction_d8 dem) i j) = Some (dr, dc) ∧
    in_range (Z.of_nat i + dr) (nrows (calculate_flow_direction_d8 dem)) = true ∧
    in_range (Z.of_nat j + dc) (ncols (calculate_flow_direction_d8 dem)) = true.
Proof.
  intros Hi Hj Hnz.
  destruct (d8_nonzero_interior dem i j Hi Hj Hnz) as ((H1 & H2 & H3 & H4) & _ & Hcode).
  rewrite Hcode in Hnz.
  destruct (scan_code_nonzero dem i j Hnz) as (l1 & nb & l2 & Hl & _ & Hnb & _).
  assert (nb ∈ neighbors) as Hin.
  { rewrite Hl. apply elem_of_app. right. apply elem_of_cons. by left. }
  pose proof (proj1 (Forall_forall _ _) neighbors_table nb Hin) as (Hd & _ & _ & Hdr & Hdc).
  destruct nb as [[dr dc] code]. simpl in *.
  exists dr, dc. rewrite Hcode, Hnb, d8_nrows, d8_ncols by lia.
  split; [done|]. rewrite !in_range_true. lia.
Qed.

Lemma d8_all_routed dem : all_routed (calculate_flow_direction_d8 dem).
Proof.
  intros i j Hi Hj Hnz. rewrite d8_nrows in Hi.
  rewrite d8_ncols in Hj by lia. by apply d8_cell_routed.
Qed.

(** *** The claims on the direction field *)

(** On the eight neighbors the slope the code computes is the slope of
    the specification: [np.sqrt] gives 1 for the orthogonal offsets and
    the float64 value of sqrt 2 for the diagonal ones. *)
Lemma neighbor_slope_spec dem i j m :
  m ∈ neighbors → neighbor_slope dem i j m = spec_slope dem i j m.
Proof.
  intros Hm. unfold neighbors in Hm.
  repeat (apply elem_of_cons in Hm as [->|Hm]; [reflexivity|]).
  by apply elem_of_nil in Hm.
Qed.

(** C5 (amended): whatever the dtype of the elevation array, a cell with
    a non-zero code carries the code of a valid neighbor whose slope, as
    the code computes it (the difference in the dtype of the array,
    divided in float64 by 1 or by the float64 value of sqrt 2), no valid
    neighbor exceeds, and no valid neighbor before it in the order NE, E,
    SE, S, SW, W, NW, N has an equal computed slope. *)
Theorem d8_selects_steepest_first dem i j :
  (i < nrows dem)%nat → (j < ncols dem)%nat →
  at2 (calculate_flow_direction_d8 dem) i j ≠ 0 →
  ∃ k nb,
    neighbors !! k = Some nb ∧
    nb.2 = at2 (calculate_flow_direction_d8 dem) i j ∧
    valid_neighbor dem i j nb = true ∧
    (∀ m, m ∈ neighbors → valid_neighbor dem i j m = true →
       float_gt (spec_slope dem i j m) (spec_slope dem i j nb) = false) ∧
    (∀ k' m, (k' < k)%nat → neighbors !! k' = Some m →
       valid_neighbor dem i j m = true →
       PrimFloat.eqb (spec_slope dem i j m) (spec_slope dem i j nb) = false).
Proof.
  intros Hi Hj Hnz.
  destruct (d8_nonzero_interior dem i j Hi Hj Hnz) as (_ & _ & Hcode).
  rewrite Hcode in Hnz |- *.
  destruct (scan_code_nonzero dem i j Hnz) as (l1 & nb & l2 & Hl & Hv & Hnb & Hmax & Hfirst).
  assert (nb ∈ neighbors) as Hin.
  { rewrite Hl. apply elem_of_app. right. apply list_elem_of_here. }
  exists (length l1), nb. split_and!; try done.
  - rewrite Hl. by apply list_lookup_middle.
  - intros m Hm Hvm. rewrite <- !neighbor_slope_spec by done. by apply Hmax.
  - intros k' m Hk Hm Hvm.
    assert (m ∈ l1) as Hm1.
    { rewrite Hl, lookup_app_l in Hm by done. by eapply list_elem_of_lookup_2. }
    rewrite <- !neighbor_slope_spec; [by apply Hfirst|done|].
    rewrite Hl. apply elem_of_app. by left.
Qed.

(** C10: in every direction field of calculate_flow_direction_d8 a border
    cell has code 0, every code is 0 or one of the eight bit values, and a
    cell with a non-zero code is an interior cell whose code the offset
    table of the propagator and of the extractor knows and whose
    downstream neighbor passes their bounds check. *)
Theorem d8_border_codes_routed dem i j :
  (i < nrows dem)%nat → (j < ncols dem)%nat →
  ((i = 0 ∨ i + 1 = nrows dem ∨ j = 0 ∨ j + 1 = ncols dem)%nat →
     at2 (calculate_flow_direction_d8 dem) i j = 0) ∧
  at2 (calculate_flow_direction_d8 dem) i j ∈ [0; 1; 2; 4; 8; 16; 32; 64; 128] ∧
  (at2 (calculate_flow_direction_d8 dem) i j ≠ 0 →
     interior dem i j ∧
     ∃ dr dc,
       dict_get dir_to_offset (at2 (calculate_flow_direction_d8 dem) i j) = Some (dr, dc) ∧
       in_range (Z.of_nat i + dr) (nrows (calculate_flow_direction_d8 dem)) = true ∧
       in_range (Z.of_nat j + dc) (ncols (calculate_flow_direction_d8 dem)) = true).
Proof.
  intros Hi Hj. split_and!.
  - intros Hb. rewrite d8_at by done. rewrite decide_False; [done|].
    unfold interior. intros [? _]. lia.
  - destruct (decide (at2 (calculate_flow_direction_d8 dem) i j = 0)) as [->|Hnz].
    { list_mem. }
    destruct (d8_nonzero_interior dem i j Hi Hj Hnz) as (_ & _ & Hcode).
    rewrite Hcode in Hnz |- *.
    destruct (scan_code_nonzero dem i j Hnz) as (l1 & nb & l2 & Hl & _ & -> & _).
    assert (nb ∈ neighbors) as Hin.
    { rewrite Hl. apply elem_of_app. right. apply elem_of_cons. by left. }
    pose proof (proj1 (Forall_forall _ _) neighbors_table nb Hin) as (_ & _ & Hc & _).
    apply elem_of_cons. by right.
  - intros Hnz. split; [by apply d8_nonzero_interior|by apply d8_cell_routed].
Qed.

End DirectionField.

(** C1 (the code departs from the claim): on the flat 3x3 grid no neighbor
    of the interior cell is lower than it, yet calculate_flow_direction_d8
    gives that cell code 128 and not 0: the slope 0.0 towards the first
    neighbor, NE, is above the -inf sentinel. *)
Theorem d8_flat_grid_center_is_128 :
  calculate_flow_direction_d8 flat_3x3 = [[0; 0; 0]; [0; 128; 0]; [0; 0; 0]].
Proof. vm_compute. reflexivity. Qed.

Lemma d8_selects_steepest_first_witness :
  ∃ k nb,
    neighbors !! k = Some nb ∧
    nb.2 = at2 (calculate_flow_direction_d8 slope_5x5) 1 1 ∧
    valid_neighbor slope_5x5 1 1 nb = true ∧
    (∀ m, m ∈ neighbors → valid_neighbor slope_5x5 1 1 m = true →
       float_gt (spec_slope slope_5x5 1 1 m) (spec_slope slope_5x5 1 1 nb) = false) ∧
    (∀ k' m, (k' < k)%nat → neighbors !! k' = Some m →
       valid_neighbor slope_5x5 1 1 m = true →
       PrimFloat.eqb (spec_slope slope_5x5 1 1 m) (spec_slope slope_5x5 1 1 nb) = false).
Proof.
  apply (d8_selects_steepest_first slope_5x5 1 1).
  - simpl. lia.
  - simpl. lia.
  - vm_compute. discriminate.
Defined.

(** C5 as stated fails: the neighbor selected need not attain the maximum
    of the exact slope.  In float64 the rounded sqrt 2 makes the computed
    slopes towards E and SE equal, and E, the earlier one, is selected
    although SE is steeper; in float32 the two differences round to one
    value, E is selected although S is steeper, and the same elevations
    as float64 select S; in uint16 the difference towards the higher
    neighbor E wraps around to 65535 and E is selected although S is the
    only lower neighbor. *)
Lemma d8_exact_steepest_not_selected :
  (at2 (calculate_flow_direction_d8 dem_sqrt_tie) 1 1 = 1 ∧
   valid_neighbor dem_sqrt_tie 1 1 (1, 1, 2) = true ∧
   exactly_steeper (λ v, SF2Q (Prim2SF v)) dem_sqrt_tie 1 1 (1, 1, 2) (0, 1, 1)) ∧
  (at2 (calculate_flow_direction_d8 dem_float32) 1 1 = 1 ∧
   valid_neighbor dem_float32 1 1 (1, 0, 4) = true ∧
   exactly_steeper SF2Q dem_float32 1 1 (1, 0, 4) (0, 1, 1) ∧
   at2 (calculate_flow_direction_d8
          ((λ r : list spec_float, SF2Prim <$> r) <$> dem_float32)) 1 1 = 4) ∧
  (at2 (calculate_flow_direction_d8 dem_uint16) 1 1 = 1 ∧
   valid_neighbor dem_uint16 1 1 (1, 0, 4) = true ∧
   exactly_steeper (λ v, inject_Z (uint16_value v)) dem_uint16 1 1 (1, 0, 4) (0, 1, 1)).
Proof.
  split_and!; try (vm_compute; reflexivity).
  - right; left. vm_compute. split_and!; congruence.
  - right; left. vm_compute. split_and!; congruence.
  - left. vm_compute. split; congruence.
Qed.

Lemma d8_border_codes_routed_witness :
  ((1 = 0 ∨ 1 + 1 = nrows slope_5x5 ∨ 1 = 0 ∨ 1 + 1 = ncols slope_5x5)%nat →
     at2 (calculate_flow_direction_d8 slope_5x5) 1 1 = 0) ∧
  at2 (calculate_flow_direction_d8 slope_5x5) 1 1 ∈ [0; 1; 2; 4; 8; 16; 32; 64; 128] ∧
  (at2 (calculate_flow_direction_d8 slope_5x5) 1 1 ≠ 0 →
     interior slope_5x5 1 1 ∧
     ∃ dr dc,
       dict_get dir_to_offset (at2 (calculate_flow_direction_d8 slope_5x5) 1 1) = Some (dr, dc) ∧
       in_range (Z.of_nat 1 + dr) (nrows (calculate_flow_direction_d8 slope_5x5)) = true ∧
       in_range (Z.of_nat 1 + dc) (ncols (calculate_flow_direction_d8 slope_5x5)) = true).
Proof.
  apply (d8_border_codes_routed slope_5x5 1 1); simpl; lia.
Defined.

(** ** The accumulation field *)

Lemma acc_init_wf fd : acc_wf (nrows fd) (ncols fd) (acc_init fd).
Proof.
  unfold acc_init. split_and!; simpl; try apply has_shape_np_full.
  intros i j Hi Hj. by rewrite at2_np_full.
Qed.

Lemma exceeds_tenth_pos d : 1 ≤ d → exceeds_tenth d = true.
Proof. intros H. unfold exceeds_tenth. apply Z.ltb_lt. lia. Qed.

(** One cell: the invariant is kept, no value decreases, no flag is
    cleared. *)
Lemma acc_cell_props fd st i j :
  acc_wf (nrows fd) (ncols fd) st → (i < nrows fd)%nat → (j < ncols fd)%nat →
  acc_wf (nrows fd) (ncols fd) (acc_cell fd st i j) ∧
  (∀ i' j', at2 (flow_acc st) i' j' ≤ at2 (flow_acc (acc_cell fd st i j)) i' j') ∧
  (∀ i' j', at2 (processed st) i' j' = true →
            at2 (processed (acc_cell fd st i j)) i' j' = true) ∧
  (changed st = true → changed (acc_cell fd st i j) = true).
Proof.
  intros Hwf Hi Hj. pose proof Hwf as (Hsa & Hsp & Hge). unfold acc_cell.
  destruct ((at2 fd i j =? 0) || at2 (processed st) i j);
    [split_and!; [done|intros; reflexivity|done|done]|].
  destruct (dict_get dir_to_offset (at2 fd i j)) as [[dr dc]|];
    [|split_and!; [done|intros; reflexivity|done|done]].
  destruct (in_range (Z.of_nat i + dr) (nrows fd) && in_range (Z.of_nat j + dc) (ncols fd))
    eqn:Hin; [|split_and!; [done|intros; reflexivity|done|done]].
  apply andb_true_iff in Hin as [Hni Hnj]. apply in_range_true in Hni, Hnj.
  set (ni := Z.to_nat (Z.of_nat i + dr)). set (nj := Z.to_nat (Z.of_nat j + dc)).
  assert (ni < nrows fd)%nat as Hni' by lia. assert (nj < ncols fd)%nat as Hnj' by lia.
  destruct (ceiling <? at2 (flow_acc st) ni nj).
  - simpl. split_and!; try done.
    + split_and!; [done|by apply has_shape_set2|done].
    + intros i' j' Hp. rewrite (at2_set2 _ (nrows fd) (ncols fd)) by done.
      by case_decide.
  - pose proof (Hge i j Hi Hj) as Hsrc.
    assert (acc_wf (nrows fd) (ncols fd)
              (mk_acc_state
                 (set2 (flow_acc st) ni nj (at2 (flow_acc st) ni nj + at2 (flow_acc st) i j))
                 (processed st) true)) as Hwf'.
    { split_and!; simpl; [by apply has_shape_set2|done|].
      intros i' j' Hi' Hj'. rewrite (at2_set2 _ (nrows fd) (ncols fd)) by done.
      case_decide; [|by apply Hge]. pose proof (Hge ni nj Hni' Hnj'). lia. }
    assert (∀ i' j', at2 (flow_acc st) i' j' ≤
              at2 (set2 (flow_acc st) ni nj (at2 (flow_acc st) ni nj + at2 (flow_acc st) i j)) i' j')
      as Hmono.
    { intros i' j'. rewrite (at2_set2 _ (nrows fd) (ncols fd)) by done.
      case_decide as E; [|lia]. destruct E as [<- <-]. lia. }
    destruct (exceeds_tenth _); simpl; split_and!; done.
Qed.

(** One cell that routes into another: unless the guard marks it, its
    value is added to the downstream cell, which was not above the
    threshold, and the pass is flagged as changed. *)
Lemma acc_cell_push fd st a b :
  acc_wf (nrows fd) (ncols fd) st → in_array fd a → in_array fd b →
  routes_into fd a b →
  at2 (processed (acc_cell fd st a.1 a.2)) a.1 a.2 = false →
  at2 (flow_acc (acc_cell fd st a.1 a.2)) b.1 b.2
    = at2 (flow_acc st) b.1 b.2 + at2 (flow_acc st) a.1 a.2 ∧
  at2 (flow_acc st) b.1 b.2 ≤ ceiling ∧
  changed (acc_cell fd st a.1 a.2) = true.
Proof.
  intros (Hsa & Hsp & Hge) [Ha1 Ha2] [Hb1 Hb2] (dr & dc & Hnz & Hd & Hr & Hc).
  destruct a as [i j], b as [bi bj]. cbn [fst snd] in *. unfold acc_cell.
  apply Z.eqb_neq in Hnz. rewrite Hnz, Hd. cbn [orb].
  destruct (at2 (processed st) i j) eqn:Hp; [intros E; congruence|].
  assert (in_range (Z.of_nat i + dr) (nrows fd) && in_range (Z.of_nat j + dc) (ncols fd) = true)
    as ->.
  { apply andb_true_iff. rewrite !in_range_true. lia. }
  replace (Z.to_nat (Z.of_nat i + dr)) with bi by lia.
  replace (Z.to_nat (Z.of_nat j + dc)) with bj by lia.
  destruct (ceiling <? at2 (flow_acc st) bi bj) eqn:Hg.
  - simpl. rewrite (at2_set2_eq _ (nrows fd) (ncols fd)) by done. done.
  - apply Z.ltb_ge in Hg. intros _.
    rewrite (at2_set2_eq _ (nrows fd) (ncols fd)) by done.
    rewrite exceeds_tenth_pos by (pose proof (Hge i j Ha1 Ha2); lia).
    simpl. rewrite (at2_set2_eq _ (nrows fd) (ncols fd)) by done. done.
Qed.

(** The same over any run of cells of the array. *)
Lemma acc_cells_props fd (l : list (nat * nat)) st :
  acc_wf (nrows fd) (ncols fd) st →
  Forall (in_array fd) l →
  acc_wf (nrows fd) (ncols fd) (fold_left (λ st c, acc_cell fd st c.1 c.2) l st) ∧
  (∀ i' j', at2 (flow_acc st) i' j' ≤
            at2 (flow_acc (fold_left (λ st c, acc_cell fd st c.1 c.2) l st)) i' j') ∧
  (∀ i' j', at2 (processed st) i' j' = true →
            at2 (processed (fold_left (λ st c, acc_cell fd st c.1 c.2) l st)) i' j' = true) ∧
  (changed st = true →
   changed (fold_left (λ st c, acc_cell fd st c.1 c.2) l st) = true).
Proof.
  revert st. induction l as [|c l IH]; intros st Hwf Hall; simpl.
  - split_and!; [done|intros; reflexivity|done|done].
  - inversion Hall as [|? ? [Hc1 Hc2] Hall']; subst.
    destruct (acc_cell_props fd st c.1 c.2 Hwf Hc1 Hc2) as (Hwf1 & Hm1 & Hp1 & Hch1).
    destruct (IH _ Hwf1 Hall') as (Hwf2 & Hm2 & Hp2 & Hch2).
    split_and!; [done| | |by auto].
    + intros i' j'. etrans; [apply Hm1|apply Hm2].
    + intros i' j' H. by apply Hp2, Hp1.
Qed.

Lemma cells_in_array {V} (a : ndarray V) : Forall (in_array a) (cells (nrows a) (ncols a)).
Proof. apply Forall_forall. intros c Hc. by apply elem_of_cells in Hc. Qed.

(** A pass is the run over all the cells, from [changed = False]. *)
Lemma one_pass_cells fd st :
  one_pass fd st =
    fold_left (λ st c, acc_cell fd st c.1 c.2) (cells (nrows fd) (ncols fd))
      (mk_acc_state (flow_acc st) (processed st) false).
Proof.
  unfold one_pass, acc_row.
  apply (fold_cells (λ st i j, acc_cell fd st i j)).
Qed.

Lemma one_pass_props fd st :
  acc_wf (nrows fd) (ncols fd) st →
  acc_wf (nrows fd) (ncols fd) (one_pass fd st) ∧
  (∀ i' j', at2 (flow_acc st) i' j' ≤ at2 (flow_acc (one_pass fd st)) i' j') ∧
  (∀ i' j', at2 (processed st) i' j' = true →
            at2 (processed (one_pass fd st)) i' j' = true).
Proof.
  intros Hwf. rewrite one_pass_cells.
  destruct (acc_cells_props fd (cells (nrows fd) (ncols fd))
              (mk_acc_state (flow_acc st) (processed st) false))
    as (H1 & H2 & H3 & _); [by destruct Hwf|apply cells_in_array|].
  done.
Qed.

(** A cell that routes into another and is still unmarked after a pass
    has pushed its value downstream during the pass. *)
Lemma one_pass_push fd st a b :
  acc_wf (nrows fd) (ncols fd) st → in_array fd a → in_array fd b →
  routes_into fd a b →
  at2 (processed (one_pass fd st)) a.1 a.2 = false →
  at2 (flow_acc st) b.1 b.2 + at2 (flow_acc st) a.1 a.2
    ≤ at2 (flow_acc (one_pass fd st)) b.1 b.2 ∧
  at2 (flow_acc st) b.1 b.2 ≤ ceiling ∧
  changed (one_pass fd st) = true.
Proof.
  intros Hwf Ha Hb Hr. rewrite one_pass_cells.
  assert (a ∈ cells (nrows fd) (ncols fd)) as Hin by by apply elem_of_cells.
  apply list_elem_of_split in Hin as (l1 & l2 & Hl).
  pose proof (cells_in_array fd) as Hall. rewrite Hl in Hall |- *.
  apply Forall_app in Hall as [Hall1 Hall2].
  apply Forall_cons in Hall2 as [_ Hall2].
  rewrite fold_left_app. simpl.
  set (st0 := mk_acc_state (flow_acc st) (processed st) false).
  assert (acc_wf (nrows fd) (ncols fd) st0) as Hwf0 by by destruct Hwf.
  destruct (acc_cells_props fd l1 st0 Hwf0 Hall1) as (Hwf1 & Hm1 & _ & _).
  set (st1 := fold_left _ l1 st0) in *.
  destruct (acc_cell_props fd st1 a.1 a.2 Hwf1 (proj1 Ha) (proj2 Ha)) as (Hwf2 & _ & _ & _).
  destruct (acc_cells_props fd l2 _ Hwf2 Hall2) as (_ & Hm2 & Hp2 & Hch2).
  intros Hunmarked.
  assert (at2 (processed (acc_cell fd st1 a.1 a.2)) a.1 a.2 = false) as Hun1.
  { destruct (at2 (processed (acc_cell fd st1 a.1 a.2)) a.1 a.2) eqn:E; [|done].
    by rewrite (Hp2 _ _ E) in Hunmarked. }
  destruct (acc_cell_push fd st1 a b Hwf1 Ha Hb Hr Hun1) as (Hadd & Hle & Hch).
  split_and!.
  - etrans; [|apply Hm2]. rewrite Hadd.
    pose proof (Hm1 b.1 b.2). pose proof (Hm1 a.1 a.2). simpl in *. lia.
  - pose proof (Hm1 b.1 b.2). simpl in *. lia.
  - by apply Hch2.
Qed.

(** The outer loop keeps the invariant, whatever it prints. *)
Lemma accumulate_loop_wf fd its r :
  acc_wf (nrows fd) (ncols fd) (final r) →
  acc_wf (nrows fd) (ncols fd) (final (accumulate_loop fd its r)).
Proof.
  revert r. induction its as [|it rest IH]; intros r Hwf; cbn [accumulate_loop]; [done|].
  destruct (one_pass_props fd (final r) Hwf) as (Hwf1 & _ & _).
  destruct (negb (changed (one_pass fd (final r)))); [done|].
  destruct (it =? max_iterations - 1)%nat; by apply IH.
Qed.

Lemma accumulate_wf fd : acc_wf (nrows fd) (ncols fd) (final (accumulate fd)).
Proof. apply accumulate_loop_wf. cbn [final]. apply acc_init_wf. Qed.

Lemma after_passes_wf fd k : acc_wf (nrows fd) (ncols fd) (after_passes fd k).
Proof.
  unfold after_passes. induction k as [|k IH]; simpl; [apply acc_init_wf|].
  by apply one_pass_props.
Qed.

(** The loop from iteration [start] on, with [n] iterations left: it makes
    [p] passes, each but the last flagged as changed; it stops at the
    first pass that is not, and reports convergence; when the last pass
    is flagged as well, all the [n] passes were made and the warning is
    printed. *)
Lemma accumulate_loop_spec fd n : ∀ start st out,
  (start + n = max_iterations)%nat →
  ∃ p,
    (p ≤ n)%nat ∧ (0 < n → 1 ≤ p)%nat ∧
    passes (accumulate_loop fd (seq start n) (mk_acc_run st start out)) = (start + p)%nat ∧
    final (accumulate_loop fd (seq start n) (mk_acc_run st start out))
      = Nat.iter p (one_pass fd) st ∧
    (∀ q, (1 ≤ q < p)%nat → changed (Nat.iter q (one_pass fd) st) = true) ∧
    ((0 < n)%nat →
     changed (Nat.iter p (one_pass fd) st) = false →
     printed (accumulate_loop fd (seq start n) (mk_acc_run st start out))
       = out ++ [Converged (start + p)]) ∧
    ((0 < n)%nat →
     changed (Nat.iter p (one_pass fd) st) = true →
     p = n ∧
     printed (accumulate_loop fd (seq start n) (mk_acc_run st start out))
       = out ++ [Warning_not_converged max_iterations]).
Proof.
  induction n as [|n IH]; intros start st out Hsum.
  - exists 0%nat. simpl. split_and!; try done; lia.
  - cbn [seq accumulate_loop final passes printed].
    destruct (changed (one_pass fd st)) eqn:Hch; cbn [negb].
    + destruct (Nat.eqb_spec start (max_iterations - 1)) as [Hlast|Hlast].
      * assert (n = 0)%nat as -> by (unfold max_iterations in *; lia).
        exists 1%nat.
        split; [lia|]. split; [lia|]. split; [simpl; lia|]. split; [done|].
        split; [intros q Hq; lia|split].
        -- intros _ Hc. simpl in Hc. congruence.
        -- intros _ _. done.
      * assert (0 < n)%nat as Hn by (unfold max_iterations in *; lia).
        destruct (IH (S start) (one_pass fd st) out) as
          (p & Hp1 & Hp2 & Hpass & Hfin & Hbefore & Hconv & Hwarn); [lia|].
        exists (S p). rewrite Nat.iter_succ_r.
        split; [lia|]. split; [lia|]. split; [rewrite Hpass; lia|].
        split; [done|]. split; [|split].
        -- intros q Hq. destruct q as [|q]; [lia|]. rewrite Nat.iter_succ_r.
           destruct q as [|q]; [done|]. apply Hbefore. lia.
        -- intros _ Hc. rewrite (Hconv Hn Hc). do 3 f_equal; lia.
        -- intros _ Hc. destruct (Hwarn Hn Hc) as [-> ->]. done.
    + exists 1%nat.
      split; [lia|]. split; [lia|]. split; [simpl; lia|]. split; [done|].
      split; [intros q Hq; lia|split].
      * intros _ _. simpl. do 3 f_equal; lia.
      * intros _ Hc. simpl in Hc. congruence.
Qed.

(** The guard: a cell is marked only on finding the value of its
    downstream cell above the threshold, and the values are left as they
    are when it is. *)
Lemma acc_cell_marks fd st i j i' j' :
  acc_wf (nrows fd) (ncols fd) st → (i < nrows fd)%nat → (j < ncols fd)%nat →
  at2 (processed (acc_cell fd st i j)) i' j' = true →
  at2 (processed st) i' j' = true ∨
  ((i', j') = (i, j) ∧ flow_acc (acc_cell fd st i j) = flow_acc st ∧
   ∃ dr dc, dict_get dir_to_offset (at2 fd i j) = Some (dr, dc) ∧
     ceiling < at2 (flow_acc st) (Z.to_nat (Z.of_nat i + dr)) (Z.to_nat (Z.of_nat j + dc))).
Proof.
  intros (Hsa & Hsp & Hge) Hi Hj. unfold acc_cell.
  destruct ((at2 fd i j =? 0) || at2 (processed st) i j); [by left|].
  destruct (dict_get dir_to_offset (at2 fd i j)) as [[dr dc]|]; [|by left].
  destruct (in_range (Z.of_nat i + dr) (nrows fd) && in_range (Z.of_nat j + dc) (ncols fd));
    [|by left].
  destruct (Z.ltb_spec ceiling
              (at2 (flow_acc st) (Z.to_nat (Z.of_nat i + dr)) (Z.to_nat (Z.of_nat j + dc))))
    as [Hgt|Hle].
  - cbn [processed flow_acc]. rewrite (at2_set2 _ (nrows fd) (ncols fd)) by done.
    case_decide as E; [|by left]. destruct E as [-> ->]. intros _. right.
    split_and!; [done|done|]. by exists dr, dc.
  - destruct (exceeds_tenth _); cbn [processed]; by left.
Qed.

Lemma acc_cell_guard fd st i j :
  acc_wf (nrows fd) (ncols fd) st → (i < nrows fd)%nat → (j < ncols fd)%nat →
  guard_inv fd st → guard_inv fd (acc_cell fd st i j).
Proof.
  intros Hwf Hi Hj Hinv i' j' dr dc Hi' Hj' Hd Hp.
  destruct (acc_cell_props fd st i j Hwf Hi Hj) as (_ & Hmono & _ & _).
  destruct (acc_cell_marks fd st i j i' j' Hwf Hi Hj Hp)
    as [Hold|(E & Hsame & dr' & dc' & Hd' & Hgt)].
  - eapply Z.lt_le_trans; [by apply (Hinv i' j' dr dc)|apply Hmono].
  - injection E as -> ->. rewrite Hsame. congruence.
Qed.

Lemma acc_cells_guard fd (l : list (nat * nat)) st :
  acc_wf (nrows fd) (ncols fd) st → Forall (in_array fd) l →
  guard_inv fd st → guard_inv fd (fold_left (λ st c, acc_cell fd st c.1 c.2) l st).
Proof.
  revert st. induction l as [|c l IH]; intros st Hwf Hall Hinv; [done|].
  apply Forall_cons in Hall as [[Hc1 Hc2] Hall]. cbn [fold_left]. apply IH; [|done|].
  - by apply acc_cell_props.
  - by apply acc_cell_guard.
Qed.

Lemma one_pass_guard fd st :
  acc_wf (nrows fd) (ncols fd) st → guard_inv fd st → guard_inv fd (one_pass fd st).
Proof.
  intros Hwf Hinv. rewrite one_pass_cells.
  apply acc_cells_guard; [by destruct Hwf|apply cells_in_array|done].
Qed.

Lemma acc_init_guard fd : guard_inv fd (acc_init fd).
Proof.
  intros i j dr dc Hi Hj _. unfold acc_init. cbn [processed].
  by rewrite at2_np_full.
Qed.

Lemma accumulate_loop_guard fd its r :
  acc_wf (nrows fd) (ncols fd) (final r) → guard_inv fd (final r) →
  guard_inv fd (final (accumulate_loop fd its r)).
Proof.
  revert r. induction its as [|it rest IH]; intros r Hwf Hinv;
    cbn [accumulate_loop]; [done|].
  destruct (one_pass_props fd (final r) Hwf) as (Hwf1 & _ & _).
  pose proof (one_pass_guard fd (final r) Hwf Hinv) as Hinv1.
  destruct (negb (changed (one_pass fd (final r)))); [done|].
  destruct (it =? max_iterations - 1)%nat; by apply IH.
Qed.

Lemma accumulate_guard fd : guard_inv fd (final (accumulate fd)).
Proof.
  apply accumulate_loop_guard; cbn [final]; [apply acc_init_wf|apply acc_init_guard].
Qed.





(** The values stay within the whole numbers that binary64 holds
    exactly: each addition goes into a cell not above the threshold, so
    the largest value grows by at most the threshold with each cell
    visited. *)
Lemma acc_cell_below fd st i j bound :
  acc_wf (nrows fd) (ncols fd) st → (i < nrows fd)%nat → (j < ncols fd)%nat →
  all_below (nrows fd) (ncols fd) bound st →
  all_below (nrows fd) (ncols fd) (bound + ceiling) (acc_cell fd st i j).
Proof.
  intros (Hsa & Hsp & Hge) Hi Hj Hb.
  assert (all_below (nrows fd) (ncols fd) (bound + ceiling) st) as Hb'.
  { intros i' j' Hi' Hj'. pose proof (Hb i' j' Hi' Hj'). unfold ceiling. lia. }
  unfold acc_cell.
  destruct ((at2 fd i j =? 0) || at2 (processed st) i j); [done|].
  destruct (dict_get dir_to_offset (at2 fd i j)) as [[dr dc]|]; [|done].
  destruct (in_range (Z.of_nat i + dr) (nrows fd) && in_range (Z.of_nat j + dc) (ncols fd))
    eqn:Hin; [|done].
  apply andb_true_iff in Hin as [Hni Hnj]. apply in_range_true in Hni, Hnj.
  destruct (Z.ltb_spec ceiling
              (at2 (flow_acc st) (Z.to_nat (Z.of_nat i + dr)) (Z.to_nat (Z.of_nat j + dc))))
    as [Hgt|Hle]; [done|].
  assert (all_below (nrows fd) (ncols fd) (bound + ceiling)
            (mk_acc_state
               (set2 (flow_acc st) (Z.to_nat (Z.of_nat i + dr)) (Z.to_nat (Z.of_nat j + dc))
                  (at2 (flow_acc st) (Z.to_nat (Z.of_nat i + dr)) (Z.to_nat (Z.of_nat j + dc))
                   + at2 (flow_acc st) i j))
               (processed st) true)) as Hnew.
  { intros i' j' Hi' Hj'. cbn [flow_acc].
    rewrite (at2_set2 _ (nrows fd) (ncols fd)) by (done || lia).
    case_decide; [|by apply Hb']. pose proof (Hb i j Hi Hj). lia. }
  destruct (exceeds_tenth _); exact Hnew.
Qed.

Lemma acc_cells_below fd (l : list (nat * nat)) st bound :
  acc_wf (nrows fd) (ncols fd) st → Forall (in_array fd) l →
  all_below (nrows fd) (ncols fd) bound st →
  all_below (nrows fd) (ncols fd) (bound + Z.of_nat (length l) * ceiling)
    (fold_left (λ st c, acc_cell fd st c.1 c.2) l st).
Proof.
  revert st bound. induction l as [|c l IH]; intros st bound Hwf Hall Hb; cbn [fold_left].
  - simpl. by rewrite Z.add_0_r.
  - apply Forall_cons in Hall as [[Hc1 Hc2] Hall].
    replace (bound + Z.of_nat (length (c :: l)) * ceiling)
      with ((bound + ceiling) + Z.of_nat (length l) * ceiling)
      by (cbn [length]; lia).
    apply IH; [by apply acc_cell_props|done|by apply acc_cell_below].
Qed.

Lemma length_cells rows cols : length (cells rows cols) = (rows * cols)%nat.
Proof.
  unfold cells.
  assert (∀ l : list nat,
            length (l ≫= λ i, (λ j, (i, j)) <$> seq 0 cols) = (length l * cols)%nat) as H.
  { induction l as [|i l IH]; [done|].
    csimpl. rewrite length_app, length_fmap, length_seq, IH. done. }
  by rewrite H, length_seq.
Qed.

Lemma after_passes_below fd k :
  all_below (nrows fd) (ncols fd)
    (1 + Z.of_nat k * (Z.of_nat (nrows fd * ncols fd) * ceiling)) (after_passes fd k).
Proof.
  unfold after_passes. induction k as [|k IH].
  - intros i j Hi Hj. simpl. unfold acc_init. cbn [flow_acc].
    by rewrite at2_np_full.
  - rewrite Nat.iter_succ, one_pass_cells.
    pose proof (after_passes_wf fd k) as Hwf. unfold after_passes in Hwf.
    set (st := Nat.iter k (one_pass fd) (acc_init fd)) in *.
    set (st0 := mk_acc_state (flow_acc st) (processed st) false).
    assert (acc_wf (nrows fd) (ncols fd) st0) as Hwf0 by (by destruct Hwf).
    pose proof (acc_cells_below fd (cells (nrows fd) (ncols fd)) st0 _ Hwf0
                  (cells_in_array fd) IH) as Hb.
    rewrite length_cells in Hb.
    intros i j Hi Hj. pose proof (Hb i j Hi Hj). lia.
Qed.

(** For a direction field of up to 10^8 cells every value that the
    propagator holds after a pass, and so during it, is below 2^53. *)
Lemma accumulation_values_exact fd k i j :
  Z.of_nat (nrows fd * ncols fd) ≤ 100000000 → (k ≤ max_iterations)%nat →
  (i < nrows fd)%nat → (j < ncols fd)%nat →
  1 ≤ at2 (flow_acc (after_passes fd k)) i j < 2 ^ 53.
Proof.
  intros Hsize Hk Hi Hj.
  destruct (after_passes_wf fd k) as (_ & _ & Hge).
  pose proof (after_passes_below fd k i j Hi Hj) as Hle.
  split; [by apply Hge|].
  eapply Z.le_lt_trans; [exact Hle|].
  unfold max_iterations, ceiling in *.
  assert (Z.of_nat k * (Z.of_nat (nrows fd * ncols fd) * 1000000)
          ≤ 50 * (100000000 * 1000000)) as Hprod.
  { apply Z.mul_le_mono_nonneg; [lia|lia|lia|].
    apply Z.mul_le_mono_nonneg; lia. }
  change (2 ^ 53) with 9007199254740992. lia.
Qed.

(** *** The claims on the accumulation field *)

(** The two cells of a mutual-drainage pair, while neither is marked:
    after a pass each holds at least the sum of both before it. *)
Lemma cycle_pass fd a b st :
  acc_wf (nrows fd) (ncols fd) st → in_array fd a → in_array fd b →
  routes_into fd a b → routes_into fd b a →
  at2 (processed (one_pass fd st)) a.1 a.2 = false →
  at2 (processed (one_pass fd st)) b.1 b.2 = false →
  changed (one_pass fd st) = true ∧
  at2 (flow_acc st) a.1 a.2 + at2 (flow_acc st) b.1 b.2 ≤ 2 * ceiling ∧
  2 * (at2 (flow_acc st) a.1 a.2 + at2 (flow_acc st) b.1 b.2)
    ≤ at2 (flow_acc (one_pass fd st)) a.1 a.2 + at2 (flow_acc (one_pass fd st)) b.1 b.2.
Proof.
  intros Hwf Ha Hb Hab Hba Hua Hub.
  destruct (one_pass_push fd st a b Hwf Ha Hb Hab Hua) as (H1 & H2 & H3).
  destruct (one_pass_push fd st b a Hwf Hb Ha Hba Hub) as (H4 & H5 & _).
  split_and!; [done|lia|lia].
Qed.

(** With enough iterations left for the doubling to pass the threshold,
    the loop ends with one of the two cells marked by the guard. *)
Lemma cycle_marked_loop fd a b :
  in_array fd a → in_array fd b → routes_into fd a b → routes_into fd b a →
  ∀ its r,
    acc_wf (nrows fd) (ncols fd) (final r) →
    (at2 (processed (final r)) a.1 a.2 = true ∨ at2 (processed (final r)) b.1 b.2 = true)
    ∨ (its ≠ [] ∧
       2 * ceiling < 2 ^ Z.of_nat (length its - 1)
                     * (at2 (flow_acc (final r)) a.1 a.2 + at2 (flow_acc (final r)) b.1 b.2)) →
    at2 (processed (final (accumulate_loop fd its r))) a.1 a.2 = true ∨
    at2 (processed (final (accumulate_loop fd its r))) b.1 b.2 = true.
Proof.
  intros Ha Hb Hab Hba its. induction its as [|it rest IH]; intros r Hwf Hstart.
  - simpl. destruct Hstart as [H|[H _]]; done.
  - cbn [accumulate_loop].
    destruct (one_pass_props fd (final r) Hwf) as (Hwf1 & _ & Hkeep).
    set (st1 := one_pass fd (final r)) in *.
    assert ((at2 (processed st1) a.1 a.2 = true ∨ at2 (processed st1) b.1 b.2 = true)
            ∨ (changed st1 = true ∧ rest ≠ [] ∧
               2 * ceiling < 2 ^ Z.of_nat (length rest - 1)
                             * (at2 (flow_acc st1) a.1 a.2 + at2 (flow_acc st1) b.1 b.2)))
      as Hnext.
    { destruct Hstart as [[H|H]|[_ Hbig]]; [left; left; by apply Hkeep
                                           |left; right; by apply Hkeep|].
      destruct (at2 (processed st1) a.1 a.2) eqn:Hua; [by left; left|].
      destruct (at2 (processed st1) b.1 b.2) eqn:Hub; [by left; right|].
      right.
      destruct (cycle_pass fd a b (final r) Hwf Ha Hb Hab Hba Hua Hub) as (Hch & Hsmall & Hdouble).
      fold st1 in Hdouble. split; [done|].
      cbn [length] in Hbig. rewrite Nat.sub_succ, Nat.sub_0_r in Hbig.
      destruct rest as [|it' rest'].
      - simpl in Hbig. lia.
      - split; [done|]. cbn [length] in *. rewrite Nat.sub_succ, Nat.sub_0_r.
        rewrite Nat2Z.inj_succ, Z.pow_succ_r in Hbig by lia.
        assert (0 < 2 ^ Z.of_nat (length rest')) by (apply Z.pow_pos_nonneg; lia).
        nia. }
    destruct (changed st1) eqn:Hch; cbn [negb].
    + destruct (it =? max_iterations - 1)%nat; apply IH; simpl; try done;
        (destruct Hnext as [H|(_ & H1 & H2)]; [by left|by right]).
    + simpl. destruct Hnext as [H|(H & _)]; [done|congruence].
Qed.

(** C2: when cell A routes into cell B and B into A, the loop ends with
    the runaway guard having marked A or B as processed, the value of the
    cell downstream of the marked one being above 1e6, and the values
    returned for both cells are at most the ceiling 1e6. *)
Theorem mutual_drainage_guarded fd a b :
  in_array fd a → in_array fd b →
  routes_into fd a b → routes_into fd b a →
  ((at2 (processed (final (accumulate fd))) a.1 a.2 = true ∧
    ceiling < at2 (flow_acc (final (accumulate fd))) b.1 b.2) ∨
   (at2 (processed (final (accumulate fd))) b.1 b.2 = true ∧
    ceiling < at2 (flow_acc (final (accumulate fd))) a.1 a.2)) ∧
  at2 (calculate_flow_accumulation fd) a.1 a.2 ≤ ceiling ∧
  at2 (calculate_flow_accumulation fd) b.1 b.2 ≤ ceiling.
Proof.
  intros Ha Hb Hab Hba. split.
  - assert (at2 (processed (final (accumulate fd))) a.1 a.2 = true ∨
            at2 (processed (final (accumulate fd))) b.1 b.2 = true) as Hmarked.
    { apply (cycle_marked_loop fd a b Ha Hb Hab Hba).
      + cbn [final]. apply acc_init_wf.
      + right. split; [done|]. cbn [final]. unfold acc_init. cbn [flow_acc].
        destruct Ha, Hb. rewrite !at2_np_full by done.
        vm_compute. reflexivity. }
    pose proof (accumulate_guard fd) as Hinv.
    destruct Hab as (dr & dc & _ & Hd & Hr & Hc).
    destruct Hba as (dr' & dc' & _ & Hd' & Hr' & Hc').
    destruct Hmarked as [Hm|Hm]; [left|right]; (split; [done|]).
    + pose proof (Hinv _ _ _ _ (proj1 Ha) (proj2 Ha) Hd Hm) as Hgt.
      by rewrite <- Hr, <- Hc, !Nat2Z.id in Hgt.
    + pose proof (Hinv _ _ _ _ (proj1 Hb) (proj2 Hb) Hd' Hm) as Hgt.
      by rewrite <- Hr', <- Hc', !Nat2Z.id in Hgt.
  - destruct (accumulate_wf fd) as (Hs & _ & _).
    unfold calculate_flow_accumulation, np_clip. destruct Ha, Hb.
    rewrite !(at2_fmap _ _ (nrows fd) (ncols fd)) by done. lia.
Qed.

Lemma mutual_drainage_guarded_witness :
  ((at2 (processed (final (accumulate mutual_pair))) 0 0 = true ∧
    ceiling < at2 (flow_acc (final (accumulate mutual_pair))) 0 1) ∨
   (at2 (processed (final (accumulate mutual_pair))) 0 1 = true ∧
    ceiling < at2 (flow_acc (final (accumulate mutual_pair))) 0 0)) ∧
  at2 (calculate_flow_accumulation mutual_pair) 0 0 ≤ ceiling ∧
  at2 (calculate_flow_accumulation mutual_pair) 0 1 ≤ ceiling.
Proof.
  apply (mutual_drainage_guarded mutual_pair (0, 0)%nat (0, 1)%nat).
  - split; simpl; lia.
  - split; simpl; lia.
  - exists 0, 1. split_and!; [discriminate|reflexivity|reflexivity|reflexivity].
  - exists 0, (-1). split_and!; [discriminate|reflexivity|reflexivity|reflexivity].
Defined.


(** C4: every cell of the field calculate_flow_accumulation returns is at
    least 1 and at most 1e6. *)
Theorem accumulation_within_bounds fd i j :
  (i < nrows fd)%nat → (j < ncols fd)%nat →
  1 ≤ at2 (calculate_flow_accumulation fd) i j ≤ 1000000.
Proof.
  intros Hi Hj. destruct (accumulate_wf fd) as (Hs & _ & Hge).
  unfold calculate_flow_accumulation, np_clip.
  rewrite (at2_fmap _ _ (nrows fd) (ncols fd)) by done.
  pose proof (Hge i j Hi Hj). unfold ceiling. lia.
Qed.

Lemma accumulation_within_bounds_witness :
  1 ≤ at2 (calculate_flow_accumulation mutual_pair) 0 1 ≤ 1000000.
Proof.
  apply (accumulation_within_bounds mutual_pair 0 1); simpl; lia.
Defined.

(** ** The flow vectors *)

Section ExtractorProperties.
Context {T transform : Type}.
Variable rio_xy : transform → Z → Z → T * T.
Variables (flow_dir flow_acc : ndarray Z) (tr : transform) (threshold : Z).

(** The arrays of the store are never written. *)
Lemma extract_cell_arrays (st : extract_store T) i j :
  es_flow_dir (extract_cell rio_xy tr threshold st i j) = es_flow_dir st ∧
  es_flow_acc (extract_cell rio_xy tr threshold st i j) = es_flow_acc st.
Proof.
  unfold extract_cell.
  destruct ((at2 (es_flow_dir st) i j =? 0) || (at2 (es_flow_acc st) i j <? threshold));
    [done|].
  destruct (dict_get dir_to_offset (at2 (es_flow_dir st) i j)) as [[dr dc]|]; [|done].
  destruct (in_range _ _ && in_range _ _); done.
Qed.

(** One cell appends its vector when it is to emit one, and nothing
    otherwise. *)
Lemma extract_cell_emits (lines : list (flow_line T)) i j :
  all_routed flow_dir → (i < nrows flow_dir)%nat → (j < ncols flow_dir)%nat →
  extract_cell rio_xy tr threshold (mk_extract_store flow_dir flow_acc lines) i j
  = mk_extract_store flow_dir flow_acc
      (lines ++ if emits flow_dir flow_acc threshold (i, j)
                then [vector_of rio_xy flow_dir flow_acc tr (i, j)] else []).
Proof.
  intros Hrouted Hi Hj. unfold extract_cell, emits, vector_of, downstream.
  cbn [es_flow_dir es_flow_acc es_flow_lines fst snd].
  destruct (Z.eqb_spec (at2 flow_dir i j) 0) as [Hz|Hnz]; cbn [orb negb andb].
  { by rewrite app_nil_r. }
  destruct (Z.ltb_spec (at2 flow_acc i j) threshold) as [Hlt|Hge].
  { rewrite (proj2 (Z.leb_gt _ _)) by done. by rewrite app_nil_r. }
  rewrite (proj2 (Z.leb_le _ _)) by done.
  destruct (Hrouted i j Hi Hj Hnz) as (dr & dc & -> & -> & ->). done.
Qed.

Lemma extract_cells_emit (l : list (nat * nat)) (lines : list (flow_line T)) :
  all_routed flow_dir → Forall (in_array flow_dir) l →
  fold_left (λ st c, extract_cell rio_xy tr threshold st c.1 c.2) l
    (mk_extract_store flow_dir flow_acc lines)
  = mk_extract_store flow_dir flow_acc
      (lines ++ (vector_of rio_xy flow_dir flow_acc tr
                   <$> filter (λ c, emits flow_dir flow_acc threshold c = true) l)).
Proof.
  intros Hrouted. revert lines. induction l as [|[i j] l IH]; intros lines Hall.
  - simpl. by rewrite app_nil_r.
  - apply Forall_cons in Hall as [[Hi Hj] Hall]. cbn [fold_left fst snd] in *.
    rewrite extract_cell_emits by done. rewrite IH by done. f_equal.
    rewrite filter_cons. destruct (emits flow_dir flow_acc threshold (i, j)) eqn:He.
    + rewrite decide_True by done. by rewrite <- app_assoc.
    + rewrite decide_False by (by intros ?). by rewrite app_nil_r.
Qed.

(** The loops of the function visit the cells in the order of [cells]. *)
Lemma extract_rows_cells (l : list nat) (st : extract_store T) :
  es_flow_dir st = flow_dir →
  fold_left (extract_row rio_xy tr threshold) l st
  = fold_left (λ st i, fold_left (λ st j, extract_cell rio_xy tr threshold st i j)
                         (seq 0 (ncols flow_dir)) st) l st.
Proof.
  revert st. induction l as [|i l IH]; intros st Hst; [done|].
  cbn [fold_left]. unfold extract_row at 2. rewrite Hst. apply IH.
  generalize (seq 0 (ncols flow_dir)). intros l2. revert st Hst.
  induction l2 as [|j l2 IH2]; intros st Hst; [done|].
  cbn [fold_left]. apply IH2.
  by rewrite (proj1 (extract_cell_arrays st i j)).
Qed.

(** C9: on a direction field whose non-zero cells all have an in-bounds
    downstream neighbor, extract_flow_vectors returns, in the order of
    the cells, one vector for each cell whose code is non-zero and whose
    accumulation is at least the threshold, with the coordinates of the
    cell, those of its downstream neighbor, its accumulation and its
    code, and nothing for any other cell; no cell occurs twice in that
    order; the two arrays are as they were when it returns. *)
Theorem extract_flow_vectors_exact (dem_shape : nat * nat) :
  all_routed flow_dir →
  extract_flow_vectors rio_xy flow_dir flow_acc tr dem_shape threshold
    = extract_spec rio_xy flow_dir flow_acc tr threshold ∧
  NoDup (cells (nrows flow_dir) (ncols flow_dir)) ∧
  es_flow_dir (extract_flow_vectors_run rio_xy flow_dir flow_acc tr dem_shape threshold)
    = flow_dir ∧
  es_flow_acc (extract_flow_vectors_run rio_xy flow_dir flow_acc tr dem_shape threshold)
    = flow_acc.
Proof.
  intros Hrouted. unfold extract_flow_vectors, extract_flow_vectors_run, extract_spec.
  rewrite extract_rows_cells by done.
  rewrite (fold_cells (λ st i j, extract_cell rio_xy tr threshold st i j)).
  rewrite extract_cells_emit by (done || apply cells_in_array).
  split_and!; [done|apply NoDup_cells|done|done].
Qed.
End ExtractorProperties.

Lemma sample_dir_routed : all_routed sample_dir.
Proof.
  intros i j Hi Hj. simpl in Hi, Hj.
  destruct i as [|[|i]]; [| |lia]; destruct j as [|[|[|j]]]; try lia;
    vm_compute; intros Hnz; try done.
  - by exists 0, 1.
  - by exists 0, (-1).
  - by exists (-1), 0.
Qed.

Lemma extract_flow_vectors_exact_witness :
  extract_flow_vectors unit_xy sample_dir sample_acc (0, 0) (2, 3)%nat 2
    = extract_spec unit_xy sample_dir sample_acc (0, 0) 2 ∧
  NoDup (cells (nrows sample_dir) (ncols sample_dir)) ∧
  es_flow_dir (extract_flow_vectors_run unit_xy sample_dir sample_acc (0, 0) (2, 3)%nat 2)
    = sample_dir ∧
  es_flow_acc (extract_flow_vectors_run unit_xy sample_dir sample_acc (0, 0) (2, 3)%nat 2)
    = sample_acc.
Proof.
  apply (extract_flow_vectors_exact unit_xy sample_dir sample_acc (0, 0) 2 (2, 3)%nat).
  apply sample_dir_routed.
Defined.

(** ** Even sampling *)

Lemma sorted_le_last (l : list Z) hi :
  StronglySorted Z.lt l → last l = Some hi → Forall (λ i, i ≤ hi) l.
Proof.
  induction l as [|i l IH]; intros Hs Hl; [constructor|].
  apply StronglySorted_cons in Hs as [Hlt Hs].
  destruct l as [|i' l'].
  - simpl in Hl. injection Hl as ->. repeat constructor. lia.
  - rewrite last_cons_cons in Hl. specialize (IH Hs Hl).
    constructor; [|done].
    apply last_Some_elem_of in Hl.
    pose proof (proj1 (Forall_forall _ _) Hlt hi Hl). lia.
Qed.

Lemma sorted_ge_head (l : list Z) lo :
  StronglySorted Z.lt l → head l = Some lo → Forall (λ i, lo ≤ i) l.
Proof.
  destruct l as [|i l]; intros Hs Hh; [constructor|].
  simpl in Hh. injection Hh as ->.
  apply StronglySorted_cons in Hs as [Hlt _].
  constructor; [lia|]. eapply Forall_impl; [done|]. simpl. lia.
Qed.

(** Items taken at strictly increasing indices are a subsequence. *)
Lemma picks_sublist {A} (idx : list Z) : ∀ (out items : list A) off,
  Forall2 (λ i x, items !! Z.to_nat (i - off) = Some x) idx out →
  StronglySorted Z.lt idx → Forall (λ i, off ≤ i) idx →
  out `sublist_of` items.
Proof.
  induction idx as [|i idx IH]; intros out items off Hpick Hs Hge.
  - apply Forall2_nil_inv_l in Hpick as ->. apply sublist_nil_l.
  - apply Forall2_cons_inv_l in Hpick as (x & out' & Hx & Hpick & ->).
    apply StronglySorted_cons in Hs as [Hlt Hs].
    apply Forall_cons in Hge as [Hi Hge].
    rewrite <- (take_drop_middle items _ x Hx).
    apply sublist_inserts_l, sublist_skip.
    apply (IH out' _ (i + 1)); [|done|].
    + apply Forall2_same_length_lookup. split; [by eapply Forall2_length|].
      intros p i' x' Hi' Hx'.
      pose proof (Forall2_lookup_lr _ _ _ _ _ _ Hpick Hi' Hx') as Hit.
      pose proof (Forall_lookup_1 _ _ _ _ Hlt Hi') as Hgt. simpl in Hit, Hgt.
      rewrite lookup_drop. rewrite <- Hit. f_equal. lia.
    + eapply Forall_impl; [exact Hlt|]. simpl. lia.
Qed.

Lemma py_index_in_range {A} (items : list A) i :
  0 ≤ i < Z.of_nat (length items) → py_index items i = items !! Z.to_nat i.
Proof.
  intros Hi. unfold py_index.
  destruct (Z.leb_spec 0 i); [|lia].
  destruct (Z.ltb_spec i (Z.of_nat (length items))); [done|lia].
Qed.


(** A negative count on a longer list makes numpy raise. *)
Lemma sample_evenly_negative {A} (items : list A) max_count :
  max_count < 0 → sample_evenly items max_count = None.
Proof.
  intros H. unfold sample_evenly, np_linspace_int.
  destruct (Z.leb_spec (Z.of_nat (length items)) max_count); [lia|].
  destruct (Z.ltb_spec max_count 0); [done|lia].
Qed.

(** *** The claim on sample_evenly *)

(** With a count of one only the first item is kept. *)
Lemma sample_evenly_single_count : sample_evenly items_11 1 = Some [0].
Proof. vm_compute. reflexivity. Qed.


(** Sampling at the indices of linspace, when these are as
    [evenly_spread] says. *)
Lemma sample_evenly_picks {A} (items : list A) (max_count : Z) idx :
  max_count < Z.of_nat (length items) →
  np_linspace_int 0 (Z.of_nat (length items) - 1) max_count = Some idx →
  evenly_spread (length items) max_count idx →
  ∃ out,
    sample_evenly items max_count = Some out ∧
    Z.of_nat (length out) = max_count ∧
    Forall2 (λ i x, items !! Z.to_nat i = Some x) idx out ∧
    head out = head items ∧ last out = last items ∧
    out `sublist_of` items.
Proof.
  intros Hlong Hidx (Hlen & Hhead & Hlast & Hsorted).
  pose proof (sorted_ge_head idx 0 Hsorted Hhead) as Hge.
  pose proof (sorted_le_last idx _ Hsorted Hlast) as Hle.
  assert (Forall (λ i, is_Some (items !! Z.to_nat i)) idx) as Hsome.
  { apply Forall_forall. intros i Hi.
    pose proof (proj1 (Forall_forall _ _) Hge i Hi).
    pose proof (proj1 (Forall_forall _ _) Hle i Hi). simpl in *.
    apply lookup_lt_is_Some. lia. }
  assert (∃ out, Forall2 (λ i x, items !! Z.to_nat i = Some x) idx out) as [out Hpick].
  { clear -Hsome. induction Hsome as [|i idx [x Hx] _ [out IH]].
    - exists []. constructor.
    - exists (x :: out). by constructor. }
  exists out.
  assert (length idx = length out) as Hlen' by (by eapply Forall2_length).
  split_and!.
  - unfold sample_evenly.
    destruct (Z.leb_spec (Z.of_nat (length items)) max_count); [lia|].
    rewrite Hidx. simpl. apply mapM_Some.
    apply Forall2_same_length_lookup. split; [done|].
    intros p i x Hi Hx.
    pose proof (Forall_lookup_1 _ _ _ _ Hge Hi).
    pose proof (Forall_lookup_1 _ _ _ _ Hle Hi). simpl in *.
    rewrite py_index_in_range by lia.
    by apply (Forall2_lookup_lr _ _ _ _ _ _ Hpick Hi Hx).
  - lia.
  - done.
  - rewrite head_lookup in Hhead. rewrite !head_lookup.
    destruct (Forall2_lookup_l _ _ _ _ _ Hpick Hhead) as (x & Hout & Hx).
    change (Z.to_nat 0) with 0%nat in Hx. by rewrite Hout, Hx.
  - rewrite last_lookup in Hlast. rewrite !last_lookup, <- Hlen'.
    destruct (Forall2_lookup_l _ _ _ _ _ Hpick Hlast) as (x & Hout & Hx).
    rewrite Hout, <- Hx. f_equal. lia.
  - apply (picks_sublist idx out items 0); [|done|done].
    eapply Forall2_impl; [exact Hpick|]. intros i x. simpl.
    by rewrite Z.sub_0_r.
Qed.



(** The condition on the indices holds for every list of up to 64 items
    and every count from 2 up to its length, by evaluation of numpy's
    formula in binary64. *)
Lemma linspace_spread_upto_64 :
  Forall (λ len, Forall (λ num, spread_holds len num)
                   (seqZ 2 (Z.of_nat len - 2)))
         (seq 0 65).
Proof. compute_done. Qed.

(** So for such lists the sampling is as described without condition.
    X17: for every list of at most 64 items and every max_count from 2
    to below its length, sample_evenly returns exactly max_count items,
    begins with the first and ends with the last item, and returns a
    subsequence of the list. *)
Lemma sample_evenly_upto_64 {A} (items : list A) (max_count : Z) :
  (length items ≤ 64)%nat → 2 ≤ max_count < Z.of_nat (length items) →
  ∃ out,
    sample_evenly items max_count = Some out ∧
    Z.of_nat (length out) = max_count ∧
    head out = head items ∧ last out = last items ∧
    out `sublist_of` items.
Proof.
  intros Hlen Hcount.
  assert (spread_holds (length items) max_count) as Hspread.
  { pose proof linspace_spread_upto_64 as Hall.
    assert (length items ∈ seq 0 65) as Hin by (apply elem_of_seq; lia).
    pose proof (proj1 (Forall_forall _ _) Hall _ Hin) as Hrow. simpl in Hrow.
    apply (proj1 (Forall_forall _ _) Hrow). apply elem_of_seqZ. lia. }
  unfold spread_holds in Hspread.
  destruct (np_linspace_int 0 (Z.of_nat (length items) - 1) max_count) as [idx|] eqn:Hidx;
    [|done].
  destruct (sample_evenly_picks items max_count idx) as (out & H1 & H2 & _ & H3 & H4 & H5);
    [lia|done|done|].
  by exists out.
Qed.

(** ** Normalization *)

Lemma SFeqb_refl_finite (X : spec_float) : X ≠ S754_nan → SFeqb X X = true.
Proof.
  unfold SFeqb. destruct X as [s|s| |s m e]; simpl; try done; destruct s; try done;
    intros _; rewrite Z.compare_refl;
    change (Pos.compare_cont Eq m m) with (Pos.compare m m);
    by rewrite Pos.compare_refl.
Qed.

Lemma nan_or_inf_spec (r : float) :
  nan_or_inf r = true ↔
  Prim2SF r = S754_nan ∨ ∃ s, Prim2SF r = S754_infinity s.
Proof.
  unfold nan_or_inf, PrimFloat.is_nan, PrimFloat.is_infinity.
  rewrite !FloatAxioms.eqb_spec, FloatAxioms.abs_spec.
  change (Prim2SF infinity) with (S754_infinity false).
  destruct (Prim2SF r) as [s|s| |s m e] eqn:E.
  - rewrite SFeqb_refl_finite by done. simpl.
    split; [done|]. intros [?|[? ?]]; done.
  - simpl. split; [eauto|]. intros _. by destruct s.
  - simpl. split; [eauto|done].
  - rewrite SFeqb_refl_finite by done. simpl.
    split; [done|]. intros [?|[? ?]]; done.
Qed.

Lemma is_zero_spec (w : float) :
  PrimFloat.is_zero w = true → ∃ s, Prim2SF w = S754_zero s.
Proof.
  unfold PrimFloat.is_zero. rewrite FloatAxioms.eqb_spec.
  change (Prim2SF zero) with (S754_zero false).
  destruct (Prim2SF w) as [s|s| |s m e]; [eauto|..]; unfold SFeqb; simpl;
    try done; destruct s; done.
Qed.

(** Division by a zero of binary64 gives NaN or an infinity. *)
Lemma div_zero_nan_or_inf (x w : float) :
  PrimFloat.is_zero w = true → nan_or_inf (x / w) = true.
Proof.
  intros [s Hw]%is_zero_spec. apply nan_or_inf_spec.
  rewrite FloatAxioms.div_spec, Hw. unfold SF64div, SFdiv.
  destruct (Prim2SF x) as [sx|sx| |sx mx ex]; eauto.
Qed.

Lemma one_minus_nan_or_inf (r : float) :
  nan_or_inf r = true → nan_or_inf (1 - r) = true.
Proof.
  intros [Hr|[s Hr]]%nan_or_inf_spec; apply nan_or_inf_spec;
    rewrite FloatAxioms.sub_spec, Hr; vm_compute; eauto.
Qed.

(** A float that is neither NaN nor an infinity is a zero or a finite
    number. *)
Lemma finite_cases (x : float) :
  nan_or_inf x = false →
  (∃ s, Prim2SF x = S754_zero s) ∨ (∃ s m e, Prim2SF x = S754_finite s m e).
Proof.
  intros Hx. destruct (Prim2SF x) as [s|s| |s m e] eqn:E; [eauto| | |eauto 6].
  - assert (nan_or_inf x = true) as H by (apply nan_or_inf_spec; eauto). congruence.
  - assert (nan_or_inf x = true) as H by (apply nan_or_inf_spec; eauto). congruence.
Qed.

Lemma finite_nonzero (w : float) :
  nan_or_inf w = false → PrimFloat.is_zero w = false →
  ∃ s m e, Prim2SF w = S754_finite s m e.
Proof.
  intros Hf Hz. destruct (finite_cases w Hf) as [[s Hw]|H]; [|done].
  unfold PrimFloat.is_zero in Hz. rewrite FloatAxioms.eqb_spec, Hw in Hz.
  by destruct s.
Qed.

Lemma sub_self_zero (x : float) :
  nan_or_inf x = false → Prim2SF (x - x) = S754_zero false.
Proof.
  intros Hx. rewrite FloatAxioms.sub_spec.
  destruct (finite_cases x Hx) as [[s ->]|(s & m & e & ->)].
  - by destruct s.
  - unfold SF64sub, SFsub. by rewrite Z.sub_diag.
Qed.

Lemma zero_div_finite (z w : float) s :
  Prim2SF z = S754_zero s → nan_or_inf w = false → PrimFloat.is_zero w = false →
  ∃ s', Prim2SF (z / w) = S754_zero s'.
Proof.
  intros Hz Hf Hnz. destruct (finite_nonzero w Hf Hnz) as (sw & m & e & Hw).
  rewrite FloatAxioms.div_spec, Hz, Hw. simpl. eauto.
Qed.

Lemma one_sub_zero (z : float) s : Prim2SF z = S754_zero s → (1 - z)%float = 1%float.
Proof.
  intros Hz. apply Prim2SF_inj. rewrite FloatAxioms.sub_spec, Hz. reflexivity.
Qed.

Lemma div_self_one (w : float) :
  nan_or_inf w = false → PrimFloat.is_zero w = false → (w / w)%float = 1%float.
Proof.
  intros Hf Hnz. destruct (finite_nonzero w Hf Hnz) as (s & m & e & Hw).
  apply Prim2SF_inj. rewrite FloatAxioms.div_spec, Hw.
  unfold SF64div, SFdiv, SFdiv_core_binary.
  replace (Zdigits2 (Z.pos m) + e - (Zdigits2 (Z.pos m) + e)) with 0 by lia.
  rewrite Z.sub_diag.
  change (Z.min (fexp prec emax 0) 0) with (-53).
  change (0 - -53) with 53.
  cbv iota beta.
  rewrite Z.shiftl_mul_pow2 by lia.
  assert (Z.div_eucl (Z.pos m * 2 ^ 53) (Z.pos m) = (2 ^ 53, 0)) as ->.
  { pose proof (Z.div_eucl_eq (Z.pos m * 2 ^ 53) (Z.pos m)) as Heq.
    pose proof (Z.mod_pos_bound (Z.pos m * 2 ^ 53) (Z.pos m)) as Hb.
    unfold Z.modulo in Hb.
    destruct (Z.div_eucl (Z.pos m * 2 ^ 53) (Z.pos m)) as [q r].
    specialize (Heq ltac:(lia)). specialize (Hb ltac:(lia)).
    assert (q = 2 ^ 53) as -> by nia. f_equal. lia. }
  assert (new_location (Z.pos m) 0 = loc_Exact) as ->.
  { unfold new_location. by destruct (Z.even (Z.pos m)). }
  destruct s; reflexivity.
Qed.

(** X18: in binary64 the corners are mapped exactly, whatever the
    rounding of the width and the height, as long as these are finite and
    not zero and the corner itself is finite: the bottom-left corner goes
    to (0, 1) and the top-right corner to (1, 0). *)
Lemma normalize_corners_binary64 (b : bounding_box float) :
  nan_or_inf (b_left b) = false → nan_or_inf (b_bottom b) = false →
  nan_or_inf (box_width b) = false → PrimFloat.is_zero (box_width b) = false →
  nan_or_inf (box_height b) = false → PrimFloat.is_zero (box_height b) = false →
  PrimFloat.eqb (x_norm (b_left b) (box_width b) (b_left b)) 0 = true ∧
  y_norm (b_bottom b) (box_height b) (b_bottom b) = 1%float ∧
  x_norm (b_left b) (box_width b) (b_right b) = 1%float ∧
  y_norm (b_bottom b) (box_height b) (b_top b) = 0%float.
Proof.
  intros Hl Hb Hw Hwz Hh Hhz.
  destruct (zero_div_finite (b_left b - b_left b) (box_width b) false
              (sub_self_zero _ Hl) Hw Hwz) as [sx Hx].
  destruct (zero_div_finite (b_bottom b - b_bottom b) (box_height b) false
              (sub_self_zero _ Hb) Hh Hhz) as [sy Hy].
  unfold x_norm, y_norm. cbn [n_sub n_div n_one float_number].
  change (b_right b - b_left b)%float with (box_width b).
  change (b_top b - b_bottom b)%float with (box_height b).
  split_and!.
  - rewrite FloatAxioms.eqb_spec, Hx. by destruct sx.
  - by apply (one_sub_zero _ sy).
  - by apply div_self_one.
  - rewrite div_self_one by done. reflexivity.
Qed.

(** *** The claims on the normalization *)

(** C6 as stated fails: for a bounding box of zero width the step reports
    no error and returns the flow line with NaN as its normalized x. *)
Lemma degenerate_box_yields_nan :
  box_width degenerate_box = 0%float ∧
  normalize_flow_lines degenerate_box [mk_flow_line (0, 5) (0, 6) 3 4]%float
  = [mk_norm_flow_line nan nan 0.5 (1 - 6 / 10) (0, 5) (0, 6) 3 4]%float.
Proof. split; vm_compute; reflexivity. Qed.

(** C6, amended: the normalization has no guard for a degenerate bounding
    box.  It returns one normalized record for each flow line and each
    start point; when the width is zero every normalized x is NaN or an
    infinity, and when the height is zero every normalized y is. *)
Theorem degenerate_box_unguarded (bounds : bounding_box float)
    (flow_lines : list (flow_line float)) (start_points : list (start_point float)) :
  length (normalize_flow_lines bounds flow_lines) = length flow_lines ∧
  length (normalize_start_points bounds start_points) = length start_points ∧
  (PrimFloat.is_zero (box_width bounds) = true →
   Forall (λ l, nan_or_inf (from_x_norm l) = true ∧ nan_or_inf (to_x_norm l) = true)
     (normalize_flow_lines bounds flow_lines) ∧
   Forall (λ p, nan_or_inf (position_norm p).1 = true)
     (normalize_start_points bounds start_points)) ∧
  (PrimFloat.is_zero (box_height bounds) = true →
   Forall (λ l, nan_or_inf (from_y_norm l) = true ∧ nan_or_inf (to_y_norm l) = true)
     (normalize_flow_lines bounds flow_lines) ∧
   Forall (λ p, nan_or_inf (position_norm p).2 = true)
     (normalize_start_points bounds start_points)).
Proof.
  unfold normalize_flow_lines, normalize_start_points. split_and!.
  - by rewrite length_fmap.
  - by rewrite length_fmap.
  - intros Hw. split; apply Forall_fmap, Forall_forall; intros v _; simpl;
      unfold x_norm; simpl; try split; by apply div_zero_nan_or_inf.
  - intros Hh. split; apply Forall_fmap, Forall_forall; intros v _; simpl;
      unfold y_norm; simpl; try split;
      by apply one_minus_nan_or_inf, div_zero_nan_or_inf.
Qed.

Lemma degenerate_box_unguarded_witness :
  Forall (λ l, nan_or_inf (from_x_norm l) = true ∧ nan_or_inf (to_x_norm l) = true)
    (normalize_flow_lines degenerate_box [mk_flow_line (0, 5) (0, 6) 3 4]%float) ∧
  Forall (λ p, nan_or_inf (position_norm p).1 = true)
    (normalize_start_points degenerate_box [mk_start_point (0, 5)%float 3]).
Proof.
  apply (degenerate_box_unguarded degenerate_box
           [mk_flow_line (0, 5) (0, 6) 3 4]%float [mk_start_point (0, 5)%float 3]).
  vm_compute. reflexivity.
Defined.


#[local] Open Scope Q_scope.




#[local] Close Scope Q_scope.

(** ** Downstream cells *)

(** [target] is the link the propagator follows: the code is non-zero
    and in the offset table, and the cell it leads to is in the array. *)
Lemma target_routes fd a b :
  target fd a = Some b ↔ routes_into fd a b ∧ in_array fd b.
Proof.
  unfold target, routes_into, in_array.
  destruct a as [i j], b as [i' j']; cbn [fst snd]. split.
  - destruct (Z.eqb_spec (at2 fd i j) 0) as [|Hne]; [done|].
    destruct (dict_get dir_to_offset (at2 fd i j)) as [[dr dc]|]; [|done].
    destruct (in_range (Z.of_nat i + dr) (nrows fd)) eqn:Hr1; [|done].
    destruct (in_range (Z.of_nat j + dc) (ncols fd)) eqn:Hr2; [|done].
    apply in_range_true in Hr1, Hr2. cbn [andb]. intros [= <- <-].
    split; [|lia]. exists dr, dc. split_and!; [done|done|lia|lia].
  - intros [(dr & dc & Hne & Hd & H1 & H2) [Hb1 Hb2]].
    destruct (Z.eqb_spec (at2 fd i j) 0); [done|]. rewrite Hd, <- H1, <- H2.
    rewrite (proj2 (in_range_true (Z.of_nat i') (nrows fd))) by lia.
    rewrite (proj2 (in_range_true (Z.of_nat j') (ncols fd))) by lia.
    cbn [andb]. by rewrite !Nat2Z.id.
Qed.

(** The codes of the offset table and their offsets. *)
Lemma dict_get_dir_to_offset k dr dc :
  dict_get dir_to_offset k = Some (dr, dc) →
  k ∈ [1; 2; 4; 8; 16; 32; 64; 128] ∧ (dr, dc, k) ∈ neighbors.
Proof.
  unfold dir_to_offset, neighbors. cbn [dict_get].
  repeat match goal with
  | |- context [?c =? k] =>
      destruct (Z.eqb_spec c k) as [<-|?]; [intros [= <- <-]; split; list_mem|]
  end.
  done.
Qed.

(** ** More on the flow directions *)

Section DirectionLinks.
Context {E : Type} `{!Inhabited E, !Elevation E}.
Implicit Types dem : ndarray E.

(** The neighbor that a non-zero code of the resolver stands for. *)
Lemma d8_routes_neighbor dem a b :
  in_array dem a → routes_into (calculate_flow_direction_d8 dem) a b →
  interior dem a.1 a.2 ∧ in_array dem b ∧
  e_isnan (at2 dem a.1 a.2) = false ∧
  e_isnan (at2 dem b.1 b.2) = false ∧
  ∃ nb, nb ∈ neighbors ∧ nb.2 = at2 (calculate_flow_direction_d8 dem) a.1 a.2 ∧
    Z.of_nat b.1 = Z.of_nat a.1 + nb.1.1 ∧ Z.of_nat b.2 = Z.of_nat a.2 + nb.1.2 ∧
    valid_neighbor dem a.1 a.2 nb = true ∧
    ∀ m, m ∈ neighbors → valid_neighbor dem a.1 a.2 m = true →
      float_gt (neighbor_slope dem a.1 a.2 m) (neighbor_slope dem a.1 a.2 nb) = false.
Proof.
  destruct a as [i j], b as [i' j']; cbn [fst snd].
  intros [Hi Hj] (dr & dc & Hne & Hd & H1 & H2); cbn [fst snd] in *.
  destruct (d8_nonzero_interior dem i j Hi Hj Hne) as (Hint & Hnan & Hcode).
  rewrite Hcode in Hne.
  destruct (scan_code_nonzero dem i j Hne) as (l1 & nb & l2 & Hnbs & Hvalid & Hsnd & Hmax & _).
  assert (nb ∈ neighbors) as Hin.
  { rewrite Hnbs. apply elem_of_app. right. apply list_elem_of_here. }
  pose proof neighbors_table as Htab.
  rewrite Forall_forall in Htab. destruct (Htab nb Hin) as (Hget & _).
  rewrite Hcode, Hsnd, Hget in Hd.
  destruct nb as [[dr' dc'] code]; cbn [fst snd] in *.
  injection Hd as -> ->.
  pose proof Hvalid as Hv. unfold valid_neighbor in Hv.
  apply andb_true_iff in Hv as [Hv Hv3]. apply andb_true_iff in Hv as [Hv1 Hv2].
  apply in_range_true in Hv1, Hv2.
  rewrite <- H1, <- H2, !Nat2Z.id in Hv3. apply negb_true_iff in Hv3.
  rewrite <- H1 in Hv1. rewrite <- H2 in Hv2.
  split_and!; [done|split; cbn [fst snd]; lia|done|done|].
  exists (dr, dc, code). cbn [fst snd]. rewrite Hcode, Hsnd.
  split_and!; done.
Qed.

(** X1: whatever the dtype of the elevation array, the resolver gives
    the code 0 to a cell exactly when the cell is on the border, or is a
    no-data cell, or has no valid neighbor towards which the slope, the
    difference in the dtype of the array divided in float64 by 1 or by
    the float64 value of sqrt 2, is above minus infinity. *)
Theorem d8_zero_code_exact dem i j :
  (i < nrows dem)%nat → (j < ncols dem)%nat →
  at2 (calculate_flow_direction_d8 dem) i j = 0 ↔
    ¬ interior dem i j ∨ e_isnan (at2 dem i j) = true ∨
    ∀ m, m ∈ neighbors → valid_neighbor dem i j m = true →
      float_gt (spec_slope dem i j m) neg_infinity = false.
Proof.
  intros Hi Hj.
  assert ((∀ m, m ∈ neighbors → valid_neighbor dem i j m = true →
             float_gt (spec_slope dem i j m) neg_infinity = false) ↔
          (∀ m, m ∈ neighbors → valid_neighbor dem i j m = true →
             float_gt (neighbor_slope dem i j m) neg_infinity = false)) as Hspec.
  { split; intros Hall m Hm Hv; [rewrite neighbor_slope_spec by done|
                                 rewrite <- neighbor_slope_spec by done]; by apply Hall. }
  rewrite Hspec, d8_at by done. case_decide as H.
  - destruct H as [Hint Hnan]. rewrite scan_code_zero_iff.
    split; [auto|]. intros [?|[?|?]]; [done|congruence|done].
  - split; [|done]. intros _.
    destruct (decide (interior dem i j)); [|auto]. right; left.
    destruct (e_isnan (at2 dem i j)) eqn:Hn; [done|].
    exfalso. by apply H.
Qed.

(** X2: whatever the dtype of the elevation array, a link of the
    direction field the resolver returns starts at an interior cell that
    holds data and ends at a cell of the array that holds data; that cell
    is the neighbor the code stands for in the offset table of the
    propagator and of the extractor, and the slope towards no valid
    neighbor, as the code computes it (the difference in the dtype of
    the array, divided in float64 by 1 or by the float64 value of
    sqrt 2), is above the slope computed towards that cell. *)
Theorem d8_links_join_data_cells dem a b :
  in_array dem a → target (calculate_flow_direction_d8 dem) a = Some b →
  interior dem a.1 a.2 ∧ in_array dem b ∧
  e_isnan (at2 dem a.1 a.2) = false ∧
  e_isnan (at2 dem b.1 b.2) = false ∧
  ∃ nb, nb ∈ neighbors ∧ nb.2 = at2 (calculate_flow_direction_d8 dem) a.1 a.2 ∧
    dict_get dir_to_offset nb.2 = Some nb.1 ∧
    Z.of_nat b.1 = Z.of_nat a.1 + nb.1.1 ∧ Z.of_nat b.2 = Z.of_nat a.2 + nb.1.2 ∧
    ∀ m, m ∈ neighbors → valid_neighbor dem a.1 a.2 m = true →
      float_gt (spec_slope dem a.1 a.2 m) (spec_slope dem a.1 a.2 nb) = false.
Proof.
  intros Ha Ht. apply target_routes in Ht as [Hr _].
  destruct (d8_routes_neighbor dem a b Ha Hr)
    as (Hint & Hb & Hna & Hnb & nb & Hin & Hcode & H1 & H2 & _ & Hmax).
  split_and!; [done..|]. exists nb. split_and!; [done|done| |done|done|].
  - pose proof neighbors_table as Htab. rewrite Forall_forall in Htab.
    by destruct (Htab nb Hin) as (Hget & _).
  - intros m Hm Hv. rewrite <- !neighbor_slope_spec by done. by apply Hmax.
Qed.

End DirectionLinks.

Lemma d8_zero_code_exact_witness :
  at2 (calculate_flow_direction_d8 slope_5x5) 1 1 = 0 ↔
    ¬ interior slope_5x5 1 1 ∨ e_isnan (at2 slope_5x5 1 1) = true ∨
    ∀ m, m ∈ neighbors → valid_neighbor slope_5x5 1 1 m = true →
      float_gt (spec_slope slope_5x5 1 1 m) neg_infinity = false.
Proof.
  apply (d8_zero_code_exact slope_5x5 1 1); simpl; lia.
Defined.

Lemma d8_links_join_data_cells_witness :
  interior slope_5x5 1 1 ∧ in_array slope_5x5 (2, 2)%nat ∧
  e_isnan (at2 slope_5x5 1 1) = false ∧
  e_isnan (at2 slope_5x5 2 2) = false ∧
  ∃ nb, nb ∈ neighbors ∧ nb.2 = at2 (calculate_flow_direction_d8 slope_5x5) 1 1 ∧
    dict_get dir_to_offset nb.2 = Some nb.1 ∧
    Z.of_nat 2 = Z.of_nat 1 + nb.1.1 ∧ Z.of_nat 2 = Z.of_nat 1 + nb.1.2 ∧
    ∀ m, m ∈ neighbors → valid_neighbor slope_5x5 1 1 m = true →
      float_gt (spec_slope slope_5x5 1 1 m) (spec_slope slope_5x5 1 1 nb) = false.
Proof.
  apply (d8_links_join_data_cells slope_5x5 (1, 1)%nat (2, 2)%nat).
  - split; simpl; lia.
  - reflexivity.
Defined.

(** ** More on the accumulation *)

(** The run of the propagator in terms of its passes. *)
Lemma accumulate_run fd :
  ∃ p, (p < max_iterations)%nat ∧
    passes (accumulate fd) = S p ∧
    final (accumulate fd) = one_pass fd (after_passes fd p) ∧
    (changed (final (accumulate fd)) = false →
     printed (accumulate fd) = [Converged (S p)]) ∧
    (changed (final (accumulate fd)) = true →
     S p = max_iterations ∧
     printed (accumulate fd) = [Warning_not_converged max_iterations]).
Proof.
  unfold accumulate, after_passes.
  destruct (accumulate_loop_spec fd max_iterations 0 (acc_init fd) [])
    as (p & Hp1 & Hp2 & Hpass & Hfin & _ & Hconv & Hwarn); [done|].
  assert (0 < max_iterations)%nat as Hpos by (unfold max_iterations; lia).
  specialize (Hp2 Hpos). specialize (Hconv Hpos). specialize (Hwarn Hpos).
  rewrite Hpass, Hfin. rewrite !Nat.add_0_l in *.
  destruct p as [|p]; [lia|]. exists p. rewrite Nat.iter_succ in *.
  split; [lia|]. split; [done|]. split; [done|]. split; [done|]. exact Hwarn.
Qed.

Lemma after_passes_guard fd k : guard_inv fd (after_passes fd k).
Proof.
  induction k as [|k IH]; [apply acc_init_guard|].
  unfold after_passes in *. rewrite Nat.iter_succ.
  apply one_pass_guard; [apply (after_passes_wf fd k)|done].
Qed.

(** The returned value of a cell is the clamped value of the last state. *)
Lemma calculate_at fd i j :
  (i < nrows fd)%nat → (j < ncols fd)%nat →
  at2 (calculate_flow_accumulation fd) i j
  = Z.min (Z.max (at2 (flow_acc (final (accumulate fd))) i j) 0) ceiling.
Proof.
  intros Hi Hj. destruct (accumulate_wf fd) as (Hs & _).
  unfold calculate_flow_accumulation, np_clip.
  by rewrite (at2_fmap _ _ (nrows fd) (ncols fd)).
Qed.

Lemma calculate_has_shape fd :
  has_shape (calculate_flow_accumulation fd) (nrows fd) (ncols fd).
Proof. apply has_shape_fmap, accumulate_wf. Qed.

Lemma calculate_nrows fd : nrows (calculate_flow_accumulation fd) = nrows fd.
Proof. apply (has_shape_nrows _ _ _ (calculate_has_shape fd)). Qed.

Lemma calculate_ncols fd : ncols (calculate_flow_accumulation fd) = ncols fd.
Proof.
  destruct fd as [|r fd]; [reflexivity|].
  apply (has_shape_ncols _ _ _ (calculate_has_shape (r :: fd))). simpl. lia.
Qed.

(** A cell writes to its downstream cell only. *)
Lemma acc_cell_elsewhere fd st c b :
  target fd c ≠ Some b →
  at2 (flow_acc (acc_cell fd st c.1 c.2)) b.1 b.2 = at2 (flow_acc st) b.1 b.2.
Proof.
  unfold target, acc_cell. destruct c as [i j], b as [i' j']; cbn [fst snd].
  destruct (Z.eqb_spec (at2 fd i j) 0) as [|Hne]; [done|]. cbn [orb].
  destruct (at2 (processed st) i j); [done|].
  destruct (dict_get dir_to_offset (at2 fd i j)) as [[dr dc]|]; [|done].
  destruct (in_range _ _ && in_range _ _); [|done]. intros Hb.
  destruct (ceiling <? _); [done|].
  assert (at2 (set2 (flow_acc st) (Z.to_nat (Z.of_nat i + dr)) (Z.to_nat (Z.of_nat j + dc))
                 (at2 (flow_acc st) (Z.to_nat (Z.of_nat i + dr)) (Z.to_nat (Z.of_nat j + dc))
                  + at2 (flow_acc st) i j)) i' j' = at2 (flow_acc st) i' j') as Heq.
  { apply at2_set2_ne. congruence. }
  by destruct (exceeds_tenth _).
Qed.

Lemma acc_cells_elsewhere fd (l : list (nat * nat)) st b :
  Forall (λ c, target fd c ≠ Some b) l →
  at2 (flow_acc (fold_left (λ st c, acc_cell fd st c.1 c.2) l st)) b.1 b.2
  = at2 (flow_acc st) b.1 b.2.
Proof.
  revert st. induction l as [|c l IH]; intros st Hall; [done|].
  apply Forall_cons in Hall as [Hc Hall]. cbn [fold_left].
  rewrite IH by done. by apply acc_cell_elsewhere.
Qed.

(** A cell that no cell of the array leads to keeps its first value. *)
Lemma no_inflow_keeps_one fd b k :
  in_array fd b → (∀ a, in_array fd a → target fd a ≠ Some b) →
  at2 (flow_acc (after_passes fd k)) b.1 b.2 = 1.
Proof.
  intros [Hb1 Hb2] Hno. induction k as [|k IH].
  - unfold after_passes, acc_init. cbn [Nat.iter flow_acc]. by apply at2_np_full.
  - unfold after_passes in *. rewrite Nat.iter_succ, one_pass_cells.
    rewrite acc_cells_elsewhere; [exact IH|].
    eapply Forall_impl; [apply cells_in_array|]. intros a Ha. by apply Hno.
Qed.

(** A cell that some cell of the array leads to holds at least 2 after
    any pass. *)
Lemma inflow_at_least_two fd a b st :
  acc_wf (nrows fd) (ncols fd) st → guard_inv fd st →
  in_array fd a → target fd a = Some b →
  2 ≤ at2 (flow_acc (one_pass fd st)) b.1 b.2.
Proof.
  intros Hwf Hg Ha Ht. apply target_routes in Ht as [Hr Hb].
  destruct (at2 (processed (one_pass fd st)) a.1 a.2) eqn:Hp.
  - pose proof (one_pass_guard fd st Hwf Hg) as Hg'.
    destruct Hr as (dr & dc & _ & Hd & H1 & H2). destruct Ha as [Ha1 Ha2].
    pose proof (Hg' a.1 a.2 dr dc Ha1 Ha2 Hd Hp) as Hc.
    rewrite <- H1, <- H2, !Nat2Z.id in Hc. unfold ceiling in Hc. lia.
  - destruct (one_pass_push fd st a b Hwf Ha Hb Hr Hp) as (Hsum & _ & _).
    destruct Hwf as (_ & _ & Hge). destruct Ha, Hb.
    pose proof (Hge a.1 a.2). pose proof (Hge b.1 b.2). lia.
Qed.

(** A pass that is not flagged has every cell with a downstream cell
    marked. *)
Lemma unflagged_pass_marks fd a b st :
  acc_wf (nrows fd) (ncols fd) st → in_array fd a → target fd a = Some b →
  changed (one_pass fd st) = false →
  at2 (processed (one_pass fd st)) a.1 a.2 = true.
Proof.
  intros Hwf Ha Ht Hc. apply target_routes in Ht as [Hr Hb].
  destruct (at2 (processed (one_pass fd st)) a.1 a.2) eqn:Hp; [done|].
  destruct (one_pass_push fd st a b Hwf Ha Hb Hr Hp) as (_ & _ & Hch). congruence.
Qed.

(** A cell without a downstream cell leaves the state as it is. *)
Lemma acc_cell_no_target fd st c :
  target fd c = None → acc_cell fd st c.1 c.2 = st.
Proof.
  unfold target, acc_cell. destruct c as [i j]; cbn [fst snd].
  destruct (Z.eqb_spec (at2 fd i j) 0) as [|Hne]; [done|]. cbn [orb].
  destruct (at2 (processed st) i j); [done|].
  destruct (dict_get dir_to_offset (at2 fd i j)) as [[dr dc]|]; [|done].
  by destruct (in_range _ _ && in_range _ _).
Qed.

Lemma acc_cells_no_target fd (l : list (nat * nat)) st :
  Forall (λ c, target fd c = None) l →
  fold_left (λ st c, acc_cell fd st c.1 c.2) l st = st.
Proof.
  revert st. induction l as [|c l IH]; intros st Hall; [done|].
  apply Forall_cons in Hall as [Hc Hall]. cbn [fold_left].
  rewrite acc_cell_no_target by done. by apply IH.
Qed.

(** The loop stops at the first pass that is not flagged. *)
Lemma accumulate_loop_stop fd iteration rest r :
  changed (one_pass fd (final r)) = false →
  accumulate_loop fd (iteration :: rest) r
  = mk_acc_run (one_pass fd (final r)) (S (passes r))
      (printed r ++ [Converged (iteration + 1)]).
Proof. intros Hc. cbn [accumulate_loop]. by rewrite Hc. Qed.

(** X3: from one pass to the next no accumulation value decreases, no
    value is below 1, and no cell loses its processed mark. *)
Theorem accumulation_never_decreases fd k i j :
  at2 (flow_acc (after_passes fd k)) i j ≤ at2 (flow_acc (after_passes fd (S k))) i j ∧
  ((i < nrows fd)%nat → (j < ncols fd)%nat → 1 ≤ at2 (flow_acc (after_passes fd k)) i j) ∧
  (at2 (processed (after_passes fd k)) i j = true →
   at2 (processed (after_passes fd (S k))) i j = true).
Proof.
  pose proof (after_passes_wf fd k) as Hwf.
  destruct (one_pass_props fd (after_passes fd k) Hwf) as (_ & Hmono & Hmark).
  unfold after_passes in *. rewrite Nat.iter_succ.
  split; [apply Hmono|]. split; [|apply Hmark].
  destruct Hwf as (_ & _ & Hge). apply Hge.
Qed.

(** X4: when the propagator returns, a cell is marked processed only if
    the value of its downstream cell is above 1e6, and the value
    returned for that downstream cell is then exactly 1e6. *)
Theorem marked_cells_feed_saturated_cells fd a b :
  in_array fd a → target fd a = Some b →
  at2 (processed (final (accumulate fd))) a.1 a.2 = true →
  ceiling < at2 (flow_acc (final (accumulate fd))) b.1 b.2 ∧
  at2 (calculate_flow_accumulation fd) b.1 b.2 = ceiling.
Proof.
  intros [Ha1 Ha2] Ht Hp. apply target_routes in Ht as [Hr [Hb1 Hb2]].
  destruct Hr as (dr & dc & _ & Hd & H1 & H2).
  pose proof (accumulate_guard fd a.1 a.2 dr dc Ha1 Ha2 Hd Hp) as Hc.
  rewrite <- H1, <- H2, !Nat2Z.id in Hc. split; [done|].
  rewrite calculate_at by done. lia.
Qed.

Lemma marked_cells_feed_saturated_cells_witness :
  ceiling < at2 (flow_acc (final (accumulate mutual_pair))) 0 1 ∧
  at2 (calculate_flow_accumulation mutual_pair) 0 1 = ceiling.
Proof.
  apply (marked_cells_feed_saturated_cells mutual_pair (0, 0)%nat (0, 1)%nat).
  - split; simpl; lia.
  - reflexivity.
  - vm_compute. reflexivity.
Defined.

(** X5: the value returned for a cell is 1 exactly when no cell of the
    array has it as its downstream cell; a cell with an inflow is
    returned with at least 2. *)
Theorem accumulation_one_iff_no_inflow fd b :
  in_array fd b →
  (at2 (calculate_flow_accumulation fd) b.1 b.2 = 1 ↔
   ∀ a, in_array fd a → target fd a ≠ Some b) ∧
  (∀ a, in_array fd a → target fd a = Some b →
     2 ≤ at2 (calculate_flow_accumulation fd) b.1 b.2).
Proof.
  intros Hb. pose proof Hb as [Hb1 Hb2].
  destruct (accumulate_run fd) as (p & _ & _ & Hfin & _).
  assert (∀ a, in_array fd a → target fd a = Some b →
            2 ≤ at2 (calculate_flow_accumulation fd) b.1 b.2) as Hin.
  { intros a Ha Ht. rewrite calculate_at, Hfin by done.
    pose proof (inflow_at_least_two fd a b _ (after_passes_wf fd p)
                  (after_passes_guard fd p) Ha Ht). unfold ceiling. lia. }
  split; [|exact Hin]. split.
  - intros H1 a Ha Ht. specialize (Hin a Ha Ht). lia.
  - intros Hno. rewrite calculate_at by done.
    rewrite Hfin. change (one_pass fd (after_passes fd p)) with (after_passes fd (S p)).
    rewrite (no_inflow_keeps_one fd b (S p)) by done. reflexivity.
Qed.

Lemma accumulation_one_iff_no_inflow_witness :
  (at2 (calculate_flow_accumulation sample_dir) 1 0 = 1 ↔
   ∀ a, in_array sample_dir a → target sample_dir a ≠ Some (1, 0)%nat) ∧
  (∀ a, in_array sample_dir a → target sample_dir a = Some (1, 0)%nat →
     2 ≤ at2 (calculate_flow_accumulation sample_dir) 1 0).
Proof.
  apply (accumulation_one_iff_no_inflow sample_dir (1, 0)%nat).
  split; simpl; lia.
Defined.

(** X6: the propagator reports convergence only when every cell that
    has a downstream cell has been marked by the guard: the downstream
    value of each such cell is then above 1e6 and is returned as 1e6.
    A run in which a cell has a downstream cell and no value passes 1e6
    therefore ends with the warning after 50 passes. *)
Theorem convergence_only_by_saturation fd a b n :
  in_array fd a → target fd a = Some b →
  printed (accumulate fd) = [Converged n] →
  at2 (processed (final (accumulate fd))) a.1 a.2 = true ∧
  ceiling < at2 (flow_acc (final (accumulate fd))) b.1 b.2 ∧
  at2 (calculate_flow_accumulation fd) b.1 b.2 = ceiling.
Proof.
  intros Ha Ht Hprint.
  destruct (accumulate_run fd) as (p & _ & _ & Hfin & _ & Hwarn).
  destruct (changed (final (accumulate fd))) eqn:Hc.
  { destruct (Hwarn eq_refl) as [_ Hw]. congruence. }
  assert (at2 (processed (final (accumulate fd))) a.1 a.2 = true) as Hp.
  { rewrite Hfin in *.
    by apply (unflagged_pass_marks fd a b _ (after_passes_wf fd p)). }
  split; [done|].
  destruct Ha as [Ha1 Ha2]. apply target_routes in Ht as [Hr [Hb1 Hb2]].
  destruct Hr as (dr & dc & _ & Hd & H1 & H2).
  pose proof (accumulate_guard fd a.1 a.2 dr dc Ha1 Ha2 Hd Hp) as Hg.
  rewrite <- H1, <- H2, !Nat2Z.id in Hg. split; [done|].
  rewrite calculate_at by done. lia.
Qed.

Lemma convergence_only_by_saturation_witness :
  at2 (processed (final (accumulate mutual_pair))) 0 0 = true ∧
  ceiling < at2 (flow_acc (final (accumulate mutual_pair))) 0 1 ∧
  at2 (calculate_flow_accumulation mutual_pair) 0 1 = ceiling.
Proof.
  apply (convergence_only_by_saturation mutual_pair (0, 0)%nat (0, 1)%nat 16).
  - split; simpl; lia.
  - reflexivity.
  - vm_compute. reflexivity.
Defined.

(** X7: the propagator returns the field of ones exactly when no cell of
    the direction field has a downstream cell; it then makes one pass
    and reports convergence after 1 iteration. *)
Theorem accumulation_without_links fd :
  (calculate_flow_accumulation fd = np_full (nrows fd) (ncols fd) 1 ↔
   Forall (λ c, target fd c = None) (cells (nrows fd) (ncols fd))) ∧
  (Forall (λ c, target fd c = None) (cells (nrows fd) (ncols fd)) →
   passes (accumulate fd) = 1%nat ∧ printed (accumulate fd) = [Converged 1]).
Proof.
  assert (Forall (λ c, target fd c = None) (cells (nrows fd) (ncols fd)) →
          accumulate fd = mk_acc_run (acc_init fd) 1 [Converged 1]) as Hrun.
  { intros Hno.
    assert (one_pass fd (acc_init fd) = acc_init fd) as Hpass.
    { rewrite one_pass_cells. by rewrite acc_cells_no_target. }
    unfold accumulate.
    change (seq 0 max_iterations) with (0%nat :: seq 1 (max_iterations - 1)).
    rewrite accumulate_loop_stop; cbn [final passes printed]; by rewrite Hpass. }
  split; [|intros Hno; by rewrite (Hrun Hno)]. split.
  - intros Hones. apply Forall_forall. intros c Hc.
    apply elem_of_cells in Hc.
    destruct (target fd c) as [b|] eqn:Ht; [|done]. exfalso.
    pose proof (proj1 (target_routes fd c b) Ht) as [_ Hb].
    pose proof (inflow_at_least_two fd c b) as H2.
    destruct (accumulate_run fd) as (p & _ & _ & Hfin & _).
    specialize (H2 _ (after_passes_wf fd p) (after_passes_guard fd p) Hc Ht).
    rewrite <- Hfin in H2. destruct Hb as [Hb1 Hb2].
    pose proof (calculate_at fd b.1 b.2 Hb1 Hb2) as Hat.
    rewrite Hones, at2_np_full in Hat by done. unfold ceiling in Hat. lia.
  - intros Hno. unfold calculate_flow_accumulation. rewrite (Hrun Hno).
    unfold acc_init, np_clip, np_full. cbn [final flow_acc].
    by rewrite !fmap_replicate.
Qed.

(** X8: for a raster of at most 10^8 cells every value of the state the
    propagator ends in is a whole number from 1 to below 2^53, which
    binary64 holds exactly: the float64 sums of the script are exact. *)
Theorem accumulation_exact_in_binary64 fd i j :
  Z.of_nat (nrows fd * ncols fd) ≤ 100000000 →
  (i < nrows fd)%nat → (j < ncols fd)%nat →
  1 ≤ at2 (flow_acc (final (accumulate fd))) i j < 2 ^ 53.
Proof.
  intros Hsize Hi Hj. destruct (accumulate_run fd) as (p & Hp & _ & Hfin & _).
  rewrite Hfin. change (one_pass fd (after_passes fd p)) with (after_passes fd (S p)).
  apply accumulation_values_exact; [done|lia|done|done].
Qed.

Lemma accumulation_exact_in_binary64_witness :
  1 ≤ at2 (flow_acc (final (accumulate mutual_pair))) 0 1 < 2 ^ 53.
Proof.
  apply (accumulation_exact_in_binary64 mutual_pair 0 1); simpl; lia.
Defined.

(** ** More on the flow vectors *)

Lemma filter_ext_in {A} (P Q : A → Prop) `{!∀ x, Decision (P x), !∀ x, Decision (Q x)}
    (l : list A) :
  (∀ x, x ∈ l → P x ↔ Q x) → filter P l = filter Q l.
Proof.
  induction l as [|x l IH]; intros Hiff; [done|].
  rewrite !filter_cons.
  rewrite IH by (intros y Hy; apply Hiff; by apply list_elem_of_further).
  apply decide_ext, Hiff, list_elem_of_here.
Qed.

Lemma filter_sublist_impl {A} (P Q : A → Prop)
    `{!∀ x, Decision (P x), !∀ x, Decision (Q x)} (l : list A) :
  (∀ x, P x → Q x) → filter P l `sublist_of` filter Q l.
Proof.
  intros Himpl. induction l as [|x l IH]; [done|].
  rewrite !filter_cons. destruct (decide (P x)) as [HP|HP].
  - rewrite decide_True by auto. by apply sublist_skip.
  - destruct (decide (Q x)); [by apply sublist_cons|done].
Qed.

Lemma filter_all {A} (P : A → Prop) `{!∀ x, Decision (P x)} (l : list A) :
  Forall P l → filter P l = l.
Proof.
  induction 1 as [|x l HP _ IH]; [done|].
  rewrite filter_cons, decide_True by done. by rewrite IH.
Qed.

Section ExtractorGeneral.
Context {T transform : Type}.
Variable rio_xy : transform → Z → Z → T * T.
Variable tr : transform.

(** One cell appends its vector when its code is non-zero, its
    accumulation reaches the threshold and it has a downstream cell, and
    nothing otherwise. *)
Lemma extract_cell_general flow_dir flow_acc threshold (lines : list (flow_line T)) i j :
  extract_cell rio_xy tr threshold (mk_extract_store flow_dir flow_acc lines) i j
  = mk_extract_store flow_dir flow_acc
      (lines ++ if decide (emits flow_dir flow_acc threshold (i, j) = true ∧
                           is_Some (target flow_dir (i, j)))
                then [vector_of rio_xy flow_dir flow_acc tr (i, j)] else []).
Proof.
  unfold extract_cell, emits, vector_of, downstream, target.
  cbn [es_flow_dir es_flow_acc es_flow_lines fst snd].
  destruct (Z.eqb_spec (at2 flow_dir i j) 0) as [Hz|Hnz]; cbn [orb negb andb].
  { rewrite decide_False by (by intros [? ?]). by rewrite app_nil_r. }
  destruct (Z.ltb_spec (at2 flow_acc i j) threshold) as [Hlt|Hge].
  { rewrite (proj2 (Z.leb_gt _ _)) by done.
    rewrite decide_False by (by intros [? ?]). by rewrite app_nil_r. }
  rewrite (proj2 (Z.leb_le _ _)) by done.
  destruct (dict_get dir_to_offset (at2 flow_dir i j)) as [[dr dc]|].
  - destruct (in_range _ _ && in_range _ _).
    + by rewrite decide_True by (split; [done|eauto]).
    + rewrite decide_False by (by intros [_ [? ?]]). by rewrite app_nil_r.
  - rewrite decide_False by (by intros [_ [? ?]]). by rewrite app_nil_r.
Qed.

Lemma extract_cells_general flow_dir flow_acc threshold
    (l : list (nat * nat)) (lines : list (flow_line T)) :
  fold_left (λ st c, extract_cell rio_xy tr threshold st c.1 c.2) l
    (mk_extract_store flow_dir flow_acc lines)
  = mk_extract_store flow_dir flow_acc
      (lines ++ (vector_of rio_xy flow_dir flow_acc tr
                   <$> filter (λ c, emits flow_dir flow_acc threshold c = true ∧
                                    is_Some (target flow_dir c)) l)).
Proof.
  revert lines. induction l as [|[i j] l IH]; intros lines.
  - simpl. by rewrite app_nil_r.
  - cbn [fold_left fst snd]. rewrite extract_cell_general, IH. f_equal.
    rewrite filter_cons. case_decide.
    + by rewrite <- app_assoc.
    + by rewrite app_nil_r.
Qed.

Lemma extract_flow_vectors_filter flow_dir flow_acc dem_shape threshold :
  extract_flow_vectors rio_xy flow_dir flow_acc tr dem_shape threshold
  = vector_of rio_xy flow_dir flow_acc tr
      <$> filter (λ c, emits flow_dir flow_acc threshold c = true ∧
                       is_Some (target flow_dir c))
            (cells (nrows flow_dir) (ncols flow_dir)).
Proof.
  unfold extract_flow_vectors, extract_flow_vectors_run.
  rewrite (extract_rows_cells rio_xy flow_dir tr threshold) by done.
  rewrite (fold_cells (λ st i j, extract_cell rio_xy tr threshold st i j)).
  by rewrite extract_cells_general.
Qed.

(** X10: for a rectangular direction field and an accumulation field
    of the same shape, whose values and the threshold are whole numbers
    of magnitude at most 2^24 (float32 and float64 hold them exactly),
    extract_flow_vectors returns, in the order of the cells, the vectors
    of exactly the cells whose code is non-zero, whose accumulation is at
    least the threshold and which have a downstream cell; a cell whose
    code is not in the offset table or whose neighbor is outside the
    array is passed over without a vector; at most one vector per cell
    is returned. *)
Theorem extract_flow_vectors_general flow_dir flow_acc dem_shape threshold :
  rect flow_dir → has_shape flow_acc (nrows flow_dir) (ncols flow_dir) →
  float32_whole threshold →
  (∀ i j, (i < nrows flow_dir)%nat → (j < ncols flow_dir)%nat →
     float32_whole (at2 flow_acc i j)) →
  extract_flow_vectors rio_xy flow_dir flow_acc tr dem_shape threshold
  = vector_of rio_xy flow_dir flow_acc tr
      <$> filter (λ c, at2 flow_dir c.1 c.2 ≠ 0 ∧
                       threshold ≤ at2 flow_acc c.1 c.2 ∧
                       is_Some (target flow_dir c))
            (cells (nrows flow_dir) (ncols flow_dir)) ∧
  (length (extract_flow_vectors rio_xy flow_dir flow_acc tr dem_shape threshold)
   ≤ nrows flow_dir * ncols flow_dir)%nat.
Proof.
  intros _ _ _ _. rewrite extract_flow_vectors_filter. split.
  - f_equal. apply list_filter_iff. intros c. unfold emits.
    rewrite andb_true_iff, negb_true_iff, Z.eqb_neq, Z.leb_le. tauto.
  - rewrite length_fmap, <- (length_cells (nrows flow_dir) (ncols flow_dir)).
    apply length_filter.
Qed.

(** X11: raising the threshold only removes vectors: the list returned
    for the higher threshold is a sublist, in the same order, of the
    list returned for the lower one. *)
Theorem extract_threshold_monotone flow_dir flow_acc dem_shape t1 t2 :
  t1 ≤ t2 →
  extract_flow_vectors rio_xy flow_dir flow_acc tr dem_shape t2
    `sublist_of` extract_flow_vectors rio_xy flow_dir flow_acc tr dem_shape t1.
Proof.
  intros Hle. rewrite !extract_flow_vectors_filter.
  apply fmap_sublist, filter_sublist_impl. intros c [He Ht]. split; [|done].
  unfold emits in *. apply andb_true_iff in He as [Hnz Hge].
  apply andb_true_iff. split; [done|]. apply Z.leb_le in Hge. apply Z.leb_le. lia.
Qed.

(** X12: every vector returned carries one of the eight codes, an
    accumulation that reaches the threshold, and the coordinates of a
    cell of the array and of its downstream cell, which is in the array
    and one step away; no vector leaves the raster. *)
Theorem extract_vectors_stay_inside flow_dir flow_acc dem_shape threshold :
  Forall (λ fl,
            fl_direction fl ∈ [1; 2; 4; 8; 16; 32; 64; 128] ∧
            threshold ≤ fl_accumulation fl ∧
            ∃ c c', in_array flow_dir c ∧ in_array flow_dir c' ∧
              target flow_dir c = Some c' ∧
              fl_direction fl = at2 flow_dir c.1 c.2 ∧
              fl_accumulation fl = at2 flow_acc c.1 c.2 ∧
              fl_from fl = rio_xy tr (Z.of_nat c.1) (Z.of_nat c.2) ∧
              fl_to fl = rio_xy tr (Z.of_nat c'.1) (Z.of_nat c'.2) ∧
              Z.abs (Z.of_nat c'.1 - Z.of_nat c.1) ≤ 1 ∧
              Z.abs (Z.of_nat c'.2 - Z.of_nat c.2) ≤ 1)
         (extract_flow_vectors rio_xy flow_dir flow_acc tr dem_shape threshold).
Proof.
  rewrite extract_flow_vectors_filter. apply Forall_fmap, Forall_forall.
  intros c Hc. apply list_elem_of_filter in Hc as [[He [c' Ht]] Hc].
  apply elem_of_cells in Hc. unfold emits in He.
  apply andb_true_iff in He as [_ Hge]. apply Z.leb_le in Hge.
  pose proof (proj1 (target_routes flow_dir c c') Ht) as [(dr & dc & Hnz & Hd & H1 & H2) Hc'].
  destruct (dict_get_dir_to_offset _ _ _ Hd) as [Hcode Hnb].
  cbn [compose fl_direction fl_accumulation vector_of].
  split; [done|]. split; [done|]. exists c, c'.
  split_and!; [done|done|done|done|done|done| | |].
  - unfold vector_of, downstream. cbn [fl_to]. rewrite Hd. cbn [fst snd].
    by rewrite H1, H2.
  - pose proof neighbors_table as Htab. rewrite Forall_forall in Htab.
    destruct (Htab _ Hnb) as (_ & _ & _ & Hr & _). cbn [fst snd] in Hr. lia.
  - pose proof neighbors_table as Htab. rewrite Forall_forall in Htab.
    destruct (Htab _ Hnb) as (_ & _ & _ & _ & Hr). cbn [fst snd] in Hr. lia.
Qed.

(** X13: whatever the dtype of the elevation array, in the pipeline of
    the archive script, where the vectors are
    extracted from the direction field of the resolver and from its
    accumulation with a threshold of at most 1, every cell with a
    non-zero code yields its vector and no other cell does. *)
Theorem pipeline_vectors_of_directed_cells {E : Type} `{!Inhabited E, !Elevation E}
    (dem : ndarray E) dem_shape threshold :
  threshold ≤ 1 →
  extract_flow_vectors rio_xy (calculate_flow_direction_d8 dem)
    (calculate_flow_accumulation (calculate_flow_direction_d8 dem)) tr dem_shape threshold
  = vector_of rio_xy (calculate_flow_direction_d8 dem)
      (calculate_flow_accumulation (calculate_flow_direction_d8 dem)) tr
      <$> filter (λ c, at2 (calculate_flow_direction_d8 dem) c.1 c.2 ≠ 0)
            (cells (nrows dem) (ncols dem)).
Proof.
  intros Hth. rewrite extract_flow_vectors_filter. f_equal.
  rewrite d8_nrows. destruct (decide (nrows dem = 0)%nat) as [->|Hrows]; [done|].
  rewrite d8_ncols by lia. apply filter_ext_in. intros c Hc.
  apply elem_of_cells in Hc as [Hc1 Hc2]. unfold emits.
  rewrite andb_true_iff, negb_true_iff, Z.eqb_neq, Z.leb_le. split; [tauto|].
  intros Hnz. split_and!; [done| |].
  - set (fd := calculate_flow_direction_d8 dem) in *.
    assert (c.1 < nrows fd)%nat as Hc1' by (unfold fd; by rewrite d8_nrows).
    assert (c.2 < ncols fd)%nat as Hc2' by (unfold fd; rewrite d8_ncols; lia).
    rewrite calculate_at by done.
    destruct (accumulate_wf fd) as (_ & _ & Hge).
    pose proof (Hge c.1 c.2 Hc1' Hc2'). unfold ceiling. lia.
  - destruct (d8_cell_routed dem c.1 c.2 Hc1 Hc2 Hnz) as (dr & dc & Hd & Hr1 & Hr2).
    unfold target. destruct (Z.eqb_spec (at2 (calculate_flow_direction_d8 dem) c.1 c.2) 0);
      [done|].
    rewrite Hd, Hr1, Hr2. cbn [andb]. eauto.
Qed.
End ExtractorGeneral.

Lemma extract_flow_vectors_general_witness :
  extract_flow_vectors unit_xy sample_dir sample_acc (0, 0) (2, 3)%nat 2
  = vector_of unit_xy sample_dir sample_acc (0, 0)
      <$> filter (λ c, at2 sample_dir c.1 c.2 ≠ 0 ∧
                       2 ≤ at2 sample_acc c.1 c.2 ∧
                       is_Some (target sample_dir c))
            (cells (nrows sample_dir) (ncols sample_dir)) ∧
  (length (extract_flow_vectors unit_xy sample_dir sample_acc (0, 0)%Z (2, 3) 2%Z)
   ≤ nrows sample_dir * ncols sample_dir)%nat.
Proof.
  apply (extract_flow_vectors_general unit_xy (0, 0) sample_dir sample_acc (2, 3)%nat 2).
  - unfold rect. simpl. repeat constructor.
  - split; [reflexivity|]. simpl. repeat constructor.
  - vm_compute. discriminate.
  - intros i j Hi Hj. simpl in Hi, Hj. unfold float32_whole.
    assert (i = 0 ∨ i = 1)%nat as [-> | ->] by lia;
      (assert (j = 0 ∨ j = 1 ∨ j = 2)%nat as [-> | [-> | ->]] by lia);
      vm_compute; discriminate.
Defined.

Lemma extract_threshold_monotone_witness :
  extract_flow_vectors unit_xy sample_dir sample_acc (0, 0) (2, 3)%nat 5
    `sublist_of` extract_flow_vectors unit_xy sample_dir sample_acc (0, 0) (2, 3)%nat 2.
Proof.
  apply (extract_threshold_monotone unit_xy (0, 0) sample_dir sample_acc (2, 3)%nat 2 5).
  lia.
Defined.

Lemma pipeline_vectors_of_directed_cells_witness :
  extract_flow_vectors unit_xy (calculate_flow_direction_d8 slope_5x5)
    (calculate_flow_accumulation (calculate_flow_direction_d8 slope_5x5)) (0, 0)
    (5, 5)%nat 1
  = vector_of unit_xy (calculate_flow_direction_d8 slope_5x5)
      (calculate_flow_accumulation (calculate_flow_direction_d8 slope_5x5)) (0, 0)
      <$> filter (λ c, at2 (calculate_flow_direction_d8 slope_5x5) c.1 c.2 ≠ 0)
            (cells (nrows slope_5x5) (ncols slope_5x5)).
Proof.
  apply (pipeline_vectors_of_directed_cells unit_xy (0, 0) slope_5x5 (5, 5)%nat 1).
  lia.
Defined.

(** ** The start points *)

Lemma py_range0_pos n spacing :
  0 < spacing → py_range0 n spacing = Some (grid_line n spacing).
Proof.
  intros Hs. unfold py_range0, grid_line.
  destruct (Z.eqb_spec spacing 0); [lia|]. destruct (Z.ltb_spec spacing 0); [lia|done].
Qed.

(** The sampled rows and columns are the multiples of the spacing inside
    the array. *)
Lemma elem_of_grid_line n spacing i :
  0 < spacing → i ∈ grid_line n spacing ↔ (i < n)%nat ∧ (spacing | Z.of_nat i).
Proof.
  intros Hs. unfold grid_line. set (s := Z.to_nat spacing).
  assert (0 < s)%nat as Hpos by lia.
  assert (Z.of_nat s = spacing) as Hsz by lia.
  rewrite list_elem_of_fmap. split.
  - intros (k & -> & Hk). apply elem_of_seq in Hk.
    assert (s * ((n + s - 1) / s) ≤ n + s - 1)%nat as Hdiv by apply Nat.Div0.mul_div_le.
    split; [nia|]. exists (Z.of_nat k). lia.
  - intros [Hi [q Hq]]. assert (0 ≤ q) as Hq0 by nia.
    exists (Z.to_nat q). split; [nia|].
    apply elem_of_seq. split; [lia|]. cbn [Nat.add].
    apply Nat.div_le_lower_bound; [lia|]. nia.
Qed.

Lemma length_grid_cells rows cols spacing :
  length (grid_cells rows cols spacing)
  = (length (grid_line rows spacing) * length (grid_line cols spacing))%nat.
Proof.
  unfold grid_cells. induction (grid_line rows spacing) as [|i l IH]; [done|].
  rewrite bind_cons, length_app, length_fmap, IH. simpl. lia.
Qed.

Lemma elem_of_grid_cells rows cols spacing c :
  0 < spacing →
  c ∈ grid_cells rows cols spacing ↔
  (c.1 < rows)%nat ∧ (c.2 < cols)%nat ∧
  (spacing | Z.of_nat c.1) ∧ (spacing | Z.of_nat c.2).
Proof.
  intros Hs. unfold grid_cells. rewrite list_elem_of_bind. split.
  - intros (i & Hc & Hi). apply list_elem_of_fmap in Hc as (j & -> & Hj).
    apply elem_of_grid_line in Hi as [? ?]; [|done].
    apply elem_of_grid_line in Hj as [? ?]; [|done]. done.
  - intros (H1 & H2 & H3 & H4). destruct c as [i j]. exists i. split.
    + apply list_elem_of_fmap. exists j. split; [done|]. by apply elem_of_grid_line.
    + by apply elem_of_grid_line.
Qed.

Section StartPointProperties.
Context {T transform : Type}.
Variable rio_xy : transform → Z → Z → T * T.
Variable tr : transform.

Lemma start_cells_row flow_acc m i (js : list nat) (pts : list (start_point T)) :
  fold_left (λ pts j, start_cell rio_xy flow_acc tr m pts i j) js pts
  = pts ++
    ((λ c : nat * nat,
        mk_start_point (rio_xy tr (Z.of_nat c.1) (Z.of_nat c.2)) (at2 flow_acc c.1 c.2))
       <$> filter (λ c : nat * nat, Qle_bool m (inject_Z (at2 flow_acc c.1 c.2)) = true)
             ((λ j, (i, j)) <$> js)).
Proof.
  revert pts. induction js as [|j js IH]; intros pts; [by rewrite app_nil_r|].
  cbn [fold_left]. rewrite IH. unfold start_cell. rewrite fmap_cons, filter_cons.
  cbn [fst snd]. destruct (Qle_bool m (inject_Z (at2 flow_acc i j))) eqn:E.
  - rewrite decide_True by done. rewrite fmap_cons. by rewrite <- app_assoc.
  - by rewrite decide_False by (by intros ?).
Qed.

Lemma start_cells_grid flow_acc m (rs js : list nat) (pts : list (start_point T)) :
  fold_left
    (λ pts i, fold_left (λ pts j, start_cell rio_xy flow_acc tr m pts i j) js pts) rs pts
  = pts ++
    ((λ c : nat * nat,
        mk_start_point (rio_xy tr (Z.of_nat c.1) (Z.of_nat c.2)) (at2 flow_acc c.1 c.2))
       <$> filter (λ c : nat * nat, Qle_bool m (inject_Z (at2 flow_acc c.1 c.2)) = true)
             (i ← rs; (λ j, (i, j)) <$> js)).
Proof.
  revert pts. induction rs as [|i rs IH]; intros pts; [by rewrite app_nil_r|].
  cbn [fold_left]. rewrite IH, start_cells_row.
  rewrite bind_cons, filter_app, fmap_app. by rewrite app_assoc.
Qed.

(** For a positive spacing the loops visit the cells of the grid. *)
Lemma create_flow_start_points_grid flow_acc spacing m :
  0 < spacing →
  create_flow_start_points rio_xy flow_acc tr spacing m
  = Some ((λ c : nat * nat,
             mk_start_point (rio_xy tr (Z.of_nat c.1) (Z.of_nat c.2))
               (at2 flow_acc c.1 c.2))
            <$> filter (λ c : nat * nat,
                          Qle_bool m (inject_Z (at2 flow_acc c.1 c.2)) = true)
                  (grid_cells (nrows flow_acc) (ncols flow_acc) spacing)).
Proof.
  intros Hs. unfold create_flow_start_points. rewrite !py_range0_pos by done.
  cbn [mbind option_bind]. by rewrite start_cells_grid.
Qed.

(** X14: for a rectangular accumulation field of whole numbers of
    magnitude at most 2^24 and a min_accumulation that float32 holds
    exactly (the scripts pass 0.5 and 1; numpy compares in the dtype of
    the array, float32 or float64, which hold such values as they are),
    create_flow_start_points raises for a spacing of 0 (the step of a
    range), returns no point for a negative spacing, and for a positive
    spacing returns the points of exactly the cells whose row and column
    are multiples of the spacing and whose accumulation is at least
    min_accumulation, each with the coordinates of its cell and its
    accumulation as weight. *)
Theorem start_points_on_grid flow_acc spacing m :
  rect flow_acc → float32_holds m →
  (∀ i j, (i < nrows flow_acc)%nat → (j < ncols flow_acc)%nat →
     float32_whole (at2 flow_acc i j)) →
  (spacing = 0 → create_flow_start_points rio_xy flow_acc tr spacing m = None) ∧
  (spacing < 0 → create_flow_start_points rio_xy flow_acc tr spacing m = Some []) ∧
  (0 < spacing →
   ∃ pts, create_flow_start_points rio_xy flow_acc tr spacing m = Some pts ∧
     ∀ p, p ∈ pts ↔
       ∃ i j, (i < nrows flow_acc)%nat ∧ (j < ncols flow_acc)%nat ∧
         (spacing | Z.of_nat i) ∧ (spacing | Z.of_nat j) ∧
         Qle m (inject_Z (at2 flow_acc i j)) ∧
         p = mk_start_point (rio_xy tr (Z.of_nat i) (Z.of_nat j)) (at2 flow_acc i j)).
Proof.
  intros _ _ _. split_and!.
  - intros ->. reflexivity.
  - intros Hs. unfold create_flow_start_points, py_range0.
    destruct (Z.eqb_spec spacing 0); [lia|]. destruct (Z.ltb_spec spacing 0); [done|lia].
  - intros Hs. rewrite create_flow_start_points_grid by done.
    eexists. split; [done|]. intros p. rewrite list_elem_of_fmap. split.
    + intros ([i j] & -> & Hc). apply list_elem_of_filter in Hc as [Hk Hc].
      apply elem_of_grid_cells in Hc as (H1 & H2 & H3 & H4); [|done].
      apply Qle_bool_iff in Hk. exists i, j. done.
    + intros (i & j & H1 & H2 & H3 & H4 & Hk & ->). exists (i, j). split; [done|].
      apply list_elem_of_filter. split; [by apply Qle_bool_iff|].
      by apply elem_of_grid_cells.
Qed.

(** X15: on the accumulation the propagator returns, and with a
    min_accumulation of at most 1 (main passes 0.5), no cell of the
    grid is left out: there is one start point for every cell whose row
    and column are multiples of the spacing, in the order of the rows,
    ceil(rows / spacing) * ceil(cols / spacing) points in all, each with
    a weight from 1 to 1e6. *)
Theorem start_points_cover_grid fd spacing m :
  0 < spacing → Qle m 1 →
  ∃ pts,
    create_flow_start_points rio_xy (calculate_flow_accumulation fd) tr spacing m
      = Some pts ∧
    pts = (λ c : nat * nat,
             mk_start_point (rio_xy tr (Z.of_nat c.1) (Z.of_nat c.2))
               (at2 (calculate_flow_accumulation fd) c.1 c.2))
            <$> grid_cells (nrows fd) (ncols fd) spacing ∧
    length pts
      = (((nrows fd + Z.to_nat spacing - 1) / Z.to_nat spacing)
         * ((ncols fd + Z.to_nat spacing - 1) / Z.to_nat spacing))%nat ∧
    Forall (λ p, 1 ≤ sp_weight p ≤ ceiling) pts.
Proof.
  intros Hs Hm. rewrite create_flow_start_points_grid by done.
  rewrite calculate_nrows, calculate_ncols.
  assert (∀ c, c ∈ grid_cells (nrows fd) (ncols fd) spacing →
            1 ≤ at2 (calculate_flow_accumulation fd) c.1 c.2 ≤ ceiling) as Hbounds.
  { intros c Hc. apply elem_of_grid_cells in Hc as (H1 & H2 & _); [|done].
    rewrite calculate_at by done. destruct (accumulate_wf fd) as (_ & _ & Hge).
    pose proof (Hge c.1 c.2 H1 H2). unfold ceiling. lia. }
  rewrite filter_all.
  2: { apply Forall_forall. intros c Hc. apply Qle_bool_iff.
       apply (Qle_trans _ 1); [done|]. rewrite <- (Zle_Qle 1). by apply Hbounds. }
  eexists. split; [done|]. split; [done|]. split.
  - rewrite length_fmap, length_grid_cells. unfold grid_line.
    by rewrite !length_fmap, !length_seq.
  - apply Forall_fmap, Forall_forall. intros c Hc. cbn [compose sp_weight].
    by apply Hbounds.
Qed.
End StartPointProperties.

Lemma start_points_on_grid_witness :
  (2 = 0 → create_flow_start_points unit_xy sample_acc (0, 0) 2 (1 # 2) = None) ∧
  (2 < 0 → create_flow_start_points unit_xy sample_acc (0, 0) 2 (1 # 2) = Some []) ∧
  (0 < 2 →
   ∃ pts, create_flow_start_points unit_xy sample_acc (0, 0) 2 (1 # 2) = Some pts ∧
     ∀ p, p ∈ pts ↔
       ∃ i j, (i < nrows sample_acc)%nat ∧ (j < ncols sample_acc)%nat ∧
         (2 | Z.of_nat i) ∧ (2 | Z.of_nat j) ∧
         Qle (1 # 2) (inject_Z (at2 sample_acc i j)) ∧
         p = mk_start_point (unit_xy (0, 0) (Z.of_nat i) (Z.of_nat j)) (at2 sample_acc i j)).
Proof.
  apply (start_points_on_grid unit_xy (0, 0) sample_acc 2 (1 # 2)).
  - unfold rect. simpl. repeat constructor.
  - exists 1, (-1). split; [simpl; lia|]. split; [lia|reflexivity].
  - intros i j Hi Hj. simpl in Hi, Hj. unfold float32_whole.
    assert (i = 0 ∨ i = 1)%nat as [-> | ->] by lia;
      (assert (j = 0 ∨ j = 1 ∨ j = 2)%nat as [-> | [-> | ->]] by lia);
      vm_compute; discriminate.
Defined.

Lemma start_points_cover_grid_witness :
  ∃ pts,
    create_flow_start_points unit_xy (calculate_flow_accumulation sample_dir) (0, 0) 2
      (1 # 2) = Some pts ∧
    pts = (λ c : nat * nat,
             mk_start_point (unit_xy (0, 0) (Z.of_nat c.1) (Z.of_nat c.2))
               (at2 (calculate_flow_accumulation sample_dir) c.1 c.2))
            <$> grid_cells (nrows sample_dir) (ncols sample_dir) 2 ∧
    length pts
      = (((nrows sample_dir + Z.to_nat 2 - 1) / Z.to_nat 2)
         * ((ncols sample_dir + Z.to_nat 2 - 1) / Z.to_nat 2))%nat ∧
    Forall (λ p, 1 ≤ sp_weight p ≤ ceiling) pts.
Proof.
  apply (start_points_cover_grid unit_xy (0, 0) sample_dir 2 (1 # 2)).
  - lia.
  - unfold Qle. simpl. lia.
Defined.

(** ** More on the sampling *)

Lemma np_linspace_int_length start stop num idx :
  np_linspace_int start stop num = Some idx →
  0 ≤ num ∧ length idx = Z.to_nat num.
Proof.
  unfold np_linspace_int. destruct (Z.ltb_spec num 0) as [|Hnum]; [done|].
  cbv zeta. intros [= <-]. split; [done|].
  destruct (0 <? num - 1); [destruct (PrimFloat.eqb _ _)|];
    destruct (1 <? num);
    rewrite ?length_fmap, ?length_insert, ?length_fmap, ?length_seq; done.
Qed.

Lemma py_index_elem_of {A} (items : list A) i x :
  py_index items i = Some x → x ∈ items.
Proof.
  unfold py_index. destruct (_ && _).
  - apply list_elem_of_lookup_2.
  - destruct (_ && _); [apply list_elem_of_lookup_2|done].
Qed.

(** X16: whenever sample_evenly returns a list, max_count is not
    negative, the list has min(len(items), max_count) items, and each of
    them is an item of the input; a negative max_count raises. *)
Theorem sample_evenly_result_shape {A} (items out : list A) (max_count : Z) :
  sample_evenly items max_count = Some out →
  0 ≤ max_count ∧
  Z.of_nat (length out) = Z.min (Z.of_nat (length items)) max_count ∧
  Forall (λ x, x ∈ items) out.
Proof.
  unfold sample_evenly. destruct (Z.leb_spec (Z.of_nat (length items)) max_count) as [Hle|Hgt].
  - intros [= <-]. split_and!; [lia|lia|]. by apply Forall_forall.
  - destruct (np_linspace_int 0 (Z.of_nat (length items) - 1) max_count) as [idx|] eqn:Hidx;
      [|done].
    cbn [mbind option_bind]. intros Hm. apply mapM_Some in Hm.
    destruct (np_linspace_int_length _ _ _ _ Hidx) as [Hnum Hlen].
    pose proof (Forall2_length _ _ _ Hm) as Hl2.
    split_and!; [done|lia|].
    eapply Forall2_Forall_r; [exact Hm|]. apply Forall_forall.
    intros i _ x. apply py_index_elem_of.
Qed.

Lemma sample_evenly_result_shape_witness :
  0 ≤ 4 ∧
  Z.of_nat (length [0; 3; 6; 10]) = Z.min (Z.of_nat (length items_11)) 4 ∧
  Forall (λ x, x ∈ items_11) [0; 3; 6; 10].
Proof.
  apply (sample_evenly_result_shape items_11 [0; 3; 6; 10] 4). reflexivity.
Defined.

(** ** The accumulation of scripts/process_dem_flow.py *)

Lemma scripts_acc_cell_elsewhere fd st c b :
  target fd c ≠ Some b →
  at2 (Scripts.flow_acc (Scripts.acc_cell fd st c.1 c.2)) b.1 b.2
  = at2 (Scripts.flow_acc st) b.1 b.2.
Proof.
  unfold target, Scripts.acc_cell. destruct c as [i j], b as [i' j']; cbn [fst snd].
  destruct (Z.eqb_spec (at2 fd i j) 0) as [|Hne]; [done|].
  destruct (dict_get dir_to_offset (at2 fd i j)) as [[dr dc]|]; [|done].
  destruct (in_range _ _ && in_range _ _); [|done]. intros Hb.
  assert (∀ v, at2 (set2 (Scripts.flow_acc st) (Z.to_nat (Z.of_nat i + dr))
                      (Z.to_nat (Z.of_nat j + dc)) v) i' j'
               = at2 (Scripts.flow_acc st) i' j') as Heq.
  { intros v. apply at2_set2_ne. congruence. }
  destruct (negb _); cbn [Scripts.flow_acc]; apply Heq.
Qed.

Lemma scripts_one_pass_cells fd acc :
  Scripts.one_pass fd acc
  = fold_left (λ st c, Scripts.acc_cell fd st c.1 c.2) (cells (nrows fd) (ncols fd))
      (Scripts.mk_acc_state acc false).
Proof.
  unfold Scripts.one_pass, Scripts.acc_row.
  apply (fold_cells (λ st i j, Scripts.acc_cell fd st i j)).
Qed.

Lemma scripts_acc_cells_elsewhere fd (l : list (nat * nat)) st b :
  Forall (λ c, target fd c ≠ Some b) l →
  at2 (Scripts.flow_acc (fold_left (λ st c, Scripts.acc_cell fd st c.1 c.2) l st)) b.1 b.2
  = at2 (Scripts.flow_acc st) b.1 b.2.
Proof.
  revert st. induction l as [|c l IH]; intros st Hall; [done|].
  apply Forall_cons in Hall as [Hc Hall]. cbn [fold_left].
  rewrite IH by done. by apply scripts_acc_cell_elsewhere.
Qed.

Lemma scripts_loop_elsewhere fd b n : ∀ acc,
  (∀ a, in_array fd a → target fd a ≠ Some b) →
  at2 (Scripts.accumulate_loop fd n acc) b.1 b.2 = at2 acc b.1 b.2.
Proof.
  induction n as [|n IH]; intros acc Hno; [done|].
  cbn [Scripts.accumulate_loop].
  assert (at2 (Scripts.flow_acc (Scripts.one_pass fd acc)) b.1 b.2 = at2 acc b.1 b.2) as Hpass.
  { rewrite scripts_one_pass_cells, scripts_acc_cells_elsewhere; [done|].
    eapply Forall_impl; [apply cells_in_array|]. intros a Ha. by apply Hno. }
  destruct (negb _); [done|]. by rewrite IH.
Qed.

Lemma scripts_acc_cells_no_target fd (l : list (nat * nat)) st :
  Forall (λ c, target fd c = None) l →
  fold_left (λ st c, Scripts.acc_cell fd st c.1 c.2) l st = st.
Proof.
  revert st. induction l as [|[i j] l IH]; intros st Hall; [done|].
  apply Forall_cons in Hall as [Hc Hall]. cbn [fold_left fst snd].
  rewrite <- (IH st Hall) at 2. f_equal.
  unfold target in Hc. unfold Scripts.acc_cell. cbn [fst snd] in Hc.
  destruct (Z.eqb_spec (at2 fd i j) 0) as [|Hne]; [done|].
  destruct (dict_get dir_to_offset (at2 fd i j)) as [[dr dc]|]; [|done].
  by destruct (in_range _ _ && in_range _ _).
Qed.

(** X19: the propagator of the scripts directory, which accumulates in
    float32 without guard and without clamp, returns exactly 1.0 for
    every cell that no cell of the array has as its downstream cell, and
    the field of ones when no cell has a downstream cell at all. *)
Theorem scripts_source_cells_keep_one fd :
  (∀ b, in_array fd b → (∀ a, in_array fd a → target fd a ≠ Some b) →
     at2 (Scripts.calculate_flow_accumulation fd) b.1 b.2 = Scripts.f32_one) ∧
  (Forall (λ c, target fd c = None) (cells (nrows fd) (ncols fd)) →
   Scripts.calculate_flow_accumulation fd
   = np_full (nrows fd) (ncols fd) Scripts.f32_one).
Proof.
  unfold Scripts.calculate_flow_accumulation. split.
  - intros b [Hb1 Hb2] Hno. rewrite scripts_loop_elsewhere by done.
    by apply at2_np_full.
  - intros Hno. change 100%nat with (S 99). cbn [Scripts.accumulate_loop].
    rewrite scripts_one_pass_cells, scripts_acc_cells_no_target by done. done.
Qed.

(** *** float32 sums of values without a minus sign *)

Lemma shr_1_nonneg mrs : 0 ≤ shr_m mrs → 0 ≤ shr_m (shr_1 mrs).
Proof. destruct mrs as [m r s]. cbn [shr_m]. destruct m as [|[p|p|]|p]; cbn; lia. Qed.

Lemma iter_pos_shr_nonneg p : ∀ mrs,
  0 ≤ shr_m mrs → 0 ≤ shr_m (SpecFloat.iter_pos shr_1 p mrs).
Proof.
  induction p as [p IH|p IH|]; intros mrs Hm; cbn [SpecFloat.iter_pos];
    auto using shr_1_nonneg.
Qed.

Lemma shr_fexp_nonneg prec emax m e l :
  0 ≤ m → 0 ≤ shr_m (shr_fexp prec emax m e l).1.
Proof.
  intros Hm. unfold shr_fexp, shr.
  assert (0 ≤ shr_m (shr_record_of_loc m l)) as Hrec by (by destruct l as [|[]]).
  destruct (fexp prec emax (Zdigits2 m + e) - e); cbn [fst];
    auto using iter_pos_shr_nonneg.
Qed.

Lemma round_nearest_even_nonneg m l : 0 ≤ m → 0 ≤ round_nearest_even m l.
Proof.
  intros Hm. unfold round_nearest_even.
  destruct l as [|[]]; try destruct (Z.even m); lia.
Qed.

Lemma binary_round_aux_nonneg prec emax m e l :
  0 ≤ m → f32_nonneg (binary_round_aux prec emax false m e l) = true.
Proof.
  intros Hm. unfold binary_round_aux.
  pose proof (shr_fexp_nonneg prec emax m e l Hm) as H1.
  destruct (shr_fexp prec emax m e l) as [mrs' e']. cbn [fst] in H1.
  pose proof (shr_fexp_nonneg prec emax _ e' loc_Exact
                (round_nearest_even_nonneg _ (loc_of_shr_record mrs') H1)) as H2.
  destruct (shr_fexp prec emax _ e' loc_Exact) as [mrs'' e'']. cbn [fst] in H2.
  destruct (shr_m mrs''); [done| |lia]. by destruct (_ <=? _).
Qed.

(** The float32 sum of two values without a minus sign is a number
    without a minus sign: never NaN, never negative. *)
Lemma f32_add_nonneg x y :
  f32_nonneg x = true → f32_nonneg y = true →
  f32_nonneg (Scripts.f32_add x y) = true.
Proof.
  unfold Scripts.f32_add.
  destruct x as [[]|[]| |[] mx ex], y as [[]|[]| |[] my ey]; try done.
  intros _ _. unfold SFadd, binary_normalize, binary_round. cbn [cond_Zopp].
  destruct (shl_align mx ex _) as [m1 e1], (shl_align my ey _) as [m2 e2].
  cbn [fst]. change (Z.pos m1 + Z.pos m2) with (Z.pos (m1 + m2)). cbv iota.
  destruct (shl_align _ _ _) as [mz ez]. by apply binary_round_aux_nonneg.
Qed.

Lemma at2_Forall {V} `{!Inhabited V} (P : V → Prop) (a : ndarray V) i j :
  Forall (Forall P) a → P inhabitant → P (at2 a i j).
Proof.
  intros Ha Hd. unfold at2. rewrite (list_lookup_total_alt a i).
  destruct (a !! i) as [r|] eqn:Hr; cbn [default from_option].
  - pose proof (proj1 (Forall_lookup _ _) Ha i r Hr) as Hrow.
    rewrite (list_lookup_total_alt r j).
    destruct (r !! j) as [v|] eqn:Hv; cbn [default from_option]; [|done].
    apply (proj1 (Forall_lookup _ _) Hrow j v Hv).
  - by rewrite (list_lookup_total_alt _ j).
Qed.

Lemma set2_Forall {V} (P : V → Prop) (a : ndarray V) i j v :
  Forall (Forall P) a → P v → Forall (Forall P) (set2 a i j v).
Proof.
  intros Ha Hv. unfold set2. apply Forall_alter; [done|].
  intros r _ Hr. by apply Forall_insert.
Qed.

Lemma scripts_acc_cell_inv fd st rows cols i j :
  Forall (Forall (λ v, f32_nonneg v = true)) (Scripts.flow_acc st) →
  has_shape (Scripts.flow_acc st) rows cols →
  Forall (Forall (λ v, f32_nonneg v = true))
    (Scripts.flow_acc (Scripts.acc_cell fd st i j)) ∧
  has_shape (Scripts.flow_acc (Scripts.acc_cell fd st i j)) rows cols.
Proof.
  intros Hall Hs. unfold Scripts.acc_cell.
  destruct (at2 fd i j =? 0); [done|].
  destruct (dict_get dir_to_offset (at2 fd i j)) as [[dr dc]|]; [|done].
  destruct (in_range _ _ && in_range _ _); [|done].
  assert (Forall (Forall (λ v, f32_nonneg v = true))
            (set2 (Scripts.flow_acc st) (Z.to_nat (Z.of_nat i + dr))
               (Z.to_nat (Z.of_nat j + dc))
               (Scripts.f32_add
                  (at2 (Scripts.flow_acc st) (Z.to_nat (Z.of_nat i + dr))
                     (Z.to_nat (Z.of_nat j + dc)))
                  (at2 (Scripts.flow_acc st) i j)))) as Hnew.
  { apply set2_Forall; [done|].
    apply f32_add_nonneg;
      by apply (at2_Forall (λ v, f32_nonneg v = true)). }
  destruct (negb _); cbn [Scripts.flow_acc]; (split; [done|by apply has_shape_set2]).
Qed.

Lemma scripts_acc_cells_inv fd rows cols (l : list (nat * nat)) st :
  Forall (Forall (λ v, f32_nonneg v = true)) (Scripts.flow_acc st) →
  has_shape (Scripts.flow_acc st) rows cols →
  Forall (Forall (λ v, f32_nonneg v = true))
    (Scripts.flow_acc (fold_left (λ st c, Scripts.acc_cell fd st c.1 c.2) l st)) ∧
  has_shape (Scripts.flow_acc (fold_left (λ st c, Scripts.acc_cell fd st c.1 c.2) l st))
    rows cols.
Proof.
  revert st. induction l as [|c l IH]; intros st Hall Hs; [done|].
  cbn [fold_left].
  destruct (scripts_acc_cell_inv fd st rows cols c.1 c.2 Hall Hs) as [H1 H2].
  by apply IH.
Qed.

Lemma scripts_loop_inv fd rows cols n : ∀ acc,
  Forall (Forall (λ v, f32_nonneg v = true)) acc → has_shape acc rows cols →
  Forall (Forall (λ v, f32_nonneg v = true)) (Scripts.accumulate_loop fd n acc) ∧
  has_shape (Scripts.accumulate_loop fd n acc) rows cols.
Proof.
  induction n as [|n IH]; intros acc Hall Hs; [done|].
  cbn [Scripts.accumulate_loop].
  assert (Forall (Forall (λ v, f32_nonneg v = true))
            (Scripts.flow_acc (Scripts.one_pass fd acc)) ∧
          has_shape (Scripts.flow_acc (Scripts.one_pass fd acc)) rows cols) as [H1 H2].
  { rewrite scripts_one_pass_cells. by apply scripts_acc_cells_inv. }
  destruct (negb _); [done|]. by apply IH.
Qed.

(** X20: the field the propagator of the scripts directory returns has
    the shape of the direction field, and none of its float32 values is
    NaN or carries a minus sign, whatever the codes of the direction
    field are: the NaN test of create_flow_start_points never rejects a
    cell of it. *)
Theorem scripts_accumulation_never_nan fd :
  has_shape (Scripts.calculate_flow_accumulation fd) (nrows fd) (ncols fd) ∧
  Forall (Forall (λ v, f32_nonneg v = true)) (Scripts.calculate_flow_accumulation fd) ∧
  ∀ i j, at2 (Scripts.calculate_flow_accumulation fd) i j ≠ S754_nan.
Proof.
  unfold Scripts.calculate_flow_accumulation.
  destruct (scripts_loop_inv fd (nrows fd) (ncols fd) 100
              (np_full (nrows fd) (ncols fd) Scripts.f32_one)) as [Hall Hs].
  { unfold np_full. apply Forall_replicate, Forall_replicate. reflexivity. }
  { apply has_shape_np_full. }
  split; [done|]. split; [done|]. intros i j Hnan.
  pose proof (at2_Forall (λ v, f32_nonneg v = true) _ i j Hall eq_refl) as Hv.
  by rewrite Hnan in Hv.
Qed.

(** ** The filling of the no-data cells *)

Lemma has_shape_np_where {V} (mask : ndarray bool) (x y : ndarray V) rows cols :
  has_shape mask rows cols → has_shape x rows cols → has_shape y rows cols →
  has_shape (np_where mask x y) rows cols.
Proof.
  intros [Hm1 Hm2] [Hx1 Hx2] [Hy1 Hy2]. unfold np_where. split.
  - rewrite !length_zip_with. lia.
  - apply Forall_lookup. intros i r Hr.
    apply lookup_zip_with_Some in Hr as (m & xy & -> & Hm & Hxy).
    apply lookup_zip_with_Some in Hxy as (xr & yr & -> & Hxr & Hyr).
    cbn [fst snd]. rewrite !length_zip_with.
    rewrite (proj1 (Forall_lookup _ _) Hm2 i m Hm).
    rewrite (proj1 (Forall_lookup _ _) Hx2 i xr Hxr).
    rewrite (proj1 (Forall_lookup _ _) Hy2 i yr Hyr). lia.
Qed.

Lemma at2_np_where {V} `{!Inhabited V} (mask : ndarray bool) (x y : ndarray V)
    rows cols i j :
  has_shape mask rows cols → has_shape x rows cols → has_shape y rows cols →
  (i < rows)%nat → (j < cols)%nat →
  at2 (np_where mask x y) i j = if at2 mask i j then at2 x i j else at2 y i j.
Proof.
  intros [Hm1 Hm2] [Hx1 Hx2] [Hy1 Hy2] Hi Hj.
  destruct (lookup_lt_is_Some_2 mask i) as [mr Hmr]; [lia|].
  destruct (lookup_lt_is_Some_2 x i) as [xr Hxr]; [lia|].
  destruct (lookup_lt_is_Some_2 y i) as [yr Hyr]; [lia|].
  pose proof (proj1 (Forall_lookup _ _) Hm2 i mr Hmr) as Hml.
  pose proof (proj1 (Forall_lookup _ _) Hx2 i xr Hxr) as Hxl.
  pose proof (proj1 (Forall_lookup _ _) Hy2 i yr Hyr) as Hyl.
  cbv beta in Hml, Hxl, Hyl.
  destruct (lookup_lt_is_Some_2 mr j) as [mv Hmv]; [lia|].
  destruct (lookup_lt_is_Some_2 xr j) as [xv Hxv]; [lia|].
  destruct (lookup_lt_is_Some_2 yr j) as [yv Hyv]; [lia|].
  unfold at2, np_where. rewrite !list_lookup_total_alt.
  rewrite !lookup_zip_with, Hmr, Hxr, Hyr.
  cbn [mbind option_bind default from_option fst snd id].
  rewrite !lookup_zip_with, Hmv, Hxv, Hyv. done.
Qed.

Lemma mask_none_at (mask : ndarray bool) rows cols i j :
  has_shape mask rows cols → (i < rows)%nat → (j < cols)%nat →
  existsb (existsb id) mask = false → at2 mask i j = false.
Proof.
  intros [Hm1 Hm2] Hi Hj Hex.
  destruct (lookup_lt_is_Some_2 mask i) as [mr Hmr]; [lia|].
  pose proof (proj1 (Forall_lookup _ _) Hm2 i mr Hmr) as Hml. cbv beta in Hml.
  destruct (lookup_lt_is_Some_2 mr j) as [mv Hmv]; [lia|].
  unfold at2.
  rewrite (list_lookup_total_correct _ _ _ Hmr), (list_lookup_total_correct _ _ _ Hmv).
  destruct mv; [|done].
  assert (existsb (existsb id) mask = true) as Ht; [|congruence].
  apply existsb_exists. exists mr.
  split; [apply list_elem_of_In; by eapply list_elem_of_lookup_2|].
  apply existsb_exists. exists true.
  split; [apply list_elem_of_In; by eapply list_elem_of_lookup_2|done].
Qed.

Section Filling.
Context {E : Type} `{!Inhabited E, !Elevation E}.
Implicit Types dem : ndarray E.

(** The code of a cell depends on the elevations of its 3 x 3 window
    only. *)
Lemma scan_neighbors_window dem1 dem2 i j (nbs : list (Z * Z * Z)) :
  nrows dem1 = nrows dem2 → ncols dem1 = ncols dem2 →
  (1 ≤ i)%nat → (1 ≤ j)%nat →
  (∀ i' j', (i - 1 ≤ i' ≤ i + 1)%nat → (j - 1 ≤ j' ≤ j + 1)%nat →
     at2 dem1 i' j' = at2 dem2 i' j') →
  Forall (λ nb : Z * Z * Z, -1 ≤ nb.1.1 ≤ 1 ∧ -1 ≤ nb.1.2 ≤ 1) nbs →
  scan_neighbors dem1 i j nbs = scan_neighbors dem2 i j nbs.
Proof.
  intros Hr Hc Hi Hj Heq Hnbs. unfold scan_neighbors.
  generalize (neg_infinity, 0). induction Hnbs as [|[[dr dc] code] nbs Hnb _ IH];
    intros best; [done|].
  cbn [fold_left]. rewrite <- IH. f_equal.
  unfold scan_neighbor. destruct best as [mx c]. cbn [fst snd] in Hnb.
  rewrite Hr, Hc.
  rewrite (Heq i j) by lia.
  rewrite (Heq (Z.to_nat (Z.of_nat i + dr)) (Z.to_nat (Z.of_nat j + dc))) by lia.
  done.
Qed.

Lemma fill_nodata_has_shape (filler : ndarray E → ndarray E) dem :
  rect dem → has_shape (filler dem) (nrows dem) (ncols dem) →
  has_shape (fill_nodata filler dem) (nrows dem) (ncols dem).
Proof.
  intros Hrect Hfill. apply rect_has_shape in Hrect.
  unfold fill_nodata. destruct (existsb _ _); [|done].
  apply has_shape_np_where; [by apply has_shape_fmap|done|done].
Qed.

(** [np.where] takes the value of the filter in the no-data cells and
    the elevation elsewhere. *)
Lemma fill_nodata_at (filler : ndarray E → ndarray E) dem i j :
  rect dem → has_shape (filler dem) (nrows dem) (ncols dem) →
  (i < nrows dem)%nat → (j < ncols dem)%nat →
  at2 (fill_nodata filler dem) i j =
    if e_isnan (at2 dem i j) then at2 (filler dem) i j else at2 dem i j.
Proof.
  intros Hrect Hfill Hi Hj. apply rect_has_shape in Hrect.
  set (mask := (λ r : list E, e_isnan <$> r) <$> dem).
  assert (has_shape mask (nrows dem) (ncols dem)) as Hmask
    by (by apply has_shape_fmap).
  assert (at2 mask i j = e_isnan (at2 dem i j)) as Hat
    by (unfold mask; by rewrite (at2_fmap _ _ (nrows dem) (ncols dem))).
  unfold fill_nodata. fold mask. destruct (existsb _ mask) eqn:Hany.
  - rewrite (at2_np_where _ _ _ (nrows dem) (ncols dem)) by done. by rewrite Hat.
  - rewrite <- Hat, (mask_none_at mask (nrows dem) (ncols dem)); done.
Qed.

(** A no-data cell of the array the resolver is given has the code 0, is
    the downstream cell of no cell and keeps the accumulation 1. *)
Lemma nodata_cell_isolated dem b :
  in_array dem b → e_isnan (at2 dem b.1 b.2) = true →
  at2 (calculate_flow_direction_d8 dem) b.1 b.2 = 0 ∧
  (∀ a, in_array dem a → target (calculate_flow_direction_d8 dem) a ≠ Some b) ∧
  at2 (calculate_flow_accumulation (calculate_flow_direction_d8 dem)) b.1 b.2 = 1.
Proof.
  intros Hb Hnan. pose proof Hb as [Hb1 Hb2].
  assert (∀ a, in_array dem a → target (calculate_flow_direction_d8 dem) a ≠ Some b) as Hno.
  { intros a Ha Ht. apply target_routes in Ht as [Hr _].
    destruct (d8_routes_neighbor dem a b Ha Hr) as (_ & _ & _ & Hnb & _). congruence. }
  assert (in_array (calculate_flow_direction_d8 dem) b) as Hb'.
  { unfold in_array. rewrite d8_nrows, d8_ncols by lia. done. }
  split_and!; [|done|].
  - rewrite d8_at by done. rewrite decide_False; [done|]. intros [_ ?]. congruence.
  - destruct (accumulate_run (calculate_flow_direction_d8 dem)) as (p & _ & _ & Hfin & _).
    destruct Hb' as [Hb1' Hb2']. rewrite calculate_at by done.
    rewrite Hfin.
    change (one_pass ?f (after_passes ?f p)) with (after_passes f (S p)).
    rewrite (no_inflow_keeps_one _ b (S p)); [reflexivity|done|].
    intros a Ha. apply Hno. unfold in_array in *.
    rewrite d8_nrows, d8_ncols in Ha by lia. done.
Qed.

(** X21: whatever the dtype of the elevation array, the filling of main
    replaces no-data cells only: the result has the shape of the
    elevation model, every cell that holds data keeps its elevation, and
    every cell whose 3 x 3 window holds no no-data cell keeps the
    direction code the resolver gives it, whatever the filter puts into
    the no-data cells. *)
Theorem fill_keeps_data_cells (filler : ndarray E → ndarray E) dem :
  rect dem → has_shape (filler dem) (nrows dem) (ncols dem) →
  has_shape (fill_nodata filler dem) (nrows dem) (ncols dem) ∧
  (∀ i j, (i < nrows dem)%nat → (j < ncols dem)%nat →
     e_isnan (at2 dem i j) = false →
     at2 (fill_nodata filler dem) i j = at2 dem i j) ∧
  (∀ i j, window_valid dem i j →
     at2 (calculate_flow_direction_d8 (fill_nodata filler dem)) i j
     = at2 (calculate_flow_direction_d8 dem) i j).
Proof.
  intros Hrect Hfill.
  pose proof (fill_nodata_has_shape filler dem Hrect Hfill) as Hshape.
  assert (∀ i j, (i < nrows dem)%nat → (j < ncols dem)%nat →
            e_isnan (at2 dem i j) = false →
            at2 (fill_nodata filler dem) i j = at2 dem i j) as Hkeep.
  { intros i j Hi Hj Hnan. rewrite fill_nodata_at by done. by rewrite Hnan. }
  split; [done|]. split; [done|].
  intros i j [Hint Hwin]. pose proof Hint as (Hi1 & Hi2 & Hj1 & Hj2).
  assert (nrows (fill_nodata filler dem) = nrows dem) as Hr
    by apply (has_shape_nrows _ _ _ Hshape).
  assert (ncols (fill_nodata filler dem) = ncols dem) as Hc
    by (apply (has_shape_ncols _ _ _ Hshape); lia).
  rewrite !d8_at by (rewrite ?Hr, ?Hc; lia).
  rewrite (Hkeep i j) by (lia || apply Hwin; lia).
  rewrite (Hwin i j) by lia.
  rewrite !decide_True by (split; [unfold interior; rewrite ?Hr, ?Hc; lia|done]).
  f_equal. apply scan_neighbors_window; [done|done|lia|lia| |].
  - intros i' j' Hi' Hj'. apply Hkeep; [lia|lia|by apply Hwin].
  - eapply Forall_impl; [apply neighbors_table|]. intros nb (_ & _ & _ & H1 & H2). done.
Qed.

(** X9: main fills the no-data cells before it resolves the directions,
    and the filter gives NaN again where the 3 x 3 window holds no
    elevation.  A no-data cell of the elevation model for which the
    filter returns NaN is still a no-data cell of the filled model;
    every no-data cell of the filled model, the array main hands to the
    resolver, has the code 0, is the downstream cell of no cell, and has
    the accumulation 1. *)
Theorem nodata_cells_take_no_flow (filler : ndarray E → ndarray E) dem b :
  rect dem → has_shape (filler dem) (nrows dem) (ncols dem) →
  in_array dem b →
  let filled := fill_nodata filler dem in
  (e_isnan (at2 dem b.1 b.2) = true → e_isnan (at2 (filler dem) b.1 b.2) = true →
   e_isnan (at2 filled b.1 b.2) = true) ∧
  (e_isnan (at2 filled b.1 b.2) = true →
   at2 (calculate_flow_direction_d8 filled) b.1 b.2 = 0 ∧
   (∀ a, in_array filled a → target (calculate_flow_direction_d8 filled) a ≠ Some b) ∧
   at2 (calculate_flow_accumulation (calculate_flow_direction_d8 filled)) b.1 b.2 = 1).
Proof.
  intros Hrect Hfill Hb filled.
  pose proof (fill_nodata_has_shape filler dem Hrect Hfill) as Hshape. fold filled in Hshape.
  pose proof Hb as [Hb1 Hb2]. split.
  - intros Hnan Hnan'. unfold filled. rewrite fill_nodata_at by done. by rewrite Hnan.
  - apply nodata_cell_isolated. unfold in_array.
    rewrite (has_shape_nrows _ _ _ Hshape), (has_shape_ncols _ _ _ Hshape) by lia. done.
Qed.

End Filling.

Lemma fill_keeps_data_cells_witness :
  has_shape (fill_nodata fill_with_eight dem_with_hole)
    (nrows dem_with_hole) (ncols dem_with_hole) ∧
  (∀ i j, (i < nrows dem_with_hole)%nat → (j < ncols dem_with_hole)%nat →
     e_isnan (at2 dem_with_hole i j) = false →
     at2 (fill_nodata fill_with_eight dem_with_hole) i j = at2 dem_with_hole i j) ∧
  (∀ i j, window_valid dem_with_hole i j →
     at2 (calculate_flow_direction_d8 (fill_nodata fill_with_eight dem_with_hole)) i j
     = at2 (calculate_flow_direction_d8 dem_with_hole) i j).
Proof.
  apply (fill_keeps_data_cells fill_with_eight dem_with_hole).
  - unfold rect. simpl. repeat constructor.
  - split; [reflexivity|]. simpl. repeat constructor.
Defined.

Lemma nodata_cells_take_no_flow_witness :
  let filled := fill_nodata fill_with_nan dem_with_hole in
  (e_isnan (at2 dem_with_hole 1 1) = true →
   e_isnan (at2 (fill_with_nan dem_with_hole) 1 1) = true →
   e_isnan (at2 filled 1 1) = true) ∧
  (e_isnan (at2 filled 1 1) = true →
   at2 (calculate_flow_direction_d8 filled) 1 1 = 0 ∧
   (∀ a, in_array filled a → target (calculate_flow_direction_d8 filled) a ≠ Some (1, 1)%nat) ∧
   at2 (calculate_flow_accumulation (calculate_flow_direction_d8 filled)) 1 1 = 1).
Proof.
  apply (nodata_cells_take_no_flow fill_with_nan dem_with_hole (1, 1)%nat).
  - unfold rect. simpl. repeat constructor.
  - split; [reflexivity|]. simpl. repeat constructor.
  - split; simpl; lia.
Defined.

(** ** Compositions *)

(** While a cell is not marked, each pass adds its value, at least 1, to
    its downstream cell. *)
Lemma inflow_grows_every_pass fd a b k :
  in_array fd a → target fd a = Some b →
  at2 (processed (after_passes fd k)) a.1 a.2 = false →
  Z.of_nat k + 1 ≤ at2 (flow_acc (after_passes fd k)) b.1 b.2.
Proof.
  intros Ha Ht. pose proof (proj1 (target_routes fd a b) Ht) as [Hr Hb].
  induction k as [|k IH]; intros Hp.
  - assert (at2 (flow_acc (after_passes fd 0)) b.1 b.2 = 1) as ->; [|lia].
    destruct Hb. unfold after_passes, acc_init. cbn [Nat.iter flow_acc].
    by apply at2_np_full.
  - pose proof (after_passes_wf fd k) as Hwf.
    destruct (one_pass_props fd _ Hwf) as (_ & _ & Hmark).
    change (after_passes fd (S k)) with (one_pass fd (after_passes fd k)) in *.
    destruct (at2 (processed (after_passes fd k)) a.1 a.2) eqn:Hpk.
    { rewrite (Hmark a.1 a.2 Hpk) in Hp. done. }
    specialize (IH eq_refl).
    destruct (one_pass_push fd _ a b Hwf Ha Hb Hr Hp) as (Hsum & _ & _).
    destruct Hwf as (_ & _ & Hge). destruct Ha as [Ha1 Ha2].
    pose proof (Hge a.1 a.2 Ha1 Ha2). lia.
Qed.

(** X23: the propagator adds the value of a cell to its downstream cell
    once in every pass, not once in all: the value returned for a cell
    with an inflow is at least the number of passes plus 1, or 1e6 when
    that is less, and so at least 51 in every run, also for a cell with a
    single upstream cell. *)
Theorem inflow_counted_in_every_pass fd a b :
  in_array fd a → target fd a = Some b →
  Z.min (Z.of_nat (passes (accumulate fd)) + 1) ceiling
    ≤ at2 (calculate_flow_accumulation fd) b.1 b.2 ∧
  51 ≤ at2 (calculate_flow_accumulation fd) b.1 b.2.
Proof.
  intros Ha Ht. pose proof (proj1 (target_routes fd a b) Ht) as [Hr [Hb1 Hb2]].
  destruct (accumulate_run fd) as (p & Hp & Hpass & Hfin & _ & Hwarn).
  rewrite calculate_at, Hpass by done.
  assert (at2 (processed (final (accumulate fd))) a.1 a.2 = true →
          ceiling < at2 (flow_acc (final (accumulate fd))) b.1 b.2) as Hguard.
  { intros Hm. destruct Ha as [Ha1 Ha2]. destruct Hr as (dr & dc & _ & Hd & H1 & H2).
    pose proof (accumulate_guard fd a.1 a.2 dr dc Ha1 Ha2 Hd Hm) as Hc.
    by rewrite <- H1, <- H2, !Nat2Z.id in Hc. }
  assert (at2 (processed (final (accumulate fd))) a.1 a.2 = false →
          Z.of_nat (S p) + 1 ≤ at2 (flow_acc (final (accumulate fd))) b.1 b.2) as Hgrow.
  { rewrite Hfin. apply (inflow_grows_every_pass fd a b (S p) Ha Ht). }
  assert (changed (final (accumulate fd)) = false →
          at2 (processed (final (accumulate fd))) a.1 a.2 = true) as Hconv.
  { rewrite Hfin. by apply (unflagged_pass_marks fd a b _ (after_passes_wf fd p)). }
  unfold ceiling in *. unfold max_iterations in *.
  destruct (at2 (processed (final (accumulate fd))) a.1 a.2) eqn:Hm.
  - specialize (Hguard eq_refl). lia.
  - specialize (Hgrow eq_refl).
    destruct (changed (final (accumulate fd))) eqn:Hc.
    + destruct (Hwarn eq_refl) as [Hmax _]. lia.
    + specialize (Hconv eq_refl). done.
Qed.

Lemma inflow_counted_in_every_pass_witness :
  Z.min (Z.of_nat (passes (accumulate sample_dir)) + 1) ceiling
    ≤ at2 (calculate_flow_accumulation sample_dir) 0 1 ∧
  51 ≤ at2 (calculate_flow_accumulation sample_dir) 0 1.
Proof.
  apply (inflow_counted_in_every_pass sample_dir (0, 0)%nat (0, 1)%nat).
  - split; simpl; lia.
  - reflexivity.
Defined.

Lemma filter_none {A} (P : A → Prop) `{!∀ x, Decision (P x)} (l : list A) :
  Forall (λ x, ¬ P x) l → filter P l = [].
Proof.
  induction 1 as [|x l HP _ IH]; [done|].
  by rewrite filter_cons, decide_False.
Qed.

Section PipelineEdges.
Context {T transform : Type}.
Variable rio_xy : transform → Z → Z → T * T.
Variable tr : transform.

(** X24: the accumulation the propagator returns never passes 1e6, so
    a threshold above 1e6 extracts no vector from it, whatever the
    direction field is. *)
Theorem no_vectors_above_ceiling fd dem_shape threshold :
  ceiling < threshold →
  extract_flow_vectors rio_xy fd (calculate_flow_accumulation fd) tr dem_shape threshold
  = [].
Proof.
  intros Hth. rewrite extract_flow_vectors_filter, filter_none; [done|].
  apply Forall_forall. intros c Hc [He _]. apply elem_of_cells in Hc as [Hc1 Hc2].
  unfold emits in He. apply andb_true_iff in He as [_ Hge]. apply Z.leb_le in Hge.
  rewrite calculate_at in Hge by done. lia.
Qed.
End PipelineEdges.

Lemma no_vectors_above_ceiling_witness :
  extract_flow_vectors unit_xy sample_dir (calculate_flow_accumulation sample_dir)
    (0, 0) (2, 3)%nat 1000001
  = [].
Proof.
  apply (no_vectors_above_ceiling unit_xy (0, 0) sample_dir (2, 3)%nat 1000001).
  unfold ceiling. lia.
Defined.

Section FillingEdges.
Context {E : Type} `{!Inhabited E, !Elevation E}.
Implicit Types dem : ndarray E.

(** X25: whatever the dtype of the elevation array, an elevation model
    without a no-data cell passes through the filling as it is; the
    filter is not consulted. *)
Theorem fill_without_nodata (filler : ndarray E → ndarray E) dem :
  Forall (Forall (λ v, e_isnan v = false)) dem →
  fill_nodata filler dem = dem.
Proof.
  intros Hall. unfold fill_nodata.
  assert (existsb (existsb id) ((λ r : list E, e_isnan <$> r) <$> dem)
          = false) as ->; [|done].
  induction Hall as [|r dem Hr _ IH]; [done|].
  rewrite fmap_cons. cbn [existsb]. rewrite IH, orb_false_r.
  induction Hr as [|v r Hv _ IHr]; [done|].
  rewrite fmap_cons. cbn [existsb id]. by rewrite Hv, IHr.
Qed.

(** X26: whatever the dtype of the elevation array, the code the
    resolver gives to a cell depends on the shape of the elevation model
    and on the elevations of the 3 x 3 window of the cell only: two
    models of one shape that agree on the window give the cell the same
    code. *)
Theorem d8_code_is_local dem1 dem2 i j :
  nrows dem1 = nrows dem2 → ncols dem1 = ncols dem2 →
  (i < nrows dem1)%nat → (j < ncols dem1)%nat →
  (∀ i' j', (i - 1 ≤ i' ≤ i + 1)%nat → (j - 1 ≤ j' ≤ j + 1)%nat →
     at2 dem1 i' j' = at2 dem2 i' j') →
  at2 (calculate_flow_direction_d8 dem1) i j = at2 (calculate_flow_direction_d8 dem2) i j.
Proof.
  intros Hr Hc Hi Hj Hwin. rewrite !d8_at by lia.
  rewrite <- (Hwin i j) by lia.
  assert (interior dem1 i j ↔ interior dem2 i j) as Hint
    by (unfold interior; by rewrite Hr, Hc).
  destruct (decide (interior dem1 i j ∧ e_isnan (at2 dem1 i j) = false))
    as [[H1 H2]|Hno].
  - rewrite decide_True by (by split; [apply Hint|]). f_equal.
    destruct H1 as (? & _ & ? & _).
    apply scan_neighbors_window; [done|done|lia|lia|done|].
    eapply Forall_impl; [apply neighbors_table|]. by intros nb (_ & _ & _ & ? & ?).
  - rewrite decide_False; [done|]. intros [H1 H2]. apply Hno. by split; [apply Hint|].
Qed.

End FillingEdges.

Lemma fill_without_nodata_witness :
  fill_nodata fill_with_eight slope_5x5 = slope_5x5.
Proof.
  apply (fill_without_nodata fill_with_eight slope_5x5).
  unfold slope_5x5. repeat constructor.
Defined.

Lemma d8_code_is_local_witness :
  at2 (calculate_flow_direction_d8 dem_with_hole) 3 3
  = at2 (calculate_flow_direction_d8 (fill_nodata fill_with_eight dem_with_hole)) 3 3.
Proof.
  apply (d8_code_is_local dem_with_hole (fill_nodata fill_with_eight dem_with_hole) 3 3).
  - reflexivity.
  - reflexivity.
  - simpl. lia.
  - simpl. lia.
  - intros i' j' Hi Hj.
    assert (i' = 2 ∨ i' = 3 ∨ i' = 4)%nat as [->|[->| ->]] by lia;
      (assert (j' = 2 ∨ j' = 3 ∨ j' = 4)%nat as [->|[->| ->]] by lia); reflexivity.
Defined.

(** ** Samples of the further properties *)

Lemma sample_evenly_upto_64_witness :
  ∃ out,
    sample_evenly items_11 4 = Some out ∧
    Z.of_nat (length out) = 4 ∧
    head out = head items_11 ∧ last out = last items_11 ∧
    out `sublist_of` items_11.
Proof.
  apply (sample_evenly_upto_64 items_11 4); simpl; lia.
Defined.

Lemma normalize_corners_binary64_witness :
  PrimFloat.eqb (x_norm (b_left square_box) (box_width square_box) (b_left square_box)) 0
    = true ∧
  y_norm (b_bottom square_box) (box_height square_box) (b_bottom square_box) = 1%float ∧
  x_norm (b_left square_box) (box_width square_box) (b_right square_box) = 1%float ∧
  y_norm (b_bottom square_box) (box_height square_box) (b_top square_box) = 0%float.
Proof.
  apply (normalize_corners_binary64 square_box); reflexivity.
Defined.
